(** * Minovative Mind: semantic linking and budgeted file summarisation

    A shallow embedding of
    - [src/context/semanticLinker.ts] (TF-IDF / cosine similarity graph),
    - the file summariser [intelligentlySummarizeFileContent],
    - the range and text helpers of [src/utils/codeAnalysisUtils.ts], and
    - the reverse dependency graph and the per-file statistics of the
      dependency graph builder,
    followed by the properties established about them.

    Conventions of the embedding:
    - a JavaScript string is the list of its UTF-16 code units ([N]);
    - integral JavaScript numbers (lengths, line numbers, budgets) are [Z];
    - a JavaScript exception is a [Throw] in the [result] monad;
    - an insertion-ordered [Map] is an association list whose [set] replaces
      in place or appends; where the identity of a [Map] object matters (the
      dependency cache), the objects live in a store and are passed around
      as references;
    - the scores of the similarity graph live in an abstract arithmetic
      ([Arith]), instantiated with IEEE doubles ([Float64Arith], the
      arithmetic of the program) and with the real numbers ([RArith], for
      what holds in exact arithmetic). *)

From Stdlib Require Import List ZArith NArith String Ascii Bool Lia.
From Stdlib Require Import Permutation DecimalString.
From Stdlib Require DecimalFacts DecimalPos.
From Stdlib Require Import Floats.
From Stdlib Require Import Reals Lra.
Import ListNotations.

Set Implicit Arguments.

(* ================================================================== *)
(** * JavaScript values: strings, exceptions, maps *)
(* ================================================================== *)

Module Js.

Local Open Scope Z_scope.

(** A string is a sequence of UTF-16 code units. *)
Definition str : Type := list N.

(** String literals of the source, written as Rocq strings. *)
Definition lit (s : string) : str :=
  map N_of_ascii (list_ascii_of_string s).

Arguments lit s%_string.

Definition str_eq_dec : forall a b : str, {a = b} + {a <> b} :=
  list_eq_dec N.eq_dec.

Definition str_eqb (a b : str) : bool :=
  if str_eq_dec a b then true else false.

(** [s.length] *)
Definition slen (s : str) : Z := Z.of_nat (List.length s).

(** Comparison with the empty string, also the falsiness of a string. *)
Definition isEmptyStr (s : str) : bool :=
  match s with [] => true | _ :: _ => false end.

(** The newline code unit. *)
Definition nl : N := 10%N.

(** ** Exceptions *)

Inductive Error : Type := TypeError.

Inductive result (A : Type) : Type :=
| Ok (a : A)
| Throw (e : Error).

Arguments Ok {A} a.
Arguments Throw {A} e.

Definition bind {A B : Type} (m : result A) (k : A -> result B) : result B :=
  match m with
  | Ok a => k a
  | Throw e => Throw e
  end.

(** [xs.forEach] / [for ... of] with a body that may throw and that
    contributes a list of pushed items. *)
Fixpoint flatMapM {A B : Type} (f : A -> result (list B)) (xs : list A)
  : result (list B) :=
  match xs with
  | [] => Ok []
  | x :: xs' =>
      bind (f x) (fun ys => bind (flatMapM f xs') (fun zs => Ok (ys ++ zs)))
  end.

(** ** String primitives *)

(** Argument clamping of [String.prototype.substring]. *)
Definition clampIndex (s : str) (i : Z) : nat :=
  Z.to_nat (Z.min (Z.max i 0) (slen s)).

(** [s.substring(a, b)]: both ends clamped to [0, length], swapped when
    [a > b]. *)
Definition substring (s : str) (a b : Z) : str :=
  let a' := clampIndex s a in
  let b' := clampIndex s b in
  let lo := Nat.min a' b' in
  let hi := Nat.max a' b' in
  firstn (hi - lo) (skipn lo s).

(** [s.substring(a)] *)
Definition substringFrom (s : str) (a : Z) : str :=
  skipn (clampIndex s a) s.

(** [s.startsWith(p)] *)
Fixpoint startsWith (s p : str) : bool :=
  match p with
  | [] => true
  | c :: p' =>
      match s with
      | [] => false
      | d :: s' => N.eqb c d && startsWith s' p'
      end
  end.

(** [s.endsWith(p)] *)
Definition endsWith (s p : str) : bool := startsWith (rev s) (rev p).

(** WhiteSpace and LineTerminator code units, the set removed by [trim]
    and matched by the regular expression class [\s]. *)
Definition isWhiteSpace (c : N) : bool :=
  ((9 <=? c) && (c <=? 13) || (c =? 32) || (c =? 160) || (c =? 5760)
   || (8192 <=? c) && (c <=? 8202) || (c =? 8232) || (c =? 8233)
   || (c =? 8239) || (c =? 8287) || (c =? 12288) || (c =? 65279))%N.

Fixpoint trimStart (s : str) : str :=
  match s with
  | [] => []
  | c :: s' => if isWhiteSpace c then trimStart s' else s
  end.

Definition trimEnd (s : str) : str := rev (trimStart (rev s)).

(** [s.trim()] *)
Definition trim (s : str) : str := trimEnd (trimStart s).

(** [s.split("\n")]: never empty, the empty string splits into one empty line. *)
Fixpoint splitLines (s : str) : list str :=
  match s with
  | [] => [[]]
  | c :: s' =>
      if (c =? nl)%N then [] :: splitLines s'
      else match splitLines s' with
           | l :: ls => (c :: l) :: ls
           | [] => [[c]]
           end
  end.

(** [parts.join(sep)] *)
Fixpoint join (sep : str) (parts : list str) : str :=
  match parts with
  | [] => []
  | p :: ps =>
      match ps with
      | [] => p
      | _ :: _ => p ++ sep ++ join sep ps
      end
  end.

Fixpoint findFrom (c : N) (s : str) (i : Z) : Z :=
  match s with
  | [] => -1
  | d :: s' => if (c =? d)%N then i else findFrom c s' (i + 1)
  end.

(** [s.indexOf(c, from)] for a one-unit needle [c]; [-1] when absent. *)
Definition indexOf (s : str) (c : N) (from : Z) : Z :=
  let k := clampIndex s from in
  findFrom c (skipn k s) (Z.of_nat k).

(** [s.replace(/\\/g, "/")] *)
Definition replaceBackslashes (s : str) : str :=
  map (fun c => if (c =? 92)%N then 47%N else c) s.

(** [s.replace(/\s+/g, " ")] *)
Fixpoint collapseWhiteSpace (s : str) : str :=
  match s with
  | [] => []
  | c :: s' =>
      if isWhiteSpace c then
        match s' with
        | d :: _ => if isWhiteSpace d then collapseWhiteSpace s'
                    else 32%N :: collapseWhiteSpace s'
        | [] => [32%N]
        end
      else c :: collapseWhiteSpace s'
  end.

(** [String(n)] for an integral number. *)
Definition numToString (n : Z) : str :=
  lit (NilZero.string_of_int (Z.to_int n)).

(** [lines[i]] immediately used as a string: reading outside the array
    gives [undefined], and the member access on it throws. *)
Definition lineAt (lines : list str) (i : Z) : result str :=
  if i <? 0 then Throw TypeError
  else match nth_error lines (Z.to_nat i) with
       | Some l => Ok l
       | None => Throw TypeError
       end.

(** [xs.sort(cmp)], a stable sort; [after a b] stands for [cmp(a, b) > 0],
    that is, [a] has to come after [b]. *)
Fixpoint insertBy {A : Type} (after : A -> A -> bool) (x : A) (l : list A)
  : list A :=
  match l with
  | [] => [x]
  | y :: l' => if after x y then y :: insertBy after x l' else x :: l
  end.

Definition sortBy {A : Type} (after : A -> A -> bool) (l : list A) : list A :=
  fold_right (insertBy after) [] l.

(** ** Insertion-ordered maps with string keys *)

Definition JsMap (V : Type) : Type := list (str * V).

Fixpoint map_get {V : Type} (m : JsMap V) (k : str) : option V :=
  match m with
  | [] => None
  | (k', v) :: m' => if str_eq_dec k' k then Some v else map_get m' k
  end.

(** [m.set(k, v)]: an existing key keeps its position. *)
Fixpoint map_set {V : Type} (m : JsMap V) (k : str) (v : V) : JsMap V :=
  match m with
  | [] => [(k, v)]
  | (k', v') :: m' =>
      if str_eq_dec k' k then (k, v) :: m' else (k', v') :: map_set m' k v
  end.

Definition map_keys {V : Type} (m : JsMap V) : list str := map fst m.

End Js.

Import Js.

Declare Scope js_scope.
Delimit Scope js_scope with js.
Notation "x <- m ;; k" := (bind m (fun x => k))
  (at level 61, m at next level, right associativity) : js_scope.
Open Scope js_scope.

(* ================================================================== *)
(** * The similarity graph (first part of src/context/semanticLinker.ts) *)
(* ================================================================== *)

Module SemanticLinker.

(** The double-precision operations the graph builder applies to scores.
    Term and document counts are integral and stay in [nat]; they enter
    the arithmetic through [num_of_nat]. *)
Class Arith : Type := mkArith {
  num : Type;
  num_zero : num;                    (* the literal [0] *)
  num_threshold : num;               (* the literal [0.01] *)
  num_of_nat : nat -> num;
  num_add : num -> num -> num;
  num_sub : num -> num -> num;
  num_mul : num -> num -> num;
  num_div : num -> num -> num;
  num_sqrt : num -> num;             (* [Math.sqrt] *)
  num_log : num -> num;              (* [Math.log] *)
  num_is_zero : num -> bool;         (* [x === 0] *)
  num_falsy : num -> bool;           (* [!x] *)
  num_gt : num -> num -> bool        (* [x > y] *)
}.

Definition STOP_WORDS : list str :=
  map lit
  [
   "a"; "about"; "above"; "after"; "again"; "against"; "all"; "am"; "an";
   "and"; "any"; "are"; "aren't"; "as"; "at"; "be"; "because"; "been";
   "before"; "being"; "below"; "between"; "both"; "but"; "by"; "can't";
   "cannot"; "could"; "couldn't"; "did"; "didn't"; "do"; "does";
   "doesn't"; "doing"; "don't"; "down"; "during"; "each"; "few"; "for";
   "from"; "further"; "had"; "hadn't"; "has"; "hasn't"; "have";
   "haven't"; "having"; "he"; "he'd"; "he'll"; "he's"; "her"; "here";
   "here's"; "hers"; "herself"; "him"; "himself"; "his"; "how"; "how's";
   "i"; "i'd"; "i'll"; "i'm"; "i've"; "if"; "in"; "into"; "is"; "isn't";
   "it"; "it's"; "its"; "itself"; "let's"; "me"; "more"; "most";
   "mustn't"; "my"; "myself"; "no"; "nor"; "not"; "of"; "off"; "on";
   "once"; "only"; "or"; "other"; "ought"; "our"; "ours"; "ourselves";
   "out"; "over"; "own"; "same"; "shan't"; "she"; "she'd"; "she'll";
   "she's"; "should"; "shouldn't"; "so"; "some"; "such"; "than"; "that";
   "that's"; "the"; "their"; "theirs"; "them"; "themselves"; "then";
   "there"; "there's"; "these"; "they"; "they'd"; "they'll"; "they're";
   "they've"; "this"; "those"; "through"; "to"; "too"; "under"; "until";
   "up"; "very"; "was"; "wasn't"; "we"; "we'd"; "we'll"; "we're";
   "we've"; "were"; "weren't"; "what"; "what's"; "when"; "when's";
   "where"; "where's"; "which"; "while"; "who"; "who's"; "whom"; "why";
   "why's"; "with"; "won't"; "would"; "wouldn't"; "you"; "you'd";
   "you'll"; "you're"; "you've"; "your"; "yours"; "yourself";
   "yourselves"; "file"; "code"; "function"; "class"; "method";
   "variable"; "parameter"; "return"; "import"; "export"; "const"; "let";
   "var"; "interface"; "type"; "public"; "private"; "protected";
   "static"; "async"; "await"; "new"; "this"; "super"; "extends";
   "implements"; "from"; "module"
  ]%string.

(** The class [\w] of the tokenising pattern. *)
Definition isWordChar (c : N) : bool :=
  ((48 <=? c) && (c <=? 57) || (65 <=? c) && (c <=? 90) || (c =? 95)
   || (97 <=? c) && (c <=? 122))%N.

(** [summary.match(/\b\w+\b/g) || []]: the maximal runs of word
    characters, left to right; [current] is the run being read. *)
Fixpoint wordRuns (s : str) (current : str) : list str :=
  match s with
  | [] => if isEmptyStr current then [] else [current]
  | c :: s' =>
      if isWordChar c then wordRuns s' (current ++ [c])
      else (if isEmptyStr current then [] else [current]) ++ wordRuns s' []
  end.

(** [t.toLowerCase()] on a run of word characters. *)
Definition toLowerCase (t : str) : str :=
  map (fun c => if ((65 <=? c) && (c <=? 90))%N then (c + 32)%N else c) t.

Definition tokensOf (summary : str) : list str :=
  map toLowerCase (wordRuns summary []).

(** [STOP_WORDS.has(token)] *)
Definition isStopWord (token : str) : bool :=
  existsb (str_eqb token) STOP_WORDS.

(** [m.get(k) || 0] on a map of counts. *)
Definition countOr0 (m : JsMap nat) (k : str) : nat :=
  match map_get m k with
  | Some n => n
  | None => O
  end.

(** [m.set(k, (m.get(k) || 0) + 1)] *)
Definition increment (m : JsMap nat) (k : str) : JsMap nat :=
  map_set m k (countOr0 m k + 1)%nat.

(** The term-frequency map of one summary. *)
Definition termFrequenciesOf (summary : str) : JsMap nat :=
  fold_left
    (fun termFrequencies token =>
       if negb (isStopWord token) && (1 <? List.length token)%nat
       then increment termFrequencies token
       else termFrequencies)
    (tokensOf summary) [].

(** [new Set(xs)]: first occurrences, in order. *)
Definition newSet (xs : list str) : list str :=
  fold_left (fun seen x => if existsb (str_eqb x) seen then seen else seen ++ [x])
            xs [].

(** [fileSummaries.get(filePath)], the empty string when absent. *)
Definition summaryOf (fileSummaries : JsMap str) (filePath : str) : str :=
  match map_get fileSummaries filePath with
  | Some s => s
  | None => []
  end.

(** The terms of a summary that survive the stop-word and length filter. *)
Definition termsOf (summary : str) : list str :=
  map_keys (termFrequenciesOf summary).

(** Document frequency in the words of the specification: the number of
    documents of the corpus that contain the term at least once. *)
Definition documentFrequency (fileSummaries : JsMap str) (filePaths : list str)
           (term : str) : nat :=
  List.length
    (filter (fun p => existsb (str_eqb term) (termsOf (summaryOf fileSummaries p)))
            filePaths).

(** 1. Term frequencies and document frequencies. *)
Definition countTerms (fileSummaries : JsMap str) (filePaths : list str)
  : JsMap (JsMap nat) * JsMap nat :=
  fold_left
    (fun '(tfMaps, dfMap) filePath =>
       let summary := summaryOf fileSummaries filePath in
       let termFrequencies := termFrequenciesOf summary in
       let uniqueTokens := newSet (map_keys termFrequencies) in
       (map_set tfMaps filePath termFrequencies,
        fold_left increment uniqueTokens dfMap))
    filePaths ([], []).

(** [dfMap.get(term) || 1] *)
Definition dfOr1 (dfMap : JsMap nat) (term : str) : nat :=
  match map_get dfMap term with
  | Some O => 1
  | Some d => d
  | None => 1
  end.

Section WithArith.

Context {A : Arith}.

Record SemanticLink : Type := mkLink { relatedPath : str; score : num }.

Definition SemanticGraph : Type := JsMap (list SemanticLink).

(** [v.get(term) || 0] *)
Definition scoreOr0 (v : JsMap num) (term : str) : num :=
  match map_get v term with
  | Some x => if num_falsy x then num_zero else x
  | None => num_zero
  end.

(** The accumulation loop of [calculateCosineSimilarity]:
    [(dotProduct, magnitudeA, magnitudeB)]. *)
Definition accumulate (vectorA vectorB : JsMap num) (allTerms : list str)
  : num * num * num :=
  fold_left
    (fun '(dotProduct, magnitudeA, magnitudeB) term =>
       let scoreA := scoreOr0 vectorA term in
       let scoreB := scoreOr0 vectorB term in
       (num_add dotProduct (num_mul scoreA scoreB),
        num_add magnitudeA (num_mul scoreA scoreA),
        num_add magnitudeB (num_mul scoreB scoreB)))
    allTerms (num_zero, num_zero, num_zero).

Definition calculateCosineSimilarity (vectorA vectorB : JsMap num) : num :=
  let termsA := newSet (map_keys vectorA) in
  let termsB := newSet (map_keys vectorB) in
  let allTerms := newSet (termsA ++ termsB) in
  let '(dotProduct, magnitudeA, magnitudeB) :=
    accumulate vectorA vectorB allTerms in
  if num_is_zero magnitudeA || num_is_zero magnitudeB then num_zero
  else num_div dotProduct (num_mul (num_sqrt magnitudeA) (num_sqrt magnitudeB)).

(** The weight of one term: [tf * Math.log(totalDocs / df)]. *)
Definition tfidfOf (totalDocs : nat) (dfMap : JsMap nat) (term : str)
           (tf : nat) : num :=
  let df := dfOr1 dfMap term in
  let idf := num_log (num_div (num_of_nat totalDocs) (num_of_nat df)) in
  num_mul (num_of_nat tf) idf.

(** The TF-IDF vector of one term-frequency map. *)
Definition tfidfVectorOf (totalDocs : nat) (dfMap : JsMap nat)
           (termFrequencies : JsMap nat) : JsMap num :=
  fold_left
    (fun tfidfVector '(term, tf) =>
       map_set tfidfVector term (tfidfOf totalDocs dfMap term tf))
    termFrequencies [].

(** 2. TF-IDF vectors for each file. *)
Definition tfidfVectorsOf (filePaths : list str)
           (tfMaps : JsMap (JsMap nat)) (dfMap : JsMap nat)
  : JsMap (JsMap num) :=
  let totalDocs := List.length filePaths in
  fold_left
    (fun tfidfVectors filePath =>
       match map_get tfMaps filePath with
       | None => tfidfVectors
       | Some termFrequencies =>
           map_set tfidfVectors filePath
                   (tfidfVectorOf totalDocs dfMap termFrequencies)
       end)
    filePaths [].

(** [if (!g.has(p)) g.set(p, []); g.get(p)!.push(link)] *)
Definition pushLink (g : SemanticGraph) (p : str) (link : SemanticLink)
  : SemanticGraph :=
  match map_get g p with
  | Some links => map_set g p (links ++ [link])
  | None => map_set g p [link]
  end.

(** The link list stored for a path; a path without entry has none. *)
Definition linksOf (g : SemanticGraph) (p : str) : list SemanticLink :=
  match map_get g p with
  | Some links => links
  | None => []
  end.

(** The body of the inner loop of step 3. *)
Definition linkPair (tfidfVectors : JsMap (JsMap num)) (pathA : str)
           (g : SemanticGraph) (pathB : str) : SemanticGraph :=
  match map_get tfidfVectors pathA, map_get tfidfVectors pathB with
  | Some vectorA, Some vectorB =>
      let similarity := calculateCosineSimilarity vectorA vectorB in
      if num_gt similarity num_threshold then
        pushLink (pushLink g pathA (mkLink pathB similarity))
                 pathB (mkLink pathA similarity)
      else g
  | _, _ => g
  end.

(** 3. [for i] / [for j = i + 1] over [filePaths]. *)
Fixpoint linkAll (tfidfVectors : JsMap (JsMap num)) (filePaths : list str)
         (g : SemanticGraph) : SemanticGraph :=
  match filePaths with
  | [] => g
  | pathA :: rest =>
      linkAll tfidfVectors rest
              (fold_left (linkPair tfidfVectors pathA) rest g)
  end.

(** [links.sort((a, b) => b.score - a.score)] *)
Definition linkAfter (a b : SemanticLink) : bool :=
  num_gt (num_sub (score b) (score a)) num_zero.

(** The TF-IDF vectors the builder computes for a corpus. *)
Definition corpusVectors (fileSummaries : JsMap str) : JsMap (JsMap num) :=
  let filePaths := map_keys fileSummaries in
  let '(tfMaps, dfMap) := countTerms fileSummaries filePaths in
  tfidfVectorsOf filePaths tfMaps dfMap.

Definition buildSemanticGraph (fileSummaries : JsMap str) : SemanticGraph :=
  let filePaths := map_keys fileSummaries in
  if (List.length filePaths <? 2)%nat then []
  else
    let tfidfVectors := corpusVectors fileSummaries in
    let semanticGraph := linkAll tfidfVectors filePaths [] in
    map (fun '(p, links) => (p, sortBy linkAfter links)) semanticGraph.

(** The similarity the builder computes for the pair [(pathA, pathB)]. *)
Definition pairSimilarity (fileSummaries : JsMap str) (pathA pathB : str)
  : option num :=
  let tfidfVectors := corpusVectors fileSummaries in
  match map_get tfidfVectors pathA, map_get tfidfVectors pathB with
  | Some vectorA, Some vectorB =>
      Some (calculateCosineSimilarity vectorA vectorB)
  | _, _ => None
  end.

End WithArith.

Arguments SemanticLink A : clear implicits.
Arguments SemanticGraph A : clear implicits.

(** Exact arithmetic: scores as real numbers. *)
Definition RArith : Arith :=
  {| num := R;
     num_zero := 0%R;
     num_threshold := (1 / 100)%R;
     num_of_nat := INR;
     num_add := Rplus;
     num_sub := Rminus;
     num_mul := Rmult;
     num_div := Rdiv;
     num_sqrt := sqrt;
     num_log := ln;
     num_is_zero := fun x => if Req_dec_T x 0 then true else false;
     num_falsy := fun x => if Req_dec_T x 0 then true else false;
     num_gt := fun x y => if Rgt_dec x y then true else false |}.

(** IEEE 754 double precision, the arithmetic of JavaScript numbers.
    The language only asks [Math.log] to approximate the logarithm, so
    the function is a parameter of the instance. *)
Definition Float64Arith (log : float -> float) : Arith :=
  {| num := float;
     num_zero := 0%float;
     num_threshold := 0x1.47ae147ae147bp-7%float; (* the double [0.01] *)
     num_of_nat := fun n => PrimFloat.of_uint63 (Uint63.of_Z (Z.of_nat n));
     num_add := PrimFloat.add;
     num_sub := PrimFloat.sub;
     num_mul := PrimFloat.mul;
     num_div := PrimFloat.div;
     num_sqrt := PrimFloat.sqrt;
     num_log := log;
     num_is_zero := fun x => PrimFloat.eqb x 0%float;
     num_falsy := fun x => PrimFloat.eqb x 0%float || PrimFloat.is_nan x;
     num_gt := fun x y => PrimFloat.ltb y x |}.

(** The double nearest to the logarithm of 2, [Math.LN2]. *)
Definition LN2 : float := 0x1.62e42fefa39efp-1%float.

End SemanticLinker.

Import SemanticLinker.

(* ================================================================== *)
(** * The host editor's positions and ranges *)
(* ================================================================== *)

(** The [vscode] module is not part of the repository.  Ranges are the
    four-number records of the specification; the three methods the
    summariser calls on them ([contains], [intersection], [isEmpty]) follow
    the editor API's documented behaviour. *)
Module Vscode.

Local Open Scope Z_scope.

Record Position : Type := mkPosition { line : Z; character : Z }.

Record Range : Type := mkRange { start : Position; end_ : Position }.

(** [new vscode.Range(startLine, startCharacter, endLine, endCharacter)],
    for a start that is not after the end, as at every call of the
    embedded code (the editor's constructor swaps the two otherwise). *)
Definition newRange (sl sc el ec : Z) : Range :=
  mkRange (mkPosition sl sc) (mkPosition el ec).

Definition isBefore (p q : Position) : bool :=
  (line p <? line q) || ((line p =? line q) && (character p <? character q)).

Definition isAfter (p q : Position) : bool := isBefore q p.

Definition isEqual (p q : Position) : bool :=
  (line p =? line q) && (character p =? character q).

Definition posMax (p q : Position) : Position := if isAfter q p then q else p.
Definition posMin (p q : Position) : Position := if isBefore q p then q else p.

(** [r.contains(p)]: both ends inclusive. *)
Definition contains (r : Range) (p : Position) : bool :=
  negb (isBefore p (start r)) && negb (isBefore (end_ r) p).

(** [r.intersection(other)]: [None] is [undefined]. *)
Definition intersection (r other : Range) : option Range :=
  let s := posMax (start other) (start r) in
  let e := posMin (end_ other) (end_ r) in
  if isAfter s e then None else Some (mkRange s e).

Definition isEmpty (r : Range) : bool := isEqual (start r) (end_ r).

(** [vscode.SymbolKind], in the order of its numeric values 0..25. *)
Inductive SymbolKind : Type :=
| KFile | KModule | KNamespace | KPackage | KClass | KMethod | KProperty
| KField | KConstructor | KEnum | KInterface | KFunction | KVariable
| KConstant | KString | KNumber | KBoolean | KArray | KObject | KKey
| KNull | KEnumMember | KStruct | KEvent | KOperator | KTypeParameter.

Definition kind_eq_dec : forall a b : SymbolKind, {a = b} + {a <> b}.
Proof. decide equality. Defined.

Definition kind_eqb (a b : SymbolKind) : bool :=
  if kind_eq_dec a b then true else false.

(** [kinds.includes(k)] *)
Definition includesKind (kinds : list SymbolKind) (k : SymbolKind) : bool :=
  existsb (kind_eqb k) kinds.

(** The reverse mapping [vscode.SymbolKind[k]]. *)
Definition kindName (k : SymbolKind) : str :=
  lit match k with
      | KFile => "File" | KModule => "Module" | KNamespace => "Namespace"
      | KPackage => "Package" | KClass => "Class" | KMethod => "Method"
      | KProperty => "Property" | KField => "Field"
      | KConstructor => "Constructor" | KEnum => "Enum"
      | KInterface => "Interface" | KFunction => "Function"
      | KVariable => "Variable" | KConstant => "Constant"
      | KString => "String" | KNumber => "Number" | KBoolean => "Boolean"
      | KArray => "Array" | KObject => "Object" | KKey => "Key"
      | KNull => "Null" | KEnumMember => "EnumMember" | KStruct => "Struct"
      | KEvent => "Event" | KOperator => "Operator"
      | KTypeParameter => "TypeParameter"
      end.

(** [vscode.DocumentSymbol] *)
#[warnings="-register-all"]
Inductive DocumentSymbol : Type :=
  mkSymbol (name detail : str) (kind : SymbolKind)
           (range selectionRange : Range) (children : list DocumentSymbol).

Definition sym_name (s : DocumentSymbol) : str :=
  let 'mkSymbol n _ _ _ _ _ := s in n.
Definition sym_detail (s : DocumentSymbol) : str :=
  let 'mkSymbol _ d _ _ _ _ := s in d.
Definition sym_kind (s : DocumentSymbol) : SymbolKind :=
  let 'mkSymbol _ _ k _ _ _ := s in k.
Definition sym_range (s : DocumentSymbol) : Range :=
  let 'mkSymbol _ _ _ r _ _ := s in r.
Definition sym_selectionRange (s : DocumentSymbol) : Range :=
  let 'mkSymbol _ _ _ _ r _ := s in r.
Definition sym_children (s : DocumentSymbol) : list DocumentSymbol :=
  let 'mkSymbol _ _ _ _ _ c := s in c.

End Vscode.

Import Vscode.

(* ================================================================== *)
(** * src/utils/codeAnalysisUtils.ts *)
(* ================================================================== *)

Module CodeAnalysisUtils.

Local Open Scope Z_scope.

(** The body of the [for (let i = startLine; i <= endLine; i++)] loop of
    [extractContentForRange]; [n] counts the iterations still to run. *)
Fixpoint extractLines (lines : list str) (range : Range) (n : nat) (i : Z)
  : result (list str) :=
  match n with
  | O => Ok []
  | S n' =>
      l <- lineAt lines i ;;
      let startLine := line (start range) in
      let endLine := line (end_ range) in
      let l' :=
        if (i =? startLine) && (i =? endLine) then
          substring l (character (start range)) (character (end_ range))
        else if i =? startLine then
          substringFrom l (character (start range))
        else if i =? endLine then
          substring l 0 (character (end_ range))
        else l in
      rest <- extractLines lines range n' (i + 1) ;;
      Ok (l' :: rest)
  end.

Definition extractContentForRange (fullContent : str) (range : Range)
  : result str :=
  let lines := splitLines fullContent in
  let startLine := line (start range) in
  let endLine := line (end_ range) in
  if (startLine <? 0) || (endLine >=? Z.of_nat (List.length lines))
     || (startLine >? endLine)
  then Ok []
  else
    contentLines <-
      extractLines lines range (Z.to_nat (endLine - startLine + 1)) startLine ;;
    Ok (join [nl] contentLines).

(** Symbol kinds whose declaration is followed by a braced body. *)
Definition BLOCK_KINDS : list SymbolKind :=
  [KClass; KFunction; KMethod; KConstructor; KModule; KNamespace; KEnum].

(** The code unit of the opening brace. *)
Definition brace : N := 123%N.

(** The brace search of [getDeclarationRange]:
    [for (let i = startLine; i <= endLine; i++)]; [None] when the loop
    ends without having returned. *)
Fixpoint findBrace (lines : list str) (symbol : DocumentSymbol)
         (n : nat) (i : Z) : result (option Range) :=
  match n with
  | O => Ok None
  | S n' =>
      l <- lineAt lines i ;;
      let searchStartChar :=
        if i =? line (start (sym_range symbol))
        then character (start (sym_range symbol)) else 0 in
      let braceIndex := indexOf l brace searchStartChar in
      if negb (braceIndex =? -1) then
        Ok (Some (mkRange (start (sym_range symbol))
                          (mkPosition i braceIndex)))
      else findBrace lines symbol n' (i + 1)
  end.

Definition getDeclarationRange (fullContent : str) (symbol : DocumentSymbol)
  : result Range :=
  let lines := splitLines fullContent in
  let startLine := line (start (sym_range symbol)) in
  let endLine := line (end_ (sym_range symbol)) in
  let isBlockKind := includesKind BLOCK_KINDS (sym_kind symbol) in
  found <-
    (if isBlockKind
     then findBrace lines symbol (Z.to_nat (endLine - startLine + 1)) startLine
     else Ok None) ;;
  match found with
  | Some r => Ok r
  | None =>
      if kind_eqb (sym_kind symbol) KInterface
         || kind_eqb (sym_kind symbol) KTypeParameter (* [=== 25] *)
         || isBlockKind
      then Ok (sym_selectionRange symbol)
      else Ok (sym_range symbol)
  end.

(** [trimmed] is shaped like a comment line. *)
Definition isCommentShaped (trimmed : str) : bool :=
  startsWith trimmed (lit "//") || startsWith trimmed (lit "/*")
  || startsWith trimmed (lit "*").

(** Step 1 of [getDocumentationRange]:
    [while (currentLine >= 0 && isBlank(lines[currentLine]))
       currentLine--;], a line being blank when its [trim()] is empty,
    with [n = currentLine + 1] the number of lines still below. *)
Fixpoint skipBlankLinesUp (lines : list str) (n : nat) (currentLine : Z)
  : result Z :=
  match n with
  | O => Ok currentLine
  | S n' =>
      l <- lineAt lines currentLine ;;
      if isEmptyStr (trim l) then skipBlankLinesUp lines n' (currentLine - 1)
      else Ok currentLine
  end.

(** Step 2: [for (let i = endDocLine; i >= 0; i--)], returning the final
    [startDocLine]; [n = i + 1]. *)
Fixpoint scanDocBlock (lines : list str) (n : nat) (i : Z) (startDocLine : Z)
  : result Z :=
  match n with
  | O => Ok startDocLine
  | S n' =>
      l <- lineAt lines i ;;
      let trimmed := trim l in
      if isEmptyStr trimmed then
        if negb (startDocLine =? -1)
        then scanDocBlock lines n' (i - 1) startDocLine
        else Ok startDocLine
      else if isCommentShaped trimmed then
        let startDocLine := i in
        stop <-
          (if startsWith trimmed (lit "//") && (i >? 0) then
             prev <- lineAt lines (i - 1) ;;
             let prevTrimmed := trim prev in
             Ok (negb (isEmptyStr prevTrimmed)
                 && negb (startsWith prevTrimmed (lit "//"))
                 && negb (startsWith prevTrimmed (lit "/*"))
                 && negb (startsWith prevTrimmed (lit "*")))
           else Ok false) ;;
        if stop then Ok startDocLine
        else if i =? 0 then Ok startDocLine
        else scanDocBlock lines n' (i - 1) startDocLine
      else Ok (i + 1)
  end.

(** The final clean-up loop:
    [while (finalStartLine < endDocLine
            && isBlank(lines[finalStartLine])) finalStartLine++;]
    with [n = endDocLine - finalStartLine]. *)
Fixpoint skipBlankLinesDown (lines : list str) (n : nat) (finalStartLine : Z)
  : result Z :=
  match n with
  | O => Ok finalStartLine
  | S n' =>
      l <- lineAt lines finalStartLine ;;
      if isEmptyStr (trim l)
      then skipBlankLinesDown lines n' (finalStartLine + 1)
      else Ok finalStartLine
  end.

(** [None] is the [null] result. *)
Definition getDocumentationRange (fullContent : str) (symbol : DocumentSymbol)
  : result (option Range) :=
  let lines := splitLines fullContent in
  let currentLine := line (start (sym_range symbol)) - 1 in
  currentLine <- skipBlankLinesUp lines (Z.to_nat (currentLine + 1)) currentLine ;;
  if currentLine <? 0 then Ok None
  else
    let endDocLine := currentLine in
    startDocLine <- scanDocBlock lines (Z.to_nat (endDocLine + 1)) endDocLine (-1) ;;
    if (startDocLine =? -1) || (startDocLine >? endDocLine) then Ok None
    else
      finalStartLine <-
        skipBlankLinesDown lines (Z.to_nat (endDocLine - startDocLine))
                           startDocLine ;;
      if finalStartLine >? endDocLine then Ok None
      else
        lastLine <- lineAt lines endDocLine ;;
        Ok (Some (newRange finalStartLine 0 endDocLine (slen lastLine))).

(** The children loop of [formatSymbolStructure]. *)
Definition formatChild (fullContent : str) (child : DocumentSymbol)
  : result (list str) :=
  if includesKind [KProperty; KMethod; KField; KEvent] (sym_kind child) then
    childDeclarationRange <- getDeclarationRange fullContent child ;;
    childContent <- extractContentForRange fullContent childDeclarationRange ;;
    let contentLine :=
      collapseWhiteSpace (trim (hd [] (splitLines childContent))) in
    let detail :=
      if isEmptyStr (sym_detail child) then []
      else lit " (" ++ sym_detail child ++ lit ")" in
    Ok [lit "  - " ++ contentLine ++ detail]
  else Ok [].

(** [None] is the [null] result. *)
Definition formatSymbolStructure (symbol : DocumentSymbol) (fullContent : str)
  : result (option str) :=
  if negb (kind_eqb (sym_kind symbol) KInterface)
     && negb (kind_eqb (sym_kind symbol) KTypeParameter) (* [!== 25] *)
  then Ok None
  else
    declarationRange <- getDeclarationRange fullContent symbol ;;
    extracted <- extractContentForRange fullContent declarationRange ;;
    let structure := trim extracted in
    let structure :=
      if endsWith structure [brace]
      then trim (substring structure 0 (slen structure - 1))
      else structure in
    let header :=
      lit "// " ++ kindName (sym_kind symbol) ++ lit ": " ++ sym_name symbol in
    childrenList <-
      (if 0 <? Z.of_nat (List.length (sym_children symbol))
       then flatMapM (formatChild fullContent) (sym_children symbol)
       else Ok []) ;;
    let formattedParts :=
      [header; structure]
      ++ (if 0 <? Z.of_nat (List.length childrenList)
          then [[brace]] ++ childrenList ++ [lit "}"]
          else []) in
    Ok (Some (join [nl] formattedParts)).

End CodeAnalysisUtils.

Import CodeAnalysisUtils.

(* ================================================================== *)
(** * The file summariser (second part of src/context/semanticLinker.ts) *)
(* ================================================================== *)

Module Summarizer.

Local Open Scope Z_scope.

(** [vscode.CallHierarchyItem], with [uri] standing for [uri.fsPath]. *)
Record CallHierarchyItem : Type := mkItem {
  item_name : str;
  item_uri : str;
  item_range : Range
}.

Record IncomingCall : Type := mkIncoming {
  from : CallHierarchyItem;
  fromRanges : list Range
}.

Record OutgoingCall : Type := mkOutgoing { to : CallHierarchyItem }.

(** Modelled from the spec: the declaration of [ActiveSymbolDetailedInfo]
    lives in services/contextService, outside the sources at hand.  The
    fields are those the summariser reads; an optional field is an
    [option]. *)
Record ActiveSymbolDetailedInfo : Type := mkActive {
  name : str;
  kind : option SymbolKind;
  filePath : option str;
  fullRange : option Range;
  incomingCalls : option (list IncomingCall);
  outgoingCalls : option (list OutgoingCall)
}.

Definition MAJOR_SYMBOL_KINDS : list SymbolKind :=
  [KClass; KFunction; KMethod; KInterface; KEnum; KNamespace; KConstructor;
   KModule; KVariable; KConstant; KTypeParameter; KProperty; KField].

Definition EXPORTED_SYMBOL_KINDS : list SymbolKind :=
  [KClass; KFunction; KInterface; KEnum; KVariable; KConstant].

(** The [MARKERS] table. *)
Definition DOC : str := lit "DOC".
Definition STRUCT : str := lit "STRUCT".
Definition SIGNATURE : str := lit "SIGNATURE".
Definition ACTIVE_SYMBOL : str := lit "ACTIVE_SYMBOL".
Definition IMPORTS : str := lit "IMPORTS".
Definition PREAMBLE : str := lit "PREAMBLE".
Definition CONTEXT : str := lit "CONTEXT".
Definition END_SECTION : str := lit "END_SECTION".

(** [priority] is kept in hundredths (5 is 500, 3.25 is 325), which
    preserves every comparison the source makes on it. *)
Record ContentCandidate : Type := mkCandidate {
  priority : Z;
  range : Range;
  marker : str;
  description : str;
  contentOverride : option str;
  desiredBlockLength : option Z
}.

Record CollectedPart : Type := mkPart { content : str; startLine : Z }.

(** The three mutable locals shared by the nested helpers. *)
Record PackerState : Type := mkState {
  currentLength : Z;
  collectedParts : list CollectedPart;
  includedRanges : list Range
}.

Definition initialState : PackerState := mkState 0 [] [].

(** [r.end.line - r.start.line + 1] *)
Definition lineCount (r : Range) : Z := line (end_ r) - line (start r) + 1.

(** The loop body of [isSubstantiallyOverlapping] for one already included
    range.  [intersectionLineCount >= candidateLineCount * 0.7] is decided
    on integers as [10 * i >= 7 * c], which agrees with the double
    comparison for all line counts below 2^50. *)
Definition coversSubstantially (candidateRange existingRange : Range) : bool :=
  let candidateLineCount := lineCount candidateRange in
  match intersection existingRange candidateRange with
  | Some i =>
      if negb (isEmpty i) then
        let intersectionLineCount := lineCount i in
        10 * intersectionLineCount >=? 7 * candidateLineCount
      else false
  | None => false
  end.

Definition isSubstantiallyOverlapping (includedRanges : list Range)
           (candidateRange : Range) : bool :=
  let candidateLineCount := lineCount candidateRange in
  if candidateLineCount <=? 0 then false
  else existsb (coversSubstantially candidateRange) includedRanges.

Definition truncationMessage : str := [nl] ++ lit "// ... (section truncated)".

Definition addContentBlock (maxAllowedLength : Z) (st : PackerState)
           (contentRaw : str) (sourceRange : Range) (markerType : str)
           (description : str) (desiredBlockLength : option Z)
  : bool * PackerState :=
  if currentLength st >=? maxAllowedLength then (false, st)
  else if isSubstantiallyOverlapping (includedRanges st) sourceRange
  then (false, st)
  else
    let headerContent :=
      if isEmptyStr description then [] else lit ": " ++ description in
    let headerPart := lit "// [" ++ markerType ++ headerContent ++ lit "]" ++ [nl] in
    let footerPart :=
      [nl] ++ lit "// [" ++ END_SECTION ++ lit ": " ++ markerType ++ lit "]" in
    let contentToUse :=
      match desiredBlockLength with
      | Some d => if slen contentRaw >? d then substring contentRaw 0 d
                  else contentRaw
      | None => contentRaw
      end in
    let combinedLength := slen headerPart + slen contentToUse + slen footerPart in
    let remainingSpace := maxAllowedLength - currentLength st in
    let combinedContent : option str :=
      if combinedLength >? remainingSpace then
        let availableContentLength :=
          remainingSpace - slen headerPart - slen footerPart in
        if availableContentLength >? 30 then
          Some (substring contentToUse 0
                          (availableContentLength - slen truncationMessage)
                ++ truncationMessage)
        else None
      else Some contentToUse in
    match combinedContent with
    | None => (false, st)
    | Some combinedContent =>
        let finalBlock := headerPart ++ combinedContent ++ footerPart in
        if slen finalBlock >? 0 then
          (true,
           mkState (currentLength st + slen finalBlock)
                   (collectedParts st
                    ++ [mkPart finalBlock (line (start sourceRange))])
                   (includedRanges st ++ [sourceRange]))
        else (false, st)
    end.

(** [fileLines[i]?.length || 0] *)
Definition lengthOfLineOr0 (fileLines : list str) (i : Z) : Z :=
  if i <? 0 then 0
  else match nth_error fileLines (Z.to_nat i) with
       | Some l => slen l
       | None => 0
       end.

(** The preamble scan over the first 20 lines; [i] is the index of the
    head of [ls]. *)
Fixpoint scanPreamble (ls : list str) (i : Z) (preambleEndLine : Z) : Z :=
  match ls with
  | [] => preambleEndLine
  | l :: ls' =>
      let t := trim l in
      if startsWith t (lit "//") || startsWith t (lit "/*")
         || startsWith t (lit "*") || startsWith t (lit "#") || isEmptyStr t
      then scanPreamble ls' (i + 1) i
      else preambleEndLine
  end.

Definition importKeywords : list str :=
  [lit "import "; lit "require("; lit "from "; lit "using "; lit "package "].

(** The import scan over all lines. *)
Fixpoint scanImports (ls : list str) (i : Z) (importAndSetupEndLine : Z)
         (foundFirstCodeOrImportLine : bool) : Z :=
  match ls with
  | [] => importAndSetupEndLine
  | l :: ls' =>
      let t := trim l in
      let isImportLike := existsb (startsWith t) importKeywords in
      let isCommentOrEmpty :=
        isEmptyStr t || startsWith t (lit "//") || startsWith t (lit "/*") in
      if isImportLike then scanImports ls' (i + 1) i true
      else if negb isCommentOrEmpty && foundFirstCodeOrImportLine
           then importAndSetupEndLine
           else scanImports ls' (i + 1) importAndSetupEndLine
                            foundFirstCodeOrImportLine
  end.

(** [candidates.sort((a, b) =>
      b.priority - a.priority || a.range.start.line - b.range.start.line)] *)
Definition candidateAfter (a b : ContentCandidate) : bool :=
  let d := priority b - priority a in
  if negb (d =? 0) then d >? 0
  else line (start (range a)) - line (start (range b)) >? 0.

(** [collectedParts.sort((a, b) => a.startLine - b.startLine)] *)
Definition partAfter (a b : CollectedPart) : bool :=
  startLine a - startLine b >? 0.

Definition separator : str :=
  [nl; nl] ++ lit "// ... (non-contiguous section) ..." ++ [nl; nl].

Definition isLocationInCurrentFile (location : CallHierarchyItem)
           (currentFilePath : str) : bool :=
  if isEmptyStr currentFilePath then false
  else str_eqb (replaceBackslashes (item_uri location))
               (replaceBackslashes currentFilePath).

Section WithBudget.

(** The constant imported from services/contextService. *)
Variable MAX_REFERENCED_TYPE_CONTENT_CHARS_CONSTANT : Z.

Variable fileContent : str.
Variable documentSymbols : option (list DocumentSymbol).
Variable activeSymbolDetailedInfo : option ActiveSymbolDetailedInfo.
Variable maxAllowedLength : Z.

Definition fileLines : list str := splitLines fileContent.

(** 1. The active symbol's full definition. *)
Definition activeCandidates : list ContentCandidate :=
  match activeSymbolDetailedInfo with
  | Some info =>
      match fullRange info with
      | Some r =>
          let kindName :=
            match kind info with
            | Some k => kindName k
            | None => lit "Unknown"
            end in
          [mkCandidate 500 r ACTIVE_SYMBOL
                       (name info ++ lit " (" ++ kindName ++ lit ")")
                       None None]
      | None => []
      end
  | None => []
  end.

(** 2. The file preamble. *)
Definition preambleEndLine : Z :=
  scanPreamble (firstn 20 fileLines) 0 (-1).

Definition preambleCandidates : list ContentCandidate :=
  if preambleEndLine >=? 0 then
    [mkCandidate 450
                 (newRange 0 0 preambleEndLine
                           (lengthOfLineOr0 fileLines preambleEndLine))
                 PREAMBLE (lit "High-level description") None
                 (Some (maxAllowedLength * 15 / 100))]
  else [].

(** 3. Import statements and module-level setup. *)
Definition importAndSetupEndLine : Z := scanImports fileLines 0 (-1) false.

Definition importCandidates : list ContentCandidate :=
  if importAndSetupEndLine >=? 0 then
    let startLineForImports := Z.max (preambleEndLine + 1) 0 in
    if importAndSetupEndLine >=? startLineForImports then
      [mkCandidate 400
                   (newRange startLineForImports 0 importAndSetupEndLine
                             (lengthOfLineOr0 fileLines importAndSetupEndLine))
                   IMPORTS (lit "Module Setup") None
                   (Some (maxAllowedLength * 20 / 100))]
    else []
  else [].

(** 4. Exported major symbols: the body of the [forEach]. *)
Definition exportedSymbolCandidates (symbol : DocumentSymbol)
  : result (list ContentCandidate) :=
  let kindName := kindName (sym_kind symbol) in
  docRange <- getDocumentationRange fileContent symbol ;;
  let docs :=
    match docRange with
    | Some r =>
        [mkCandidate 390 r DOC
                     (lit "Exported " ++ kindName ++ lit " Documentation: "
                      ++ sym_name symbol)
                     None (Some 512)]
    | None => []
    end in
  structs <-
    (if kind_eqb (sym_kind symbol) KInterface
        || kind_eqb (sym_kind symbol) KTypeParameter
        || kind_eqb (sym_kind symbol) KTypeParameter (* [=== 25] *)
     then
       structuredContent <- formatSymbolStructure symbol fileContent ;;
       match structuredContent with
       | Some c =>
           if isEmptyStr c then Ok []
           else
             Ok [mkCandidate 380 (sym_range symbol) STRUCT
                             (lit "Exported " ++ kindName ++ lit " Structure: "
                              ++ sym_name symbol)
                             (Some c) (Some (maxAllowedLength * 15 / 100))]
       | None => Ok []
       end
     else Ok []) ;;
  declarationRange <- getDeclarationRange fileContent symbol ;;
  Ok (docs ++ structs
      ++ [mkCandidate 370 declarationRange SIGNATURE
                      (lit "Exported " ++ kindName ++ lit " Signature: "
                       ++ sym_name symbol)
                      None (Some 1024)]).

Definition exportedCandidates : result (list ContentCandidate) :=
  match documentSymbols with
  | Some symbols =>
      flatMapM exportedSymbolCandidates
               (filter (fun symbol =>
                          includesKind EXPORTED_SYMBOL_KINDS (sym_kind symbol)
                          && (line (start (sym_range symbol))
                              >? importAndSetupEndLine))
                       symbols)
  | None => Ok []
  end.

(** 5. Call hierarchy details within the current file. *)
Definition incomingCandidates (currentFileNormalizedPath : str)
           (call : IncomingCall) : list ContentCandidate :=
  if isLocationInCurrentFile (from call) currentFileNormalizedPath then
    match fromRanges call with
    | r :: _ =>
        [mkCandidate 325 r CONTEXT
                     (lit "Call to active symbol from: "
                      ++ item_name (from call))
                     None (Some MAX_REFERENCED_TYPE_CONTENT_CHARS_CONSTANT)]
    | [] => []
    end
  else [].

Definition outgoingCandidates (currentFileNormalizedPath : str)
           (call : OutgoingCall) : list ContentCandidate :=
  if isLocationInCurrentFile (to call) currentFileNormalizedPath then
    [mkCandidate 325 (item_range (to call)) CONTEXT
                 (lit "Active symbol calls: " ++ item_name (to call))
                 None (Some MAX_REFERENCED_TYPE_CONTENT_CHARS_CONSTANT)]
  else [].

Definition callCandidates : list ContentCandidate :=
  match activeSymbolDetailedInfo with
  | Some info =>
      match filePath info with
      | Some p =>
          if isEmptyStr p then []
          else
            let currentFileNormalizedPath := replaceBackslashes p in
            flat_map (incomingCandidates currentFileNormalizedPath)
                     (match incomingCalls info with
                      | Some cs => cs | None => [] end)
            ++ flat_map (outgoingCandidates currentFileNormalizedPath)
                        (match outgoingCalls info with
                         | Some cs => cs | None => [] end)
      | None => []
      end
  | None => []
  end.

(** 6. Other major symbol definitions. *)
Definition internalSymbolCandidates (symbol : DocumentSymbol)
  : result (list ContentCandidate) :=
  declarationRange <- getDeclarationRange fileContent symbol ;;
  Ok [mkCandidate 300 declarationRange SIGNATURE
                  (lit "Internal " ++ kindName (sym_kind symbol)
                   ++ lit " Signature: " ++ sym_name symbol)
                  None (Some 2048)].

Definition internalCandidates : result (list ContentCandidate) :=
  match documentSymbols with
  | Some symbols =>
      flatMapM internalSymbolCandidates
               (filter (fun symbol =>
                          includesKind MAJOR_SYMBOL_KINDS (sym_kind symbol)
                          && negb (includesKind EXPORTED_SYMBOL_KINDS
                                                (sym_kind symbol)))
                       symbols)
  | None => Ok []
  end.

(** The candidate array in the order of the pushes. *)
Definition generateCandidates : result (list ContentCandidate) :=
  exported <- exportedCandidates ;;
  internal <- internalCandidates ;;
  Ok (activeCandidates ++ preambleCandidates ++ importCandidates
      ++ exported ++ callCandidates ++ internal).

(** The [for (const candidate of candidates)] loop. *)
Fixpoint processCandidates (candidates : list ContentCandidate)
         (st : PackerState) : result PackerState :=
  match candidates with
  | [] => Ok st
  | candidate :: rest =>
      if currentLength st >=? maxAllowedLength then Ok st
      else
        contentRaw <-
          (match contentOverride candidate with
           | Some c =>
               if isEmptyStr c
               then extractContentForRange fileContent (range candidate)
               else Ok c
           | None => extractContentForRange fileContent (range candidate)
           end) ;;
        let st' :=
          if negb (isEmptyStr (trim contentRaw)) then
            snd (addContentBlock maxAllowedLength st contentRaw
                                 (range candidate) (marker candidate)
                                 (description candidate)
                                 (desiredBlockLength candidate))
          else st in
        processCandidates rest st'
  end.

Definition isCovered (includedRanges : list Range) (p : Position) : bool :=
  existsb (fun r => contains r p) includedRanges.

(** [while (blockEndLine + 1 < fileLines.length)] of the fallback pass;
    [n = fileLines.length - (blockEndLine + 1)]. *)
Fixpoint extendBlock (includedRanges : list Range) (n : nat)
         (blockEndLine : Z) : Z :=
  match n with
  | O => blockEndLine
  | S n' =>
      if isCovered includedRanges (mkPosition (blockEndLine + 1) 0)
      then blockEndLine
      else extendBlock includedRanges n' (blockEndLine + 1)
  end.

(** [while (currentLine < fileLines.length
            && currentLength < maxAllowedLength)].
    Every iteration moves [currentLine] forward, so
    [fileLines.length] units of [fuel] let the loop run to its end
    (see [fallbackLoop_fuel]). *)
Fixpoint fallbackLoop (fuel : nat) (currentLine : Z) (st : PackerState)
  : result PackerState :=
  match fuel with
  | O => Ok st
  | S fuel' =>
      if (currentLine <? Z.of_nat (List.length fileLines))
         && (currentLength st <? maxAllowedLength)
      then
        thisLine <- lineAt fileLines currentLine ;;
        let lineRange := newRange currentLine 0 currentLine (slen thisLine) in
        let isLineCovered := isCovered (includedRanges st) (start lineRange) in
        if negb isLineCovered then
          let blockEndLine :=
            extendBlock (includedRanges st)
                        (Z.to_nat (Z.of_nat (List.length fileLines)
                                   - (currentLine + 1)))
                        currentLine in
          lastLine <- lineAt fileLines blockEndLine ;;
          let snippetRange :=
            newRange currentLine 0 blockEndLine (slen lastLine) in
          snippetContent <- extractContentForRange fileContent snippetRange ;;
          let st' :=
            if negb (isEmptyStr (trim snippetContent)) then
              snd (addContentBlock maxAllowedLength st snippetContent
                     snippetRange CONTEXT
                     (lit "Lines " ++ numToString (currentLine + 1)
                      ++ lit "-" ++ numToString (blockEndLine + 1))
                     (Some (maxAllowedLength - currentLength st)))
            else st in
          fallbackLoop fuel' (blockEndLine + 1) st'
        else fallbackLoop fuel' (currentLine + 1) st
      else Ok st
  end.

(** The packer state when the candidate and fallback passes are over. *)
Definition packedState : result PackerState :=
  candidates <- generateCandidates ;;
  let candidates := sortBy candidateAfter candidates in
  st <- processCandidates candidates initialState ;;
  if currentLength st <? maxAllowedLength
  then fallbackLoop (List.length fileLines) 0 st
  else Ok st.

Definition truncatedSuffix : str := [nl] ++ lit "// ... (truncated)".

Definition fallbackSnippet : str :=
  lit "// File content could not be summarized. Snippet: "
  ++ substring fileContent 0 (Z.min (slen fileContent) 100)
  ++ lit "...".

(** Final assembly. *)
Definition assemble (st : PackerState) : str :=
  let collectedParts := sortBy partAfter (collectedParts st) in
  let finalContent := join separator (map content collectedParts) in
  let finalContent :=
    if slen finalContent >? maxAllowedLength
    then substring finalContent 0 maxAllowedLength ++ truncatedSuffix
    else finalContent in
  if isEmptyStr (trim finalContent) && (slen fileContent >? 0)
  then fallbackSnippet
  else trim finalContent.

Definition intelligentlySummarizeFileContent : result str :=
  st <- packedState ;;
  Ok (assemble st).

(** The source ranges of the accepted blocks, in order of acceptance. *)
Definition acceptedRanges : result (list Range) :=
  st <- packedState ;;
  Ok (includedRanges st).

End WithBudget.

(** The acceptance discipline of the packer: every included range passed
    the overlap test against the ranges included before it. *)
Definition acceptedInOrder (ranges : list Range) : Prop :=
  forall earlier r later,
    ranges = earlier ++ r :: later ->
    isSubstantiallyOverlapping earlier r = false.

(** A range all of whose lines exist in the file. *)
Definition rangeInFile (lines : list str) (r : Range) : Prop :=
  0 <= line (start r) /\ line (start r) <= line (end_ r)
  /\ line (end_ r) < Z.of_nat (List.length lines).

(** Document symbols computed for this very text: the lines of every
    symbol, and of its children, exist in the file. *)
Definition symbolInFile (lines : list str) (symbol : DocumentSymbol) : Prop :=
  rangeInFile lines (sym_range symbol)
  /\ Forall (fun child => rangeInFile lines (sym_range child))
            (sym_children symbol).

Definition symbolsInFile (fileContent : str)
           (documentSymbols : option (list DocumentSymbol)) : Prop :=
  match documentSymbols with
  | Some symbols => Forall (symbolInFile (splitLines fileContent)) symbols
  | None => True
  end.

(** In the words of the specification: the number of source lines two
    ranges have in common, and the test that [r] shares 70% or more of
    its own line count with [other]. *)
Definition sharedLines (r other : Range) : Z :=
  Z.max 0 (Z.min (line (end_ r)) (line (end_ other))
           - Z.max (line (start r)) (line (start other)) + 1).

Definition overlaps70 (r other : Range) : bool :=
  10 * sharedLines r other >=? 7 * lineCount r.

(** The order of positions in a text, written out: [p] comes strictly
    before [q]. *)
Definition precedes (p q : Position) : Prop :=
  line p < line q \/ (line p = line q /\ character p < character q).

(** Two ranges have text in common: neither is empty and each starts
    before the other ends, so that at least one character lies in both. *)
Definition shareText (r other : Range) : Prop :=
  precedes (start r) (end_ r) /\ precedes (start other) (end_ other)
  /\ precedes (start r) (end_ other) /\ precedes (start other) (end_ r).

End Summarizer.

Import Summarizer.

(* ================================================================== *)
(** * Sample inputs *)
(* ================================================================== *)

Module Examples.

Local Open Scope Z_scope.

(** Two documents with the same summary and nothing else. *)
Definition twinCorpus : JsMap str :=
  [(lit "a.ts", lit "handles user login");
   (lit "b.ts", lit "handles user login")].

(** The same two documents next to an unrelated third one. *)
Definition authCorpus : JsMap str :=
  twinCorpus ++ [(lit "c.ts", lit "renders button component")].

(** Two pairs of twins: every term occurs in two documents out of four. *)
Definition quadCorpus : JsMap str :=
  [(lit "a.ts", lit "alpha beta");
   (lit "b.ts", lit "alpha beta");
   (lit "c.ts", lit "gamma delta");
   (lit "d.ts", lit "gamma delta")].

(** The value used for [MAX_REFERENCED_TYPE_CONTENT_CHARS_CONSTANT]
    in the samples; no sample has call-hierarchy data. *)
Definition maxReferenced : Z := 5000.

(** A seven-line source file with a one-line header comment. *)
Definition sampleFile : str :=
  join [nl]
       [lit "// header comment";
        lit "const a = 1;";
        lit "const b = 2;";
        lit "export function f() {";
        lit "  return a + b + 1000000;";
        lit "}";
        []].

(** A four-line object literal, its document symbol, and the active
    symbol on its second line. *)
Definition configFile : str :=
  join [nl] [lit "const config = {"; lit "  a: 1,"; lit "  b: 2,"; lit "};"].

Definition configSymbol : DocumentSymbol :=
  mkSymbol (lit "config") [] KVariable (newRange 0 0 3 2) (newRange 0 6 0 12) [].

Definition configProperty : ActiveSymbolDetailedInfo :=
  mkActive (lit "a") (Some KProperty) (Some (lit "src/config.ts"))
           (Some (newRange 1 0 1 7)) None None.

(** A one-line file with the symbol of a function that an earlier, longer
    version of the file had on lines 2 to 4. *)
Definition shortFile : str := lit "function f() {}".

Definition staleSymbol : DocumentSymbol :=
  mkSymbol (lit "f") [] KFunction (newRange 2 0 4 1) (newRange 2 9 2 10) [].

(** Active-symbol information about a symbol of another file. *)
Definition foreignSymbol : ActiveSymbolDetailedInfo :=
  mkActive (lit "helper") (Some KFunction) (Some (lit "src/other.ts"))
           (Some (newRange 0 0 0 5)) None None.

(** Two declarations on one line, and their document symbols. *)
Definition sameLineFile : str := lit "const a = 1; const b = 2;".

Definition sameLineSymbols : list DocumentSymbol :=
  [mkSymbol (lit "a") [] KVariable (newRange 0 6 0 11) (newRange 0 6 0 7) [];
   mkSymbol (lit "b") [] KVariable (newRange 0 19 0 24) (newRange 0 19 0 20)
            []].

End Examples.

Import Examples.

(* ================================================================== *)
(** * The text helpers of src/utils/codeAnalysisUtils.ts *)
(* ================================================================== *)

Module CodeAnalysisText.

Local Open Scope Z_scope.

(** [s.includes(p)] *)
Fixpoint includes (s p : str) : bool :=
  startsWith s p
  || match s with
     | [] => false
     | _ :: s' => includes s' p
     end.

(** [s.padStart(n, " ")] *)
Definition padStart (s : str) (n : Z) : str :=
  repeat 32%N (Z.to_nat (n - slen s)) ++ s.

(** [lines[i]] inside a template literal: a missing element prints as
    [undefined]. *)
Definition lineText (lines : list str) (i : Z) : str :=
  if i <? 0 then lit "undefined"
  else match nth_error lines (Z.to_nat i) with
       | Some l => l
       | None => lit "undefined"
       end.

(** The [for (let i = start; i <= end; i++)] loop of [getCodeSnippet];
    [n] counts the iterations still to run. *)
Fixpoint snippetLines (lines : list str) (maxLineNumLength : Z) (n : nat)
         (i : Z) : list str :=
  match n with
  | O => []
  | S n' =>
      let currentLineNum := i + 1 in
      let paddedLineNum :=
        padStart (numToString currentLineNum) maxLineNumLength in
      (paddedLineNum ++ lit ": " ++ lineText lines i)
      :: snippetLines lines maxLineNumLength n' (i + 1)
  end.

(** [linesBefore] and [linesAfter] default to 2 at the call sites that
    leave them out. *)
Definition getCodeSnippet (fullContent : str)
           (lineNumber linesBefore linesAfter : Z) : str :=
  let lines := splitLines fullContent in
  let zeroBasedLineNumber := lineNumber - 1 in
  let start := Z.max 0 (zeroBasedLineNumber - linesBefore) in
  let end_ :=
    Z.min (Z.of_nat (List.length lines) - 1)
          (zeroBasedLineNumber + linesAfter) in
  let maxLineNumLength := slen (numToString (end_ + 1)) in
  join [nl]
       (snippetLines lines maxLineNumLength (Z.to_nat (end_ - start + 1)) start).

(** [FileStructureAnalysis] is declared in types/codeGenerationTypes,
    outside the sources at hand; its six arrays and the [{line, content}]
    shape of their elements are those [analyzeFileStructure] builds. *)
Record StructureEntry : Type := mkEntry { entry_line : Z; entry_content : str }.

Record FileStructureAnalysis : Type := mkStructure {
  imports : list StructureEntry;
  exports : list StructureEntry;
  functions : list StructureEntry;
  classes : list StructureEntry;
  variables : list StructureEntry;
  comments : list StructureEntry
}.

(** The body of the loop of [analyzeFileStructure] for line [i]. *)
Definition classifyLine (structure : FileStructureAnalysis) (i : Z)
           (rawLine : str) : FileStructureAnalysis :=
  let line := trim rawLine in
  let entry := mkEntry (i + 1) line in
  if startsWith line (lit "import ") then
    mkStructure (imports structure ++ [entry]) (exports structure)
                (functions structure) (classes structure)
                (variables structure) (comments structure)
  else if startsWith line (lit "export ") then
    mkStructure (imports structure) (exports structure ++ [entry])
                (functions structure) (classes structure)
                (variables structure) (comments structure)
  else if includes line (lit "function ") || includes line (lit "=>") then
    mkStructure (imports structure) (exports structure)
                (functions structure ++ [entry]) (classes structure)
                (variables structure) (comments structure)
  else if includes line (lit "class ") then
    mkStructure (imports structure) (exports structure)
                (functions structure) (classes structure ++ [entry])
                (variables structure) (comments structure)
  else if includes line (lit "const ") || includes line (lit "let ")
          || includes line (lit "var ") then
    mkStructure (imports structure) (exports structure)
                (functions structure) (classes structure)
                (variables structure ++ [entry]) (comments structure)
  else if startsWith line (lit "//") || startsWith line (lit "/*") then
    mkStructure (imports structure) (exports structure)
                (functions structure) (classes structure)
                (variables structure) (comments structure ++ [entry])
  else structure.

(** [for (let i = 0; i < lines.length; i++)]; [i] is the index of the head
    of [ls]. *)
Fixpoint analyzeLines (ls : list str) (i : Z)
         (structure : FileStructureAnalysis) : FileStructureAnalysis :=
  match ls with
  | [] => structure
  | l :: ls' => analyzeLines ls' (i + 1) (classifyLine structure i l)
  end.

(** The value the returned promise resolves to; [filePath] is not read. *)
Definition analyzeFileStructure (filePath content : str)
  : FileStructureAnalysis :=
  analyzeLines (splitLines content) 0 (mkStructure [] [] [] [] [] []).

(** All entries of an analysis, list after list. *)
Definition allEntries (structure : FileStructureAnalysis)
  : list StructureEntry :=
  imports structure ++ exports structure ++ functions structure
  ++ classes structure ++ variables structure ++ comments structure.

(** [Canonicalize] of a case-insensitive regular expression without the
    [u] flag, as far as a match against ASCII letters and blanks goes: a
    code unit is compared through its upper-case form, and a unit outside
    ASCII never folds onto an ASCII one, so that only the two cases of a
    letter match it. *)
Definition canonicalize (c : N) : N :=
  if ((97 <=? c) && (c <=? 122))%N then (c - 32)%N else c.

(** [word] matches at the head of [s], letter case ignored. *)
Fixpoint startsWithIgnoringCase (s word : str) : bool :=
  match word with
  | [] => true
  | c :: word' =>
      match s with
      | [] => false
      | d :: s' =>
          N.eqb (canonicalize c) (canonicalize d)
          && startsWithIgnoringCase s' word'
      end
  end.

Fixpoint includesIgnoringCase (s word : str) : bool :=
  startsWithIgnoringCase s word
  || match s with
     | [] => false
     | _ :: s' => includesIgnoringCase s' word
     end.

(** [/(?:[a-zA-Z0-9]+)?\s*(error|fail|exception|apology|i am sorry)[\s\S]*?/i
     .test(content)]: the optional group, the [\s*] and the lazy tail all
    match the empty string and the pattern is not anchored, so the test
    succeeds exactly when one of the five alternatives occurs somewhere. *)
Definition markdownErrorPattern (content : str) : bool :=
  existsb (includesIgnoringCase content)
          (map lit ["error"; "fail"; "exception"; "apology"; "i am sorry"]%string).

Definition errorPhrases : list str :=
  map lit
  ["i am sorry"; "i'm sorry"; "i cannot fulfill this request";
   "i encountered an error"; "i ran into an issue"; "an error occurred";
   "i am unable to provide"; "please try again"; "i couldn't generate";
   "i'm having trouble"; "error:"; "failure:"; "exception:"; "i can't";
   "i am not able to"; "as an ai model"; "i lack the ability to";
   "insufficient information"; "invalid request"; "not enough context"
  ]%string.

Definition systemErrorPhrases : list str :=
  map lit
  ["access denied"; "file not found"; "permission denied"; "timeout";
   "rate limit"; "quota exceeded"; "server error"; "api error"]%string.

Definition rewriteKeywords : list str :=
  map lit
  ["rewrite"; "replace entirely"; "generate from scratch";
   "completely change"; "full overhaul"; "start fresh"; "reimplement";
   "rebuild"; "design from scratch"; "new implementation";
   "complete refactor"]%string.

Section WithHost.

(** [String.prototype.toLowerCase] over all of Unicode and [path.basename]
    belong to the host; the two heuristics are defined for any such pair
    of functions. *)
Variable hostToLowerCase : str -> str.
Variable basename : str -> str.

Definition isAIOutputLikelyErrorMessage (content : str) : bool :=
  let lowerContent := trim (hostToLowerCase content) in
  let allErrorPhrases := errorPhrases ++ systemErrorPhrases in
  if existsb (fun phrase => includes lowerContent phrase) allErrorPhrases
  then true
  else if (slen content <? 200)
          && (includes lowerContent (lit "error")
              || includes lowerContent (lit "fail")
              || includes lowerContent (lit "issue"))
  then true
  else markdownErrorPattern content.

(** [filePath] is [None] when the argument is left out. *)
Definition isRewriteIntentDetected (prompt : str) (filePath : option str)
  : bool :=
  let lowerPrompt := hostToLowerCase prompt in
  if existsb (fun keyword => includes lowerPrompt keyword) rewriteKeywords
  then true
  else
    match filePath with
    | Some filePath =>
        if isEmptyStr filePath then false
        else
          let fileBaseName :=
            hostToLowerCase (basename filePath) in
          if includes lowerPrompt
                      (lit "completely change file " ++ fileBaseName)
             || includes lowerPrompt (lit "completely change this file")
             || includes lowerPrompt (lit "rewrite file " ++ fileBaseName)
             || includes lowerPrompt (lit "rewrite this file")
          then true
          else false
    | None => false
    end.

End WithHost.

End CodeAnalysisText.

Import CodeAnalysisText.

(* ================================================================== *)
(** * The dependency graphs (reverse graph and per-file statistics) *)
(* ================================================================== *)

Module DependencyGraph.

Local Open Scope Z_scope.

Inductive RelationType : Type := Runtime | TypeOnly | Unknown.

Record DependencyRelation : Type := mkRelation {
  path : str;
  relationType : RelationType
}.

(** The contents of a [Map<string, DependencyRelation[]>]. *)
Definition Graph : Type := JsMap (list DependencyRelation).

(** Map objects are compared by identity ([===]) and one of them is stored
    in the cache and handed out again, so they live in a store and are
    passed around as references into it. *)
Definition Ref : Type := nat.

Record DependencyCache : Type := mkCache {
  timestamp : Z;
  dependencyGraph : Ref;
  reverseDependencyGraph : Ref;
  workspacePath : str;
  fileCount : Z
}.

(** The module-level [dependencyCache] and the map objects alive. *)
Record World : Type := mkWorld {
  objects : list Graph;
  dependencyCache : JsMap DependencyCache
}.

(** The contents of the map object behind a reference. *)
Definition deref (w : World) (r : Ref) : Graph := nth r (objects w) [].

(** [if (!m.has(k)) m.set(k, []); m.get(k)!.push(r)] *)
Definition pushRelation (m : Graph) (k : str) (r : DependencyRelation)
  : Graph :=
  match map_get m k with
  | Some rs => map_set m k (rs ++ [r])
  | None => map_set m k [r]
  end.

(** The inner loop, over the relations of one importer. *)
Definition reverseRelations (reverse : Graph)
           (entry : str * list DependencyRelation) : Graph :=
  let '(importerPath, importedRelations) := entry in
  fold_left
    (fun reverse importedRelation =>
       let importedPath := path importedRelation in
       pushRelation reverse importedPath
                    (mkRelation importerPath (relationType importedRelation)))
    importedRelations reverse.

(** The two nested loops of [buildReverseDependencyGraph]. *)
Definition reverseOf (fileDependencies : Graph) : Graph :=
  fold_left reverseRelations fileDependencies [].

(** [projectRoot] stands for [projectRoot.fsPath]; [None] when the argument
    is left out.  The result is the reference returned and the world after
    the call; the messages written to the console are left out. *)
Definition buildReverseDependencyGraph (fileDependencies : Ref)
           (projectRoot : option str) (w : World) : Ref * World :=
  let cachedReverse :=
    match projectRoot with
    | Some workspacePath =>
        match map_get (dependencyCache w) workspacePath with
        | Some cached =>
            if Nat.eqb (dependencyGraph cached) fileDependencies
            then Some (reverseDependencyGraph cached)
            else None
        | None => None
        end
    | None => None
    end in
  match cachedReverse with
  | Some r => (r, w)
  | None =>
      let reverseDependencyGraph := List.length (objects w) in
      let objects' := objects w ++ [reverseOf (deref w fileDependencies)] in
      let cache' :=
        match projectRoot with
        | Some workspacePath =>
            match map_get (dependencyCache w) workspacePath with
            | Some cached =>
                map_set (dependencyCache w) workspacePath
                        (mkCache (timestamp cached) (dependencyGraph cached)
                                 reverseDependencyGraph
                                 (DependencyGraph.workspacePath cached)
                                 (fileCount cached))
            | None => dependencyCache w
            end
        | None => dependencyCache w
        end in
      (reverseDependencyGraph, mkWorld objects' cache')
  end.

(** [m.get(k) || []] *)
Definition relationsOf (m : Graph) (k : str) : list DependencyRelation :=
  match map_get m k with
  | Some rs => rs
  | None => []
  end.

Record FileDependencyStats : Type := mkStats {
  incoming : Z;
  outgoing : Z;
  stats_imports : list str;
  importedBy : list str
}.

Definition getFileDependencyStats (filePath : str)
           (dependencyGraph reverseDependencyGraph : Graph)
  : FileDependencyStats :=
  let importRelations := relationsOf dependencyGraph filePath in
  let importedByRelations := relationsOf reverseDependencyGraph filePath in
  let imports := map path importRelations in
  let importedBy := map path importedByRelations in
  mkStats (Z.of_nat (List.length importedBy)) (Z.of_nat (List.length imports))
          imports importedBy.

(** The import edges of a graph, in iteration order:
    [(importer, relation)]. *)
Definition edgesOf (fileDependencies : Graph)
  : list (str * DependencyRelation) :=
  flat_map (fun '(importerPath, importedRelations) =>
              map (fun r => (importerPath, r)) importedRelations)
           fileDependencies.

(** The edges that point to [imported], turned around. *)
Definition importersOf (fileDependencies : Graph) (imported : str)
  : list DependencyRelation :=
  map (fun '(importerPath, r) => mkRelation importerPath (relationType r))
      (filter (fun '(_, r) => str_eqb (path r) imported)
              (edgesOf fileDependencies)).

End DependencyGraph.

Import DependencyGraph.

(* ================================================================== *)
(** * Measures and orders used to state the properties *)
(* ================================================================== *)

Module Measures.

Local Open Scope Z_scope.

(** The characters held by the collected blocks. *)
Definition partsLength (parts : list CollectedPart) : Z :=
  fold_right (fun part n => slen (content part) + n) 0 parts.

(** The header and footer lines [addContentBlock] puts around a body. *)
Definition headerOf (markerType description : str) : str :=
  lit "// [" ++ markerType
  ++ (if isEmptyStr description then [] else lit ": " ++ description)
  ++ lit "]" ++ [nl].

Definition footerOf (markerType : str) : str :=
  [nl] ++ lit "// [" ++ END_SECTION ++ lit ": " ++ markerType ++ lit "]".

(** A block with its section frame. *)
Definition framed (block : str) : Prop :=
  exists markerType description body,
    block = headerOf markerType description ++ body ++ footerOf markerType.

(** Higher priority first; among equal priorities, the earlier start line
    first. *)
Definition priorityOrder (a b : ContentCandidate) : Prop :=
  priority a > priority b
  \/ (priority a = priority b
      /\ line (start (range a)) <= line (start (range b))).

(** The part of line [i] of the file that [extractContentForRange] keeps
    for [range], given the text [l] of that line. *)
Definition selectedPart (range : Range) (i : Z) (l : str) : str :=
  if (i =? line (start range)) && (i =? line (end_ range)) then
    substring l (character (start range)) (character (end_ range))
  else if i =? line (start range) then
    substringFrom l (character (start range))
  else if i =? line (end_ range) then
    substring l 0 (character (end_ range))
  else l.

(** The test the preamble scan applies to a line: a comment, a [#] line
    or a blank line. *)
Definition preambleLine (l : str) : bool :=
  let t := trim l in
  startsWith t (lit "//") || startsWith t (lit "/*")
  || startsWith t (lit "*") || startsWith t (lit "#") || isEmptyStr t.

(** A code unit of a token: a digit, an underscore or a lower-case
    letter. *)
Definition isTokenChar (c : N) : bool :=
  isWordChar c && negb ((65 <=? c) && (c <=? 90))%N.

(** The range that spans a whole text. *)
Definition wholeRange (fullContent : str) : Range :=
  let lines := splitLines fullContent in
  newRange 0 0 (Z.of_nat (List.length lines) - 1) (slen (last lines [])).

End Measures.

Import Measures.

(* ================================================================== *)
(** * Further sample inputs *)
(* ================================================================== *)

Module Samples.

Local Open Scope Z_scope.

(** The packer state reached on [sampleFile] with a budget of 200. *)
Definition samplePacked : PackerState :=
  Eval vm_compute in
    match packedState maxReferenced sampleFile None None 200 with
    | Ok st => st
    | Throw _ => initialState
    end.

(** A function with a documentation comment, and its document symbol. *)
Definition documentedFile : str :=
  join [nl]
       [lit "/**";
        lit " * Adds two numbers.";
        lit " */";
        [];
        lit "function add(a, b) {";
        lit "  return a + b;";
        lit "}"].

Definition addSymbol : DocumentSymbol :=
  mkSymbol (lit "add") [] KFunction (newRange 4 0 6 1) (newRange 4 9 4 12) [].

(** An interface with two properties, and its document symbol. *)
Definition pointFile : str :=
  join [nl]
       [lit "interface Point {"; lit "  x: number;"; lit "  y: number;";
        lit "}"].

Definition pointSymbol : DocumentSymbol :=
  mkSymbol (lit "Point") [] KInterface (newRange 0 0 3 1) (newRange 0 10 0 15)
           [mkSymbol (lit "x") [] KProperty (newRange 1 2 1 12)
                     (newRange 1 2 1 3) [];
            mkSymbol (lit "y") [] KProperty (newRange 2 2 2 12)
                     (newRange 2 2 2 3) []].

(** A corpus whose first summary holds stop words only. *)
Definition stopWordCorpus : JsMap str :=
  [(lit "a.ts", lit "this is the file");
   (lit "b.ts", lit "parses markdown tables");
   (lit "c.ts", lit "renders markdown tables")].

(** Two forward graphs and the reverse of the first, with a cache entry
    for the first. *)
Definition sampleWorld : World :=
  let appGraph : Graph :=
    [(lit "app.ts", [mkRelation (lit "util.ts") Runtime;
                     mkRelation (lit "types.ts") TypeOnly]);
     (lit "util.ts", [mkRelation (lit "types.ts") TypeOnly])] in
  let testGraph : Graph :=
    [(lit "test.ts", [mkRelation (lit "app.ts") Runtime])] in
  mkWorld [appGraph; testGraph; reverseOf appGraph]
          [(lit "/work", mkCache 0 0%nat 2%nat (lit "/work") 2)].

(** The summary of [sampleFile] for the same budget. *)
Definition sampleSummary : str :=
  Eval vm_compute in
    match intelligentlySummarizeFileContent maxReferenced sampleFile None None
                                            200 with
    | Ok summary => summary
    | Throw _ => []
    end.

(** The double nearest to the logarithm of 3/2. *)
Definition LN1_5 : float := 0x1.9f323ecbf984cp-2%float.

(** [Math.log] at the arguments the samples give it (1, 4/3, 3/2, 2, 3
    and 4), each value the double nearest to the logarithm; no other
    argument occurs, and the table answers NaN there. *)
Definition logTable (x : float) : float :=
  if PrimFloat.eqb x 1 then 0%float
  else if PrimFloat.eqb x 0x1.5555555555555p+0 then 0x1.269621134db91p-2%float
  else if PrimFloat.eqb x 0x1.8p+0 then LN1_5
  else if PrimFloat.eqb x 2 then LN2
  else if PrimFloat.eqb x 3 then 0x1.193ea7aad030bp+0%float
  else if PrimFloat.eqb x 4 then 0x1.62e42fefa39efp+0%float
  else nan.

(** Four documents of which the first shares one term with the second
    and two terms with the third. *)
Definition rankCorpus : JsMap str :=
  [(lit "a.ts", lit "parses login tokens");
   (lit "b.ts", lit "parses session cookies");
   (lit "c.ts", lit "parses login forms");
   (lit "d.ts", lit "draws charts")].

(** The links of its first document in doubles: the one to [c.ts]
    (0.2266...) was pushed after the one to [b.ts] (0.0264...) and comes
    first after the sort. *)
Definition rankLinks : list (SemanticLink (Float64Arith logTable)) :=
  Eval vm_compute in
    linksOf (buildSemanticGraph (A:=Float64Arith logTable) rankCorpus)
            (lit "a.ts").

End Samples.

Import Samples.

(* ================================================================== *)
(** * Properties *)
(* ================================================================== *)

(** ** Maps and sorting *)

Section JsMapFacts.

Context {V : Type}.

Lemma map_get_set_same (m : JsMap V) (k : str) (v : V) :
  map_get (map_set m k v) k = Some v.
Proof.
  induction m as [|[k' v'] m IH]; simpl.
  - destruct (str_eq_dec k k); congruence.
  - destruct (str_eq_dec k' k) as [E|E]; simpl.
    + destruct (str_eq_dec k k); congruence.
    + destruct (str_eq_dec k' k); [contradiction|exact IH].
Qed.

Lemma map_get_set_other (m : JsMap V) (k k' : str) (v : V) :
  k <> k' -> map_get (map_set m k v) k' = map_get m k'.
Proof.
  intros Hne.
  induction m as [|[k0 v0] m IH]; simpl.
  - destruct (str_eq_dec k k'); [contradiction|reflexivity].
  - destruct (str_eq_dec k0 k) as [E|E]; simpl.
    + subst k0. destruct (str_eq_dec k k'); [contradiction|reflexivity].
    + destruct (str_eq_dec k0 k'); [reflexivity|exact IH].
Qed.

Lemma map_keys_set (m : JsMap V) (k k' : str) (v : V) :
  In k' (map_keys (map_set m k v)) <-> k' = k \/ In k' (map_keys m).
Proof.
  unfold map_keys.
  induction m as [|[k0 v0] m IH]; simpl.
  - intuition.
  - destruct (str_eq_dec k0 k) as [E|E]; simpl.
    + subst k0. intuition.
    + rewrite IH. intuition.
Qed.

Lemma map_set_NoDup (m : JsMap V) (k : str) (v : V) :
  NoDup (map_keys m) -> NoDup (map_keys (map_set m k v)).
Proof.
  unfold map_keys.
  induction m as [|[k0 v0] m IH]; simpl; intros Hnd.
  - constructor; [intros []|constructor].
  - inversion Hnd as [|? ? Hnotin Hnd']; subst.
    destruct (str_eq_dec k0 k) as [E|E]; simpl.
    + subst k0. constructor; assumption.
    + constructor; [|auto].
      intros Hin. apply (map_keys_set m k k0 v) in Hin.
      destruct Hin as [Hin|Hin]; [congruence|contradiction].
Qed.

Lemma map_set_entries (m : JsMap V) (k k' : str) (v v' : V) :
  In (k', v') (map_set m k v) -> (k' = k /\ v' = v) \/ In (k', v') m.
Proof.
  induction m as [|[k0 v0] m IH]; simpl.
  - intros [H|[]]. inversion H. now left.
  - destruct (str_eq_dec k0 k) as [E|E]; simpl.
    + intros [H|H]; [inversion H; now left|now right; right].
    + intros [H|H]; [now right; left|].
      destruct (IH H) as [H'|H']; [now left|now right; right].
Qed.

Lemma map_get_In (m : JsMap V) (k : str) (v : V) :
  map_get m k = Some v -> In (k, v) m.
Proof.
  induction m as [|[k0 v0] m IH]; simpl; [discriminate|].
  destruct (str_eq_dec k0 k) as [E|E].
  - intros H. inversion H. subst. now left.
  - intros H. right. auto.
Qed.

Lemma map_get_key (m : JsMap V) (k : str) (v : V) :
  map_get m k = Some v -> In k (map_keys m).
Proof.
  intros H. apply map_get_In in H.
  unfold map_keys. change k with (fst (k, v)). now apply in_map.
Qed.

Lemma In_map_get (m : JsMap V) (k : str) (v : V) :
  NoDup (map_keys m) -> In (k, v) m -> map_get m k = Some v.
Proof.
  unfold map_keys.
  induction m as [|[k0 v0] m IH]; simpl; intros Hnd Hin; [contradiction|].
  inversion Hnd as [|? ? Hnotin Hnd']; subst.
  destruct Hin as [Hin|Hin].
  - inversion Hin. subst. destruct (str_eq_dec k k); congruence.
  - destruct (str_eq_dec k0 k) as [E|E]; [|auto].
    subst k0. exfalso. apply Hnotin.
    change k with (fst (k, v)). now apply in_map.
Qed.

Lemma map_get_None (m : JsMap V) (k : str) :
  map_get m k = None <-> ~ In k (map_keys m).
Proof.
  unfold map_keys.
  induction m as [|[k0 v0] m IH]; simpl.
  - intuition.
  - destruct (str_eq_dec k0 k) as [E|E].
    + split; [discriminate|]. intros H. exfalso. apply H. now left.
    + rewrite IH. intuition.
Qed.

End JsMapFacts.

Section SortFacts.

Context {T : Type} (after : T -> T -> bool).

Lemma insertBy_perm (x : T) (l : list T) :
  Permutation (x :: l) (insertBy after x l).
Proof.
  induction l as [|y l IH]; simpl; [reflexivity|].
  destruct (after x y); [|reflexivity].
  rewrite perm_swap. now constructor.
Qed.

Lemma sortBy_perm (l : list T) : Permutation l (sortBy after l).
Proof.
  induction l as [|x l IH]; simpl; [constructor|].
  rewrite <- insertBy_perm. now constructor.
Qed.

Lemma sortBy_In (x : T) (l : list T) : In x (sortBy after l) <-> In x l.
Proof.
  split; apply Permutation_in; [symmetry|]; apply sortBy_perm.
Qed.

End SortFacts.

(** ** Range extraction *)

Section ExtractContent.

Local Open Scope Z_scope.

(** C8. A range whose start line is negative, whose end line is at or
    beyond the number of lines of the file, or whose start line is greater
    than its end line makes [extractContentForRange] return the empty
    string; no exception is raised. *)
Theorem extractContentForRange_invalid_range :
  forall (fullContent : str) (range : Range),
    line (start range) < 0
    \/ line (end_ range) >= Z.of_nat (List.length (splitLines fullContent))
    \/ line (start range) > line (end_ range) ->
    extractContentForRange fullContent range = Ok [].
Proof.
  intros fullContent range H.
  unfold extractContentForRange.
  destruct (line (start range) <? 0) eqn:E1; [reflexivity|].
  destruct (line (end_ range) >=? Z.of_nat (List.length (splitLines fullContent)))
    eqn:E2; [reflexivity|].
  destruct (line (start range) >? line (end_ range)) eqn:E3; [reflexivity|].
  exfalso.
  apply Z.ltb_ge in E1.
  rewrite Z.geb_leb in E2. apply Z.leb_gt in E2.
  rewrite Z.gtb_ltb in E3. apply Z.ltb_ge in E3.
  lia.
Qed.


Lemma extractContentForRange_invalid_range_witness :
  extractContentForRange shortFile (newRange 2 0 4 1) = Ok [].
Proof.
  apply extractContentForRange_invalid_range.
  right. left. vm_compute. discriminate.
Defined.

End ExtractContent.

(** ** The similarity graph, for any arithmetic *)

Section GraphStructure.

Context {A : Arith}.

Lemma linksOf_pushLink (g : SemanticGraph A) (p q : str) (l : SemanticLink A) :
  linksOf (pushLink g p l) q
  = if str_eq_dec p q then linksOf g p ++ [l] else linksOf g q.
Proof.
  unfold linksOf, pushLink.
  destruct (str_eq_dec p q) as [E|E].
  - subst q. destruct (map_get g p); now rewrite map_get_set_same.
  - destruct (map_get g p); now rewrite map_get_set_other.
Qed.

Lemma keys_pushLink (g : SemanticGraph A) (p q : str) (l : SemanticLink A) :
  In q (map_keys (pushLink g p l)) <-> q = p \/ In q (map_keys g).
Proof.
  unfold pushLink. destruct (map_get g p); apply map_keys_set.
Qed.

Lemma pushLink_NoDup (g : SemanticGraph A) (p : str) (l : SemanticLink A) :
  NoDup (map_keys g) -> NoDup (map_keys (pushLink g p l)).
Proof.
  unfold pushLink. destruct (map_get g p); apply map_set_NoDup.
Qed.

(** A key of the graph always has a non-empty link list: an entry is
    created only to receive a link. *)
Lemma pushLink_get (g : SemanticGraph A) (p q : str) (l : SemanticLink A) :
  map_get (pushLink g p l) q
  = if str_eq_dec p q then Some (linksOf g p ++ [l]) else map_get g q.
Proof.
  unfold linksOf, pushLink.
  destruct (str_eq_dec p q) as [E|E].
  - subst q. destruct (map_get g p); now rewrite map_get_set_same.
  - destruct (map_get g p); now rewrite map_get_set_other.
Qed.

Variable tfidfVectors : JsMap (JsMap num).

(** Invariant rule for step 3: a property of the graph that survives the
    insertion of a pair of links holds when the loops are over.  [R]
    relates the two paths of every pair the loops visit. *)
Lemma linkPair_invariant (R : str -> str -> Prop)
      (P : SemanticGraph A -> Prop) :
  (forall g pathA pathB vectorA vectorB,
      P g -> R pathA pathB ->
      map_get tfidfVectors pathA = Some vectorA ->
      map_get tfidfVectors pathB = Some vectorB ->
      num_gt (calculateCosineSimilarity vectorA vectorB) num_threshold = true ->
      P (pushLink
           (pushLink g pathA
              (mkLink pathB (calculateCosineSimilarity vectorA vectorB)))
           pathB (mkLink pathA (calculateCosineSimilarity vectorA vectorB)))) ->
  forall pathA rest g,
    Forall (R pathA) rest -> P g ->
    P (fold_left (linkPair tfidfVectors pathA) rest g).
Proof.
  intros Hstep pathA rest.
  induction rest as [|pathB rest IH]; intros g HR Hg; simpl; [exact Hg|].
  inversion HR as [|? ? HRb HRrest]; subst.
  apply IH; [exact HRrest|].
  unfold linkPair.
  destruct (map_get tfidfVectors pathA) as [vectorA|] eqn:EA; [|exact Hg].
  destruct (map_get tfidfVectors pathB) as [vectorB|] eqn:EB; [|exact Hg].
  destruct (num_gt _ _) eqn:Egt; [|exact Hg].
  now apply Hstep.
Qed.

Lemma linkAll_invariant (R : str -> str -> Prop)
      (P : SemanticGraph A -> Prop) :
  (forall g pathA pathB vectorA vectorB,
      P g -> R pathA pathB ->
      map_get tfidfVectors pathA = Some vectorA ->
      map_get tfidfVectors pathB = Some vectorB ->
      num_gt (calculateCosineSimilarity vectorA vectorB) num_threshold = true ->
      P (pushLink
           (pushLink g pathA
              (mkLink pathB (calculateCosineSimilarity vectorA vectorB)))
           pathB (mkLink pathA (calculateCosineSimilarity vectorA vectorB)))) ->
  forall filePaths g,
    ForallOrdPairs R filePaths -> P g ->
    P (linkAll tfidfVectors filePaths g).
Proof.
  intros Hstep filePaths.
  induction filePaths as [|pathA rest IH]; intros g HR Hg; simpl; [exact Hg|].
  inversion HR as [|? ? HRa HRrest]; subst.
  apply IH; [exact HRrest|].
  now apply linkPair_invariant with (R := R).
Qed.

Lemma ForallOrdPairs_trivial (l : list str) :
  ForallOrdPairs (fun _ _ => True) l.
Proof.
  induction l; constructor; auto.
  now apply Forall_forall.
Qed.

Lemma ForallOrdPairs_NoDup (l : list str) :
  NoDup l ->
  ForallOrdPairs (fun a b => a <> b /\ In a l /\ In b l) l.
Proof.
  intros Hnd.
  assert (H : forall l', NoDup l' -> incl l' l ->
              ForallOrdPairs (fun a b => a <> b /\ In a l /\ In b l) l').
  { induction l' as [|a l' IH]; intros Hnd' Hincl; constructor.
    - inversion Hnd' as [|? ? Hnotin _]; subst.
      apply Forall_forall. intros b Hb.
      repeat split.
      + intros ->. contradiction.
      + apply Hincl. now left.
      + apply Hincl. now right.
    - inversion Hnd'; subst. apply IH; [assumption|].
      intros x Hx. apply Hincl. now right. }
  apply H; [assumption|apply incl_refl].
Qed.

(** The stored symmetric pairs. *)
Lemma linkAll_symmetric (filePaths : list str) :
  forall pathA pathB s,
    In (mkLink pathB s) (linksOf (linkAll tfidfVectors filePaths []) pathA) ->
    In (mkLink pathA s) (linksOf (linkAll tfidfVectors filePaths []) pathB).
Proof.
  apply (@linkAll_invariant (fun _ _ => True)
           (fun g => forall pathA pathB s,
                In (mkLink pathB s) (linksOf g pathA) ->
                In (mkLink pathA s) (linksOf g pathB))).
  - intros g a b va vb IH _ _ _ _ pA pB s.
    rewrite !linksOf_pushLink.
    set (sim := calculateCosineSimilarity va vb).
    destruct (str_eq_dec b pA) as [E1|E1], (str_eq_dec b pB) as [E2|E2];
      subst; rewrite ?linksOf_pushLink;
      repeat match goal with
             | |- context [str_eq_dec ?x ?y] => destruct (str_eq_dec x y); subst
             end;
      rewrite ?in_app_iff; simpl;
      intros H;
      repeat match goal with
             | H : _ \/ _ |- _ => destruct H
             | H : mkLink _ _ = mkLink _ _ |- _ => inversion H; clear H; subst
             | H : False |- _ => contradiction
             end;
      try congruence; auto using IH.
  - apply ForallOrdPairs_trivial.
  - intros pA pB s H. unfold linksOf in H. simpl in H. contradiction.
Qed.

(** Every entry of the graph built by step 3 comes from a visited pair:
    [K] holds of its key and [Q] of each of its links as soon as they hold
    for both directions of every visited pair above the threshold. *)
Lemma linkAll_entries (R : str -> str -> Prop) (K : str -> Prop)
      (Q : str -> SemanticLink A -> Prop) :
  (forall pathA pathB vectorA vectorB,
      R pathA pathB ->
      map_get tfidfVectors pathA = Some vectorA ->
      map_get tfidfVectors pathB = Some vectorB ->
      num_gt (calculateCosineSimilarity vectorA vectorB) num_threshold = true ->
      K pathA /\ K pathB
      /\ Q pathA (mkLink pathB (calculateCosineSimilarity vectorA vectorB))
      /\ Q pathB (mkLink pathA (calculateCosineSimilarity vectorA vectorB))) ->
  forall filePaths,
    ForallOrdPairs R filePaths ->
    forall p links,
      In (p, links) (linkAll tfidfVectors filePaths []) ->
      K p /\ forall l, In l links -> Q p l.
Proof.
  intros Hpair filePaths HR.
  apply (@linkAll_invariant R
           (fun g => forall p links,
                In (p, links) g -> K p /\ forall l, In l links -> Q p l));
    [|exact HR|intros p links []].
  intros g a b va vb IH Hab Ha Hb Hgt.
  destruct (Hpair a b va vb Hab Ha Hb Hgt) as (Ka & Kb & Qa & Qb).
  assert (Hpush : forall g' q l',
             (forall p links, In (p, links) g' ->
                              K p /\ forall l, In l links -> Q p l) ->
             K q -> Q q l' ->
             forall p links, In (p, links) (pushLink g' q l') ->
                             K p /\ forall l, In l links -> Q p l).
  { intros g' q l' IH' Kq Ql' p links Hin.
    unfold pushLink in Hin.
    destruct (map_get g' q) as [old|] eqn:Eold;
      apply map_set_entries in Hin; destruct Hin as [[-> ->]|Hin]; auto.
    - split; [exact Kq|]. intros l Hl.
      apply in_app_iff in Hl. destruct Hl as [Hl|[<-|[]]]; [|exact Ql'].
      apply map_get_In in Eold. now apply (IH' q old).
    - split; [exact Kq|]. intros l [<-|[]]. exact Ql'. }
  apply Hpush; [|exact Kb|exact Qb].
  apply Hpush; [exact IH|exact Ka|exact Qa].
Qed.

Lemma linkAll_NoDup (filePaths : list str) :
  NoDup (map_keys (linkAll tfidfVectors filePaths [])).
Proof.
  apply (@linkAll_invariant (fun _ _ => True)
           (fun g => NoDup (map_keys g))).
  - intros. now do 2 apply pushLink_NoDup.
  - apply ForallOrdPairs_trivial.
  - constructor.
Qed.

End GraphStructure.

Section SortedGraph.

Context {A : Arith}.

Lemma sorted_entries (g : SemanticGraph A) (p : str)
      (links : list (SemanticLink A)) :
  In (p, links) (map (fun '(p, links) => (p, sortBy linkAfter links)) g) ->
  exists links0, In (p, links0) g /\ links = sortBy linkAfter links0.
Proof.
  intros H. apply in_map_iff in H. destruct H as [[q links0] [E Hin]].
  inversion E; subst. now exists links0.
Qed.

Lemma sorted_get (g : SemanticGraph A) (p : str) :
  map_get (map (fun '(p, links) => (p, sortBy linkAfter links)) g) p
  = option_map (sortBy linkAfter) (map_get g p).
Proof.
  induction g as [|[q links] g IH]; simpl; [reflexivity|].
  destruct (str_eq_dec q p); [reflexivity|exact IH].
Qed.

Lemma sorted_keys (g : SemanticGraph A) :
  map_keys (map (fun '(p, links) => (p, sortBy linkAfter links)) g)
  = map_keys g.
Proof.
  unfold map_keys. rewrite map_map. apply map_ext. now intros [q links].
Qed.

(** The graph is a map: no path has two entries. *)
Lemma buildSemanticGraph_keys_NoDup (fileSummaries : JsMap str) :
  NoDup (map_keys (buildSemanticGraph (A:=A) fileSummaries)).
Proof.
  unfold buildSemanticGraph.
  destruct (List.length (map_keys fileSummaries) <? 2)%nat; [constructor|].
  rewrite sorted_keys. apply linkAll_NoDup.
Qed.

(** C4. A corpus of fewer than two documents yields the empty graph. *)
Theorem buildSemanticGraph_small_corpus :
  forall fileSummaries : JsMap str,
    (List.length (map_keys fileSummaries) < 2)%nat ->
    buildSemanticGraph fileSummaries = [].
Proof.
  intros fileSummaries H. unfold buildSemanticGraph.
  apply Nat.ltb_lt in H. now rewrite H.
Qed.

(** C2. Whenever the link list of path A holds [{relatedPath: B, score: s}],
    the link list of path B holds [{relatedPath: A, score: s}], with the
    same score. *)
Theorem buildSemanticGraph_symmetric :
  forall (fileSummaries : JsMap str) (pathA pathB : str) (s : num)
         (linksA : list (SemanticLink A)),
    map_get (buildSemanticGraph fileSummaries) pathA = Some linksA ->
    In (mkLink pathB s) linksA ->
    exists linksB,
      map_get (buildSemanticGraph fileSummaries) pathB = Some linksB
      /\ In (mkLink pathA s) linksB.
Proof.
  intros fileSummaries pathA pathB s linksA.
  unfold buildSemanticGraph.
  destruct (List.length (map_keys fileSummaries) <? 2)%nat; [discriminate|].
  rewrite !sorted_get.
  set (g := linkAll _ _ _).
  intros Hget Hin.
  destruct (map_get g pathA) as [la|] eqn:EA; [|discriminate].
  simpl in Hget. inversion Hget; subst linksA. clear Hget.
  apply sortBy_In in Hin.
  assert (Hsym : In (mkLink pathA s) (linksOf g pathB)).
  { apply linkAll_symmetric. unfold linksOf. fold g. now rewrite EA. }
  unfold linksOf in Hsym.
  destruct (map_get g pathB) as [lb|]; [|contradiction].
  exists (sortBy linkAfter lb). split; [reflexivity|].
  now apply sortBy_In.
Qed.

(** C10. The graph holds no self-link, and all its keys and related paths
    are keys of the corpus. *)
Theorem buildSemanticGraph_paths :
  forall fileSummaries : JsMap str,
    NoDup (map_keys fileSummaries) ->
    forall (p : str) (links : list (SemanticLink A)),
      In (p, links) (buildSemanticGraph fileSummaries) ->
      In p (map_keys fileSummaries)
      /\ forall l, In l links ->
                   relatedPath l <> p
                   /\ In (relatedPath l) (map_keys fileSummaries).
Proof.
  intros fileSummaries Hnd p links.
  unfold buildSemanticGraph.
  destruct (List.length (map_keys fileSummaries) <? 2)%nat; [intros []|].
  intros Hin. apply sorted_entries in Hin.
  destruct Hin as [links0 [Hin ->]].
  apply (@linkAll_entries A (corpusVectors fileSummaries)
           (fun a b => a <> b /\ In a (map_keys fileSummaries)
                       /\ In b (map_keys fileSummaries))
           (fun q => In q (map_keys fileSummaries))
           (fun q l => relatedPath l <> q
                       /\ In (relatedPath l) (map_keys fileSummaries)))
    in Hin.
  - destruct Hin as [Hk Hl]. split; [exact Hk|].
    intros l Hl'. apply Hl. now apply sortBy_In in Hl'.
  - intros a b va vb (Hne & Ha & Hb) _ _ _. simpl. intuition.
  - now apply ForallOrdPairs_NoDup.
Qed.

End SortedGraph.

(** ** Term and document frequencies *)

Section TermCounting.

Lemma str_eqb_eq (a b : str) : str_eqb a b = true <-> a = b.
Proof.
  unfold str_eqb. destruct (str_eq_dec a b); split; auto; discriminate.
Qed.

Lemma existsb_str_eqb (x : str) (l : list str) :
  existsb (str_eqb x) l = true <-> In x l.
Proof.
  rewrite existsb_exists. split.
  - intros [y [Hy E]]. apply str_eqb_eq in E. now subst.
  - intros H. exists x. split; [exact H|]. now apply str_eqb_eq.
Qed.

(** [new Set(xs)] keeps exactly the elements of [xs], once each. *)
Lemma newSet_from (xs seen : list str) :
  NoDup seen ->
  let r := fold_left
             (fun seen x => if existsb (str_eqb x) seen then seen else seen ++ [x])
             xs seen in
  NoDup r /\ forall x, In x r <-> In x seen \/ In x xs.
Proof.
  revert seen.
  induction xs as [|y xs IH]; intros seen Hnd; simpl.
  - split; [exact Hnd|]. intuition.
  - destruct (existsb (str_eqb y) seen) eqn:E.
    + apply existsb_str_eqb in E.
      destruct (IH seen Hnd) as [H1 H2]. split; [exact H1|].
      intros x. rewrite H2. intuition. subst. auto.
    + assert (Hy : ~ In y seen).
      { intros H. apply existsb_str_eqb in H. congruence. }
      assert (Hnd' : NoDup (seen ++ [y])).
      { apply NoDup_app; [exact Hnd|repeat constructor; intros []|].
        intros x Hx [<-|[]]. contradiction. }
      destruct (IH _ Hnd') as [H1 H2]. split; [exact H1|].
      intros x. rewrite H2, in_app_iff. simpl. intuition.
Qed.

Lemma newSet_NoDup (xs : list str) : NoDup (newSet xs).
Proof. apply (@newSet_from xs []). constructor. Qed.

Lemma newSet_In (xs : list str) (x : str) : In x (newSet xs) <-> In x xs.
Proof.
  destruct (@newSet_from xs []) as [_ H]; [constructor|].
  unfold newSet. rewrite H. simpl. intuition.
Qed.

Lemma countOr0_increment (m : JsMap nat) (k t : str) :
  countOr0 (increment m k) t
  = (countOr0 m t + if str_eq_dec k t then 1 else 0)%nat.
Proof.
  unfold increment, countOr0 at 1.
  destruct (str_eq_dec k t) as [E|E].
  - subst t. now rewrite map_get_set_same.
  - rewrite map_get_set_other by exact E. unfold countOr0. lia.
Qed.

Lemma countOr0_increments (ks : list str) :
  NoDup ks ->
  forall (m : JsMap nat) (t : str),
    countOr0 (fold_left increment ks m) t
    = (countOr0 m t + if existsb (str_eqb t) ks then 1 else 0)%nat.
Proof.
  induction ks as [|k ks IH]; intros Hnd m t; simpl; [lia|].
  inversion Hnd as [|? ? Hnotin Hnd']; subst.
  rewrite IH by exact Hnd'. rewrite countOr0_increment.
  unfold str_eqb at 2.
  destruct (str_eq_dec k t) as [E|E], (str_eq_dec t k) as [E'|E'];
    try congruence; simpl.
  - subst t. destruct (existsb (str_eqb k) ks) eqn:Ex; [|lia].
    apply existsb_str_eqb in Ex. contradiction.
  - lia.
Qed.

Lemma increment_positive (m : JsMap nat) (k : str) :
  (forall k' n, In (k', n) m -> (1 <= n)%nat) ->
  forall k' n, In (k', n) (increment m k) -> (1 <= n)%nat.
Proof.
  intros H k' n Hin. unfold increment in Hin.
  apply map_set_entries in Hin. destruct Hin as [[_ ->]|Hin]; [lia|].
  now apply (H k').
Qed.

Lemma increment_NoDup (m : JsMap nat) (k : str) :
  NoDup (map_keys m) -> NoDup (map_keys (increment m k)).
Proof. apply map_set_NoDup. Qed.

Lemma termFrequenciesOf_wf (summary : str) :
  NoDup (map_keys (termFrequenciesOf summary))
  /\ forall k n, In (k, n) (termFrequenciesOf summary) -> (1 <= n)%nat.
Proof.
  unfold termFrequenciesOf.
  assert (H : forall tokens m,
             NoDup (map_keys m)
             /\ (forall k n, In (k, n) m -> (1 <= n)%nat) ->
             let r := fold_left
                        (fun termFrequencies token =>
                           if negb (isStopWord token)
                              && (1 <? List.length token)%nat
                           then increment termFrequencies token
                           else termFrequencies) tokens m in
             NoDup (map_keys r)
             /\ forall k n, In (k, n) r -> (1 <= n)%nat).
  { induction tokens as [|tok tokens IH]; intros m [H1 H2]; simpl; [now split|].
    apply IH.
    destruct (negb (isStopWord tok) && (1 <? List.length tok)%nat); [|now split].
    split; [now apply increment_NoDup|now apply increment_positive]. }
  apply H. split; [constructor|]. intros k n [].
Qed.

Variable fileSummaries : JsMap str.

Lemma countTerms_snoc (filePaths : list str) (p : str) :
  countTerms fileSummaries (filePaths ++ [p])
  = (map_set (fst (countTerms fileSummaries filePaths)) p
             (termFrequenciesOf (summaryOf fileSummaries p)),
     fold_left increment
               (newSet (termsOf (summaryOf fileSummaries p)))
               (snd (countTerms fileSummaries filePaths))).
Proof.
  unfold countTerms. rewrite fold_left_app. simpl.
  now destruct (fold_left _ filePaths _) as [tfMaps dfMap].
Qed.

(** The term-frequency map stored for a path of the corpus. *)
Lemma countTerms_tf (filePaths : list str) (p : str) :
  map_get (fst (countTerms fileSummaries filePaths)) p
  = if existsb (str_eqb p) filePaths
    then Some (termFrequenciesOf (summaryOf fileSummaries p))
    else None.
Proof.
  induction filePaths as [|q filePaths IH] using rev_ind; [reflexivity|].
  rewrite countTerms_snoc, existsb_app. simpl. rewrite orb_false_r.
  unfold str_eqb at 2.
  destruct (str_eq_dec p q) as [E|E].
  - subst q. rewrite map_get_set_same. now rewrite orb_true_r.
  - rewrite map_get_set_other by congruence. now rewrite orb_false_r.
Qed.

(** The document-frequency map holds the specification's document
    frequency. *)
Lemma countTerms_df (filePaths : list str) (t : str) :
  countOr0 (snd (countTerms fileSummaries filePaths)) t
  = documentFrequency fileSummaries filePaths t.
Proof.
  unfold documentFrequency.
  induction filePaths as [|q filePaths IH] using rev_ind; [reflexivity|].
  rewrite countTerms_snoc, filter_app, length_app. simpl.
  rewrite countOr0_increments by apply newSet_NoDup.
  rewrite IH. f_equal.
  destruct (existsb (str_eqb t) (newSet (termsOf (summaryOf fileSummaries q))))
    eqn:E1;
    destruct (existsb (str_eqb t) (termsOf (summaryOf fileSummaries q)))
      eqn:E2; try reflexivity; exfalso.
  - apply (proj1 (existsb_str_eqb _ _)) in E1.
    apply (proj1 (newSet_In _ _)) in E1.
    apply (proj2 (existsb_str_eqb _ _)) in E1.
    rewrite E1 in E2. discriminate.
  - apply (proj1 (existsb_str_eqb _ _)) in E2.
    apply (proj2 (newSet_In _ _)) in E2.
    apply (proj2 (existsb_str_eqb _ _)) in E2.
    rewrite E2 in E1. discriminate.
Qed.

Lemma dfOr1_countOr0 (dfMap : JsMap nat) (t : str) :
  dfOr1 dfMap t = if (countOr0 dfMap t =? 0)%nat then 1%nat else countOr0 dfMap t.
Proof.
  unfold dfOr1, countOr0. destruct (map_get dfMap t) as [[|n]|]; reflexivity.
Qed.

Lemma documentFrequency_le (filePaths : list str) (t : str) :
  (documentFrequency fileSummaries filePaths t <= List.length filePaths)%nat.
Proof. apply filter_length_le. Qed.

Lemma documentFrequency_pos (filePaths : list str) (t p : str) :
  In p filePaths -> In t (termsOf (summaryOf fileSummaries p)) ->
  (1 <= documentFrequency fileSummaries filePaths t)%nat.
Proof.
  intros Hp Ht. unfold documentFrequency.
  induction filePaths as [|q filePaths IH]; [contradiction|]. simpl.
  destruct Hp as [->|Hp].
  - apply existsb_str_eqb in Ht. rewrite Ht. simpl. lia.
  - specialize (IH Hp). destruct (existsb _ _); simpl; lia.
Qed.

Lemma documentFrequency_lt (filePaths : list str) (t p : str) :
  In p filePaths -> ~ In t (termsOf (summaryOf fileSummaries p)) ->
  (documentFrequency fileSummaries filePaths t < List.length filePaths)%nat.
Proof.
  intros Hp Ht. unfold documentFrequency.
  induction filePaths as [|q filePaths IH]; [contradiction|]. simpl.
  destruct Hp as [->|Hp].
  - destruct (existsb _ _) eqn:E; [apply existsb_str_eqb in E; contradiction|].
    pose proof (filter_length_le
                  (fun p0 => existsb (str_eqb t)
                                     (termsOf (summaryOf fileSummaries p0)))
                  filePaths). lia.
  - specialize (IH Hp). destruct (existsb _ _); simpl; lia.
Qed.

End TermCounting.

(** ** TF-IDF vectors *)

Section Vectors.

Context {A : Arith}.

Lemma map_set_fresh {V : Type} (m : JsMap V) (k : str) (v : V) :
  ~ In k (map_keys m) -> map_set m k v = m ++ [(k, v)].
Proof.
  unfold map_keys.
  induction m as [|[k0 v0] m IH]; simpl; intros H; [reflexivity|].
  destruct (str_eq_dec k0 k) as [E|E]; [exfalso; auto|].
  f_equal. apply IH. auto.
Qed.

Lemma map_get_map {V W : Type} (f : str -> V -> W) (m : JsMap V) (k : str) :
  map_get (map (fun '(t, c) => (t, f t c)) m) k
  = option_map (f k) (map_get m k).
Proof.
  induction m as [|[k0 v0] m IH]; simpl; [reflexivity|].
  destruct (str_eq_dec k0 k) as [E|E]; [now subst|exact IH].
Qed.

(** With distinct terms, every [set] of the vector loop appends. *)
Lemma tfidfVectorOf_map (totalDocs : nat) (dfMap termFrequencies : JsMap nat) :
  NoDup (map_keys termFrequencies) ->
  tfidfVectorOf totalDocs dfMap termFrequencies
  = map (fun '(term, tf) => (term, tfidfOf totalDocs dfMap term tf))
        termFrequencies.
Proof.
  unfold tfidfVectorOf.
  assert (H : forall l acc,
             NoDup (map_keys acc ++ map_keys l) ->
             fold_left
               (fun tfidfVector '(term, tf) =>
                  map_set tfidfVector term (tfidfOf totalDocs dfMap term tf))
               l acc
             = acc ++ map (fun '(term, tf) =>
                             (term, tfidfOf totalDocs dfMap term tf)) l).
  { induction l as [|[t c] l IH]; intros acc Hnd; simpl.
    - now rewrite app_nil_r.
    - simpl in Hnd.
      rewrite map_set_fresh.
      + rewrite IH.
        * now rewrite <- app_assoc.
        * unfold map_keys in *. rewrite map_app. simpl.
          now rewrite <- app_assoc.
      + apply NoDup_remove_2 in Hnd. intros Hin. apply Hnd.
        apply in_or_app. now left. }
  intros Hnd. apply (H termFrequencies []). exact Hnd.
Qed.

Lemma tfidfVectorsOf_get (filePaths : list str) (tfMaps : JsMap (JsMap nat))
      (dfMap : JsMap nat) (p : str) :
  map_get (tfidfVectorsOf filePaths tfMaps dfMap) p
  = if existsb (str_eqb p) filePaths
    then option_map (tfidfVectorOf (List.length filePaths) dfMap)
                    (map_get tfMaps p)
    else None.
Proof.
  unfold tfidfVectorsOf.
  generalize (List.length filePaths) as totalDocs. intros totalDocs.
  induction filePaths as [|q filePaths IH] using rev_ind; [reflexivity|].
  rewrite fold_left_app, existsb_app. simpl. rewrite orb_false_r.
  unfold str_eqb at 2.
  destruct (str_eq_dec p q) as [E|E].
  - subst q. rewrite orb_true_r.
    destruct (map_get tfMaps p) as [tf|] eqn:Etf.
    + now rewrite map_get_set_same.
    + rewrite IH. now destruct (existsb _ _).
  - rewrite orb_false_r.
    destruct (map_get tfMaps q) as [tf|]; [|exact IH].
    rewrite map_get_set_other by congruence. exact IH.
Qed.

(** The vector the builder holds for a document of the corpus. *)
Lemma corpusVectors_get (fileSummaries : JsMap str) (p : str) :
  In p (map_keys fileSummaries) ->
  map_get (corpusVectors fileSummaries) p
  = Some (tfidfVectorOf
            (List.length (map_keys fileSummaries))
            (snd (countTerms fileSummaries (map_keys fileSummaries)))
            (termFrequenciesOf (summaryOf fileSummaries p))).
Proof.
  intros Hp. unfold corpusVectors.
  pose proof (countTerms_tf fileSummaries (map_keys fileSummaries) p) as Htf.
  destruct (countTerms fileSummaries (map_keys fileSummaries))
    as [tfMaps dfMap].
  simpl in *. rewrite tfidfVectorsOf_get.
  apply existsb_str_eqb in Hp. rewrite Hp in *. now rewrite Htf.
Qed.

Lemma corpusVectors_weight (fileSummaries : JsMap str) (p : str) :
  In p (map_keys fileSummaries) ->
  exists v,
    map_get (corpusVectors fileSummaries) p = Some v
    /\ forall t,
        map_get v t
        = option_map
            (tfidfOf (List.length (map_keys fileSummaries))
                     (snd (countTerms fileSummaries (map_keys fileSummaries))) t)
            (map_get (termFrequenciesOf (summaryOf fileSummaries p)) t).
Proof.
  intros Hp. eexists. split; [now apply corpusVectors_get|].
  intros t. rewrite tfidfVectorOf_map by apply termFrequenciesOf_wf.
  apply map_get_map.
Qed.

End Vectors.

(** ** Scores in exact arithmetic *)

Section RealScores.

Local Open Scope R_scope.


Lemma cauchy_step (d ma mb a b : R) :
  0 <= ma -> 0 <= mb -> d * d <= ma * mb ->
  (d + a * b) * (d + a * b) <= (ma + a * a) * (mb + b * b).
Proof.
  intros Hma Hmb Hd.
  set (x := ma * (b * b)). set (y := mb * (a * a)).
  assert (Hx : 0 <= x) by (unfold x; nra).
  assert (Hy : 0 <= y) by (unfold y; nra).
  assert (Hxy : (d * a * b) * (d * a * b) <= x * y).
  { unfold x, y.
    replace (d * a * b * (d * a * b)) with ((d * d) * ((a * a) * (b * b))) by ring.
    replace (ma * (b * b) * (mb * (a * a))) with ((ma * mb) * ((a * a) * (b * b))) by ring.
    apply Rmult_le_compat_r; [|exact Hd].
    apply Rmult_le_pos; apply Rle_0_sqr. }
  assert (H2 : 2 * (d * a * b) <= x + y).
  { clearbody x y. set (u := d * a * b) in *. clearbody u.
    destruct (Rle_dec (2 * u) (x + y)) as [H|H]; [exact H|].
    exfalso. apply Rnot_le_lt in H.
    assert (H3 : (x + y) * (x + y) < (2 * u) * (2 * u))
      by (apply Rmult_le_0_lt_compat; lra).
    pose proof (Rle_0_sqr (x - y)) as H4. unfold Rsqr in H4.
    lra. }
  unfold x, y in H2. lra.
Qed.

Lemma accumulate_bound (vectorA vectorB : JsMap R) (allTerms : list str) :
  forall d ma mb,
    0 <= ma -> 0 <= mb -> d * d <= ma * mb ->
    let '(d', ma', mb') :=
      fold_left
        (fun '(dotProduct, magnitudeA, magnitudeB) term =>
           let scoreA := scoreOr0 (A:=RArith) vectorA term in
           let scoreB := scoreOr0 (A:=RArith) vectorB term in
           (dotProduct + scoreA * scoreB,
            magnitudeA + scoreA * scoreA,
            magnitudeB + scoreB * scoreB))
        allTerms (d, ma, mb) in
    0 <= ma' /\ 0 <= mb' /\ d' * d' <= ma' * mb'.
Proof.
  induction allTerms as [|t ts IH]; intros d ma mb Hma Hmb Hd; simpl.
  - auto.
  - apply IH.
    + nra.
    + nra.
    + now apply cauchy_step.
Qed.

Lemma cosine_le_1 (vectorA vectorB : JsMap R) :
  calculateCosineSimilarity (A:=RArith) vectorA vectorB <= 1.
Proof.
  unfold calculateCosineSimilarity, accumulate.
  set (allTerms := newSet _).
  pose proof (@accumulate_bound vectorA vectorB allTerms 0 0 0) as H.
  simpl in *.
  destruct (fold_left _ allTerms _) as [[d ma] mb].
  destruct H as (Hma & Hmb & Hd); try lra.
  destruct (Req_dec_T ma 0) as [Ea|Ea]; simpl; [lra|].
  destruct (Req_dec_T mb 0) as [Eb|Eb]; simpl; [lra|].
  assert (Hpos : 0 < sqrt ma * sqrt mb).
  { apply Rmult_lt_0_compat; apply sqrt_lt_R0; lra. }
  apply Rmult_le_reg_r with (r := sqrt ma * sqrt mb); [exact Hpos|].
  unfold Rdiv. rewrite Rmult_assoc, Rinv_l, Rmult_1_r, Rmult_1_l by lra.
  rewrite <- sqrt_mult by assumption.
  destruct (Rle_dec d 0) as [Hd0|Hd0].
  - pose proof (sqrt_pos (ma * mb)). lra.
  - apply Rnot_le_lt in Hd0.
    rewrite <- (sqrt_square d) by lra.
    apply sqrt_le_1; nra.
Qed.

Lemma scoreOr0_real (v : JsMap R) (t : str) :
  scoreOr0 (A:=RArith) v t = match map_get v t with Some x => x | None => 0 end.
Proof.
  unfold scoreOr0. simpl.
  destruct (map_get v t) as [x|]; [|reflexivity].
  destruct (Req_dec_T x 0); auto.
Qed.

Lemma num_gt_real (x y : R) : num_gt (Arith:=RArith) x y = true <-> x > y.
Proof.
  simpl. destruct (Rgt_dec x y); split; auto; discriminate.
Qed.

(** In exact arithmetic every link of the graph has a score strictly above
    the 0.01 threshold and at most 1. *)
Lemma buildSemanticGraph_score_range_exact :
  forall (fileSummaries : JsMap str) (p : str)
         (links : list (SemanticLink RArith)) (l : SemanticLink RArith),
    In (p, links) (buildSemanticGraph fileSummaries) ->
    In l links ->
    1 / 100 < score l <= 1.
Proof.
  intros fileSummaries p links l.
  unfold buildSemanticGraph.
  destruct (List.length (map_keys fileSummaries) <? 2)%nat; [intros []|].
  intros Hin Hl. apply sorted_entries in Hin.
  destruct Hin as [links0 [Hin ->]]. apply sortBy_In in Hl.
  apply (@linkAll_entries RArith (corpusVectors fileSummaries)
           (fun _ _ => True) (fun _ => True)
           (fun _ l => 1 / 100 < score l <= 1)) in Hin.
  - now apply Hin.
  - intros a b va vb _ _ _ Hgt. apply num_gt_real in Hgt. simpl.
    pose proof (cosine_le_1 va vb). repeat split; auto; lra.
  - apply ForallOrdPairs_trivial.
Qed.

End RealScores.

(** ** Documents with the same summary *)

Section IdenticalSummaries.

Local Open Scope R_scope.

(** The three accumulators agree when a vector is compared with itself. *)
Lemma accumulate_self (v : JsMap R) (terms : list str) :
  forall d : R,
    fold_left
      (fun '(dotProduct, magnitudeA, magnitudeB) term =>
         let scoreA := scoreOr0 (A:=RArith) v term in
         let scoreB := scoreOr0 (A:=RArith) v term in
         (dotProduct + scoreA * scoreB,
          magnitudeA + scoreA * scoreA,
          magnitudeB + scoreB * scoreB))
      terms (d, d, d)
    = let m := fold_left (fun m term => m + scoreOr0 (A:=RArith) v term
                                           * scoreOr0 (A:=RArith) v term)
                         terms d in
      (m, m, m).
Proof.
  induction terms as [|t terms IH]; intros d; simpl; [reflexivity|].
  apply IH.
Qed.

Lemma sum_squares_ge (v : JsMap R) (terms : list str) :
  forall d : R,
    d <= fold_left (fun m term => m + scoreOr0 (A:=RArith) v term
                                    * scoreOr0 (A:=RArith) v term) terms d.
Proof.
  induction terms as [|t terms IH]; intros d; simpl; [lra|].
  eapply Rle_trans; [|apply IH].
  pose proof (Rle_0_sqr (scoreOr0 (A:=RArith) v t)) as H. unfold Rsqr in H. lra.
Qed.

Lemma sum_squares_gt (v : JsMap R) (terms : list str) (t : str) :
  In t terms -> scoreOr0 (A:=RArith) v t <> 0 ->
  forall d : R,
    d < fold_left (fun m term => m + scoreOr0 (A:=RArith) v term
                                   * scoreOr0 (A:=RArith) v term) terms d.
Proof.
  intros Hin Hne.
  induction terms as [|t' terms IH]; intros d; simpl; [contradiction|].
  destruct Hin as [->|Hin].
  - eapply Rlt_le_trans; [|apply sum_squares_ge].
    assert (0 < scoreOr0 (A:=RArith) v t * scoreOr0 (A:=RArith) v t)
      by (apply Rsqr_pos_lt; exact Hne).
    lra.
  - eapply Rle_lt_trans; [|apply IH; exact Hin].
    pose proof (Rle_0_sqr (scoreOr0 (A:=RArith) v t')) as H. unfold Rsqr in H. lra.
Qed.

Lemma sum_squares_zero (v : JsMap R) (terms : list str) :
  (forall t, scoreOr0 (A:=RArith) v t = 0) ->
  fold_left (fun m term => m + scoreOr0 (A:=RArith) v term
                               * scoreOr0 (A:=RArith) v term) terms 0 = 0.
Proof.
  intros Hz.
  induction terms as [|t terms IH]; simpl; [reflexivity|].
  rewrite Hz. replace (0 + 0 * 0) with 0 by ring. exact IH.
Qed.

(** The cosine of a vector with itself: 1 as soon as one weight is not 0. *)
Lemma cosine_self_1 (v : JsMap R) (t : str) (w : R) :
  map_get v t = Some w -> w <> 0 ->
  calculateCosineSimilarity (A:=RArith) v v = 1.
Proof.
  intros Hget Hw.
  unfold calculateCosineSimilarity, accumulate.
  set (terms := newSet _).
  pose proof (accumulate_self v terms 0) as Hacc. simpl in Hacc |- *.
  rewrite Hacc. clear Hacc.
  assert (Hpos : 0 < fold_left
                       (fun m term => m + scoreOr0 (A:=RArith) v term
                                          * scoreOr0 (A:=RArith) v term)
                       terms 0).
  { apply sum_squares_gt with (t := t).
    - unfold terms. apply newSet_In, in_or_app. left.
      apply newSet_In. eapply map_get_key; eauto.
    - rewrite scoreOr0_real, Hget. exact Hw. }
  set (m := fold_left _ terms 0) in *.
  destruct (Req_dec_T m 0) as [E|E]; [lra|]. simpl.
  rewrite sqrt_sqrt by lra. field. exact E.
Qed.

(** ... and 0 when all of them are. *)
Lemma cosine_self_0 (v : JsMap R) :
  (forall t w, map_get v t = Some w -> w = 0) ->
  calculateCosineSimilarity (A:=RArith) v v = 0.
Proof.
  intros Hz.
  unfold calculateCosineSimilarity, accumulate.
  set (terms := newSet _).
  pose proof (accumulate_self v terms 0) as Hacc. simpl in Hacc |- *.
  rewrite Hacc. clear Hacc.
  rewrite sum_squares_zero.
  - destruct (Req_dec_T 0 0); [reflexivity|congruence].
  - intros t. rewrite scoreOr0_real.
    destruct (map_get v t) as [w|] eqn:E; [now apply (Hz t)|reflexivity].
Qed.
Lemma tfidf_positive (fileSummaries : JsMap str) (p q t : str) (c : nat) :
  In p (map_keys fileSummaries) ->
  In t (termsOf (summaryOf fileSummaries p)) ->
  In q (map_keys fileSummaries) ->
  ~ In t (termsOf (summaryOf fileSummaries q)) ->
  (1 <= c)%nat ->
  0 < tfidfOf (A:=RArith)
              (List.length (map_keys fileSummaries))
              (snd (countTerms fileSummaries (map_keys fileSummaries))) t c.
Proof.
  intros Hp Ht Hq Hnt Hc.
  unfold tfidfOf. simpl.
  rewrite dfOr1_countOr0, countTerms_df.
  pose proof (documentFrequency_pos fileSummaries _ _ _ Hp Ht) as Hdf1.
  pose proof (documentFrequency_lt fileSummaries _ _ _ Hq Hnt) as Hdf2.
  set (df := documentFrequency _ _ _) in *.
  set (n := List.length _) in *.
  destruct (df =? 0)%nat eqn:E; [apply Nat.eqb_eq in E; lia|].
  apply Rmult_lt_0_compat.
  - apply lt_0_INR. lia.
  - rewrite <- ln_1. apply ln_increasing; [lra|].
    assert (0 < INR df) by (apply lt_0_INR; lia).
    assert (INR df < INR n) by (apply lt_INR; lia).
    apply Rmult_lt_reg_r with (r := INR df); [assumption|].
    unfold Rdiv. rewrite Rmult_assoc, Rinv_l by lra. lra.
Qed.

Lemma documentFrequency_all (fileSummaries : JsMap str)
      (filePaths : list str) (t : str) :
  (forall q, In q filePaths -> In t (termsOf (summaryOf fileSummaries q))) ->
  documentFrequency fileSummaries filePaths t = List.length filePaths.
Proof.
  unfold documentFrequency.
  induction filePaths as [|q filePaths IH]; intros H; simpl; [reflexivity|].
  assert (Hq : In t (termsOf (summaryOf fileSummaries q))) by (apply H; now left).
  apply existsb_str_eqb in Hq. rewrite Hq. simpl. f_equal.
  apply IH. intros q' Hq'. apply H. now right.
Qed.

Lemma tfidf_zero (fileSummaries : JsMap str) (t : str) (c : nat) :
  (1 <= List.length (map_keys fileSummaries))%nat ->
  (forall q, In q (map_keys fileSummaries) ->
             In t (termsOf (summaryOf fileSummaries q))) ->
  tfidfOf (A:=RArith)
          (List.length (map_keys fileSummaries))
          (snd (countTerms fileSummaries (map_keys fileSummaries))) t c = 0.
Proof.
  intros Hn Hall. unfold tfidfOf. simpl.
  rewrite dfOr1_countOr0, countTerms_df, documentFrequency_all by exact Hall.
  set (n := List.length _) in *.
  destruct (n =? 0)%nat eqn:E; [apply Nat.eqb_eq in E; lia|].
  assert (0 < INR n) by (apply lt_0_INR; lia).
  replace (INR n / INR n) with 1 by (field; lra).
  rewrite ln_1. ring.
Qed.

Lemma pairSimilarity_same_text (fileSummaries : JsMap str)
      (pathA pathB text : str) :
  map_get fileSummaries pathA = Some text ->
  map_get fileSummaries pathB = Some text ->
  exists v,
    v = tfidfVectorOf (A:=RArith)
          (List.length (map_keys fileSummaries))
          (snd (countTerms fileSummaries (map_keys fileSummaries)))
          (termFrequenciesOf text)
    /\ pairSimilarity (A:=RArith) fileSummaries pathA pathB
       = Some (calculateCosineSimilarity (A:=RArith) v v).
Proof.
  intros HA HB. eexists. split; [reflexivity|].
  unfold pairSimilarity.
  rewrite (corpusVectors_get fileSummaries pathA)
    by (eapply map_get_key; eauto).
  rewrite (corpusVectors_get fileSummaries pathB)
    by (eapply map_get_key; eauto).
  unfold summaryOf. now rewrite HA, HB.
Qed.

(** Two documents with the same summary, all of whose terms occur in every
    document of the corpus: all weights are 0 and so is the similarity. *)
Lemma identical_summaries_all_shared (fileSummaries : JsMap str)
      (pathA pathB text : str) :
  map_get fileSummaries pathA = Some text ->
  map_get fileSummaries pathB = Some text ->
  (forall t q, In t (termsOf text) -> In q (map_keys fileSummaries) ->
               In t (termsOf (summaryOf fileSummaries q))) ->
  pairSimilarity (A:=RArith) fileSummaries pathA pathB = Some 0.
Proof.
  intros HA HB Hall.
  destruct (pairSimilarity_same_text fileSummaries pathA pathB HA HB)
    as [v [Ev ->]].
  f_equal. apply cosine_self_0.
  intros t w. subst v.
  rewrite tfidfVectorOf_map by apply termFrequenciesOf_wf.
  rewrite map_get_map.
  destruct (map_get (termFrequenciesOf text) t) as [c|] eqn:Ec; [|discriminate].
  simpl. intros [= <-].
  apply tfidf_zero.
  - apply map_get_key in HA.
    destruct (map_keys fileSummaries); [contradiction|simpl; lia].
  - intros q Hq. apply Hall; [|exact Hq].
    unfold termsOf. eapply map_get_key; eauto.
Qed.

(** A term of the shared text that some document lacks has a non-zero
    weight in the vector of that text. *)
Lemma same_text_nonzero_weight (fileSummaries : JsMap str)
      (pathA text t q : str) :
  map_get fileSummaries pathA = Some text ->
  In t (termsOf text) ->
  In q (map_keys fileSummaries) ->
  ~ In t (termsOf (summaryOf fileSummaries q)) ->
  exists w,
    map_get (tfidfVectorOf (A:=RArith)
               (List.length (map_keys fileSummaries))
               (snd (countTerms fileSummaries (map_keys fileSummaries)))
               (termFrequenciesOf text)) t = Some w
    /\ w <> 0.
Proof.
  intros HA Ht Hq Hnt.
  assert (Hc : exists c, map_get (termFrequenciesOf text) t = Some c).
  { destruct (map_get (termFrequenciesOf text) t) as [c|] eqn:Ec; [eauto|].
    apply map_get_None in Ec. contradiction. }
  destruct Hc as [c Hc].
  exists (tfidfOf (A:=RArith)
            (List.length (map_keys fileSummaries))
            (snd (countTerms fileSummaries (map_keys fileSummaries))) t c).
  split.
  - rewrite tfidfVectorOf_map by apply termFrequenciesOf_wf.
    rewrite map_get_map, Hc. reflexivity.
  - apply Rgt_not_eq. apply Rlt_gt.
    apply tfidf_positive with (p := pathA) (q := q); auto.
    + eapply map_get_key; eauto.
    + unfold summaryOf. now rewrite HA.
    + destruct (termFrequenciesOf_wf text) as [_ Hpos].
      apply (Hpos t). now apply map_get_In.
Qed.

(** In exact arithmetic two documents with the same summary text, one of
    whose surviving terms is missing from some document of the corpus,
    have similarity 1. *)
Lemma identical_summaries_similarity_exact :
  forall (fileSummaries : JsMap str) (pathA pathB text t q : str),
    map_get fileSummaries pathA = Some text ->
    map_get fileSummaries pathB = Some text ->
    In t (termsOf text) ->
    In q (map_keys fileSummaries) ->
    ~ In t (termsOf (summaryOf fileSummaries q)) ->
    pairSimilarity (A:=RArith) fileSummaries pathA pathB = Some 1.
Proof.
  intros fileSummaries pathA pathB text t q HA HB Ht Hq Hnt.
  destruct (pairSimilarity_same_text fileSummaries pathA pathB HA HB)
    as [v [Ev ->]].
  destruct (@same_text_nonzero_weight fileSummaries pathA text t q
              HA Ht Hq Hnt) as [w [Hw Hne]].
  f_equal. subst v. now apply cosine_self_1 with (t := t) (w := w).
Qed.

End IdenticalSummaries.

(** ** Documents without a common term, and a sample graph *)

Section DisjointSummaries.
Local Open Scope R_scope.

Lemma accumulate_disjoint (vectorA vectorB : JsMap R) (terms : list str) :
  (forall t, map_get vectorA t = None \/ map_get vectorB t = None) ->
  forall d ma mb,
    fst (fst (fold_left
                (fun '(dotProduct, magnitudeA, magnitudeB) term =>
                   let scoreA := scoreOr0 (A:=RArith) vectorA term in
                   let scoreB := scoreOr0 (A:=RArith) vectorB term in
                   (dotProduct + scoreA * scoreB,
                    magnitudeA + scoreA * scoreA,
                    magnitudeB + scoreB * scoreB))
                terms (d, ma, mb))) = d.
Proof.
  intros Hdis.
  induction terms as [|t terms IH]; intros d ma mb; simpl; [reflexivity|].
  rewrite IH. rewrite !scoreOr0_real.
  destruct (Hdis t) as [-> | ->]; ring.
Qed.

(** Vectors without a common term have similarity 0. *)
Lemma cosine_disjoint (vectorA vectorB : JsMap R) :
  (forall t, map_get vectorA t = None \/ map_get vectorB t = None) ->
  calculateCosineSimilarity (A:=RArith) vectorA vectorB = 0.
Proof.
  intros Hdis. unfold calculateCosineSimilarity, accumulate.
  set (terms := newSet _).
  pose proof (@accumulate_disjoint vectorA vectorB terms Hdis 0 0 0) as H.
  simpl in H |- *.
  destruct (fold_left _ terms _) as [[d ma] mb]. simpl in H. subst d.
  destruct (_ || _); [reflexivity|]. unfold Rdiv. ring.
Qed.

Lemma pairSimilarity_disjoint (fileSummaries : JsMap str) (pathA pathB : str) :
  In pathA (map_keys fileSummaries) ->
  In pathB (map_keys fileSummaries) ->
  (forall t, In t (termsOf (summaryOf fileSummaries pathA)) ->
             ~ In t (termsOf (summaryOf fileSummaries pathB))) ->
  pairSimilarity (A:=RArith) fileSummaries pathA pathB = Some 0.
Proof.
  intros HA HB Hdis. unfold pairSimilarity.
  destruct (corpusVectors_weight (A:=RArith) fileSummaries pathA) as [va Hva];
    [exact HA|].
  destruct (corpusVectors_weight (A:=RArith) fileSummaries pathB) as [vb Hvb];
    [exact HB|].
  destruct Hva as [-> Hwa]. destruct Hvb as [-> Hwb].
  f_equal. apply cosine_disjoint.
  intros t. rewrite Hwa, Hwb.
  destruct (map_get (termFrequenciesOf (summaryOf fileSummaries pathA)) t)
    as [c|] eqn:Ea; [|now left].
  right.
  destruct (map_get (termFrequenciesOf (summaryOf fileSummaries pathB)) t)
    as [c'|] eqn:Eb; [|reflexivity].
  exfalso. apply (Hdis t); unfold termsOf; eapply map_get_key; eauto.
Qed.

Lemma linkPair_similarity (fileSummaries : JsMap str) (pathA pathB : str)
      (g : SemanticGraph RArith) (s : R) :
  pairSimilarity (A:=RArith) fileSummaries pathA pathB = Some s ->
  linkPair (corpusVectors fileSummaries) pathA g pathB
  = if Rgt_dec s (1 / 100)
    then pushLink (pushLink g pathA (mkLink (A:=RArith) pathB s))
                  pathB (mkLink (A:=RArith) pathA s)
    else g.
Proof.
  unfold pairSimilarity, linkPair.
  destruct (map_get _ pathA) as [va|]; [|discriminate].
  destruct (map_get _ pathB) as [vb|]; [|discriminate].
  intros [= <-]. simpl. now destruct (Rgt_dec _ _).
Qed.

(** The graph of the three-document sample: the twins are linked with
    score 1, the third document stays isolated. *)
Lemma authCorpus_graph :
  buildSemanticGraph (A:=RArith) authCorpus
  = [(lit "a.ts", [mkLink (A:=RArith) (lit "b.ts") 1]);
     (lit "b.ts", [mkLink (A:=RArith) (lit "a.ts") 1])].
Proof.
  assert (Hab : pairSimilarity (A:=RArith) authCorpus (lit "a.ts") (lit "b.ts")
                = Some 1).
  { destruct (@pairSimilarity_same_text
                authCorpus (lit "a.ts") (lit "b.ts") (lit "handles user login")
                eq_refl eq_refl) as [v [Ev ->]].
    destruct (@same_text_nonzero_weight
                authCorpus (lit "a.ts") (lit "handles user login")
                (lit "login") (lit "c.ts")) as [w [Hw Hne]];
      [reflexivity|vm_compute; tauto|vm_compute; tauto
      |vm_compute; intuition discriminate|].
    f_equal. subst v. now apply cosine_self_1 with (t := lit "login") (w := w). }
  assert (Hac : pairSimilarity (A:=RArith) authCorpus (lit "a.ts") (lit "c.ts")
                = Some 0).
  { apply pairSimilarity_disjoint;
      [vm_compute; tauto|vm_compute; tauto|].
    intros t Ht. vm_compute in Ht |- *. intuition congruence. }
  assert (Hbc : pairSimilarity (A:=RArith) authCorpus (lit "b.ts") (lit "c.ts")
                = Some 0).
  { apply pairSimilarity_disjoint;
      [vm_compute; tauto|vm_compute; tauto|].
    intros t Ht. vm_compute in Ht |- *. intuition congruence. }
  unfold buildSemanticGraph.
  change (map_keys authCorpus) with [lit "a.ts"; lit "b.ts"; lit "c.ts"].
  change (List.length [lit "a.ts"; lit "b.ts"; lit "c.ts"] <? 2)%nat with false.
  cbv beta iota.
  unfold linkAll, fold_left.
  rewrite (linkPair_similarity _ _ _ _ Hab).
  destruct (Rgt_dec 1 (1 / 100)) as [_|H]; [|exfalso; lra].
  rewrite (linkPair_similarity _ _ _ _ Hac).
  destruct (Rgt_dec 0 (1 / 100)) as [H|_]; [exfalso; lra|].
  rewrite (linkPair_similarity _ _ _ _ Hbc).
  destruct (Rgt_dec 0 (1 / 100)) as [H|_]; [exfalso; lra|].
  reflexivity.
Qed.

(** Two documents with the same summary that make up the whole corpus
    have similarity 0, every weight being [tf * ln(2 / 2) = 0]. *)
Lemma twinCorpus_similarity_exact :
  map_get twinCorpus (lit "a.ts") = Some (lit "handles user login")
  /\ map_get twinCorpus (lit "b.ts") = Some (lit "handles user login")
  /\ termsOf (lit "handles user login")
     = [lit "handles"; lit "user"; lit "login"]
  /\ pairSimilarity (A:=RArith) twinCorpus (lit "a.ts") (lit "b.ts") = Some 0
  /\ pairSimilarity (A:=RArith) twinCorpus (lit "a.ts") (lit "b.ts") <> Some 1.
Proof.
  assert (H : pairSimilarity (A:=RArith) twinCorpus (lit "a.ts") (lit "b.ts")
              = Some 0).
  { apply identical_summaries_all_shared with (text := lit "handles user login");
      [reflexivity|reflexivity|].
    intros t q Ht Hq.
    destruct Hq as [<-|[<-|[]]]; exact Ht. }
  repeat split; try reflexivity; [exact H|].
  rewrite H. intros [= E]. lra.
Qed.

Lemma buildSemanticGraph_symmetric_witness :
  exists linksB,
    map_get (buildSemanticGraph (A:=RArith) authCorpus) (lit "b.ts")
    = Some linksB
    /\ In (mkLink (A:=RArith) (lit "a.ts") 1) linksB.
Proof.
  apply (@buildSemanticGraph_symmetric
           RArith authCorpus (lit "a.ts") (lit "b.ts") 1
           [mkLink (A:=RArith) (lit "b.ts") 1]).
  - rewrite authCorpus_graph. reflexivity.
  - now left.
Defined.

Lemma buildSemanticGraph_paths_witness :
  In (lit "a.ts") (map_keys authCorpus)
  /\ forall l, In l [mkLink (A:=RArith) (lit "b.ts") 1] ->
               relatedPath l <> lit "a.ts"
               /\ In (relatedPath l) (map_keys authCorpus).
Proof.
  apply (@buildSemanticGraph_paths RArith authCorpus).
  - repeat constructor; vm_compute; intuition discriminate.
  - rewrite authCorpus_graph. now left.
Defined.

Lemma buildSemanticGraph_score_range_exact_example :
  1 / 100 < score (mkLink (A:=RArith) (lit "b.ts") 1) <= 1.
Proof.
  apply (@buildSemanticGraph_score_range_exact
           authCorpus (lit "a.ts") [mkLink (A:=RArith) (lit "b.ts") 1]).
  - rewrite authCorpus_graph. now left.
  - now left.
Defined.

Lemma buildSemanticGraph_small_corpus_witness :
  buildSemanticGraph (A:=RArith) [(lit "a.ts", lit "handles user login")] = [].
Proof.
  apply (@buildSemanticGraph_small_corpus RArith). simpl. lia.
Defined.

End DisjointSummaries.

(** ** The packer *)

Section Packer.

Local Open Scope Z_scope.

Variable MAX_REFERENCED_TYPE_CONTENT_CHARS_CONSTANT : Z.
Variable fileContent : str.
Variable documentSymbols : option (list DocumentSymbol).
Variable activeSymbolDetailedInfo : option ActiveSymbolDetailedInfo.
Variable maxAllowedLength : Z.

Lemma accepted_snoc (rs : list Range) (r : Range) :
  acceptedInOrder rs -> isSubstantiallyOverlapping rs r = false ->
  acceptedInOrder (rs ++ [r]).
Proof.
  intros Hrs Hr earlier x later E.
  destruct later as [|y later] using rev_ind.
  - apply app_inj_tail in E. destruct E as [-> ->]. exact Hr.
  - clear IHlater.
    change (earlier ++ x :: later ++ [y])
      with (earlier ++ (x :: later) ++ [y]) in E.
    rewrite app_assoc in E. apply app_inj_tail in E.
    destruct E as [E _]. now apply (Hrs earlier x later).
Qed.

Lemma addContentBlock_accepted (st : PackerState) (contentRaw : str)
      (sourceRange : Range) (markerType description : str)
      (desiredBlockLength : option Z) :
  acceptedInOrder (includedRanges st) ->
  acceptedInOrder (includedRanges
              (snd (addContentBlock maxAllowedLength st contentRaw sourceRange
                                    markerType description desiredBlockLength))).
Proof.
  intros Hst. unfold addContentBlock.
  destruct (currentLength st >=? maxAllowedLength); [exact Hst|].
  destruct (isSubstantiallyOverlapping (includedRanges st) sourceRange) eqn:Eov;
    [exact Hst|].
  match goal with
  | |- context [match ?c with Some _ => _ | None => _ end] =>
      destruct c; [|exact Hst]
  end.
  destruct (_ >? 0); [|exact Hst].
  simpl. now apply accepted_snoc.
Qed.

Lemma processCandidates_accepted (candidates : list ContentCandidate) :
  forall st st',
    acceptedInOrder (includedRanges st) ->
    processCandidates fileContent maxAllowedLength candidates st = Ok st' ->
    acceptedInOrder (includedRanges st').
Proof.
  induction candidates as [|c cs IH]; intros st st' Hst; simpl.
  - now intros [= <-].
  - destruct (currentLength st >=? maxAllowedLength); [now intros [= <-]|].
    match goal with
    | |- bind ?m _ = _ -> _ => destruct m as [contentRaw|e]; [|discriminate]
    end.
    simpl. apply IH.
    destruct (negb _); [|exact Hst].
    now apply addContentBlock_accepted.
Qed.

Lemma fallbackLoop_accepted (fuel : nat) :
  forall currentLine st st',
    acceptedInOrder (includedRanges st) ->
    fallbackLoop fileContent maxAllowedLength fuel currentLine st = Ok st' ->
    acceptedInOrder (includedRanges st').
Proof.
  induction fuel as [|fuel IH]; intros currentLine st st' Hst; simpl.
  - now intros [= <-].
  - destruct (_ && _); [|now intros [= <-]].
    destruct (lineAt _ currentLine) as [thisLine|e]; [|discriminate]. simpl.
    destruct (negb _); [|now apply IH].
    destruct (lineAt _ _) as [lastLine|e]; [|discriminate]. simpl.
    destruct (extractContentForRange _ _) as [snippet|e]; [|discriminate].
    simpl. apply IH.
    destruct (negb _); [|exact Hst].
    now apply addContentBlock_accepted.
Qed.

Lemma packedState_accepted (st : PackerState) :
  packedState MAX_REFERENCED_TYPE_CONTENT_CHARS_CONSTANT fileContent
              documentSymbols activeSymbolDetailedInfo maxAllowedLength = Ok st ->
  acceptedInOrder (includedRanges st).
Proof.
  unfold packedState.
  destruct (generateCandidates _ _ _ _ _) as [candidates|e]; [|discriminate].
  simpl.
  destruct (processCandidates _ _ _ _) as [st0|e] eqn:E0; [|discriminate].
  simpl.
  assert (H0 : acceptedInOrder (includedRanges st0)).
  { eapply processCandidates_accepted; [|exact E0].
    intros earlier r later E. now destruct earlier. }
  destruct (currentLength st0 <? maxAllowedLength).
  - now apply fallbackLoop_accepted.
  - now intros [= <-].
Qed.

End Packer.

Section AcceptedRanges.
Local Open Scope Z_scope.

Lemma nth_error_split_pair (rs : list Range) (i j : nat) (ri rj : Range) :
  (i < j)%nat -> nth_error rs i = Some ri -> nth_error rs j = Some rj ->
  exists earlier later, rs = earlier ++ rj :: later /\ In ri earlier.
Proof.
  intros Hij Hi Hj.
  destruct (nth_error_split rs j Hj) as (earlier & later & -> & Hlen).
  exists earlier, later. split; [reflexivity|].
  rewrite nth_error_app1 in Hi by lia.
  eapply nth_error_In; eauto.
Qed.

Lemma isBefore_precedes (p q : Position) :
  isBefore p q = true <-> precedes p q.
Proof.
  unfold isBefore, precedes.
  rewrite orb_true_iff, andb_true_iff, !Z.ltb_lt, Z.eqb_eq. tauto.
Qed.

Lemma precedes_asym (p q : Position) : precedes p q -> ~ precedes q p.
Proof. unfold precedes. lia. Qed.

Lemma precedes_posMax (p q e : Position) :
  precedes p e -> precedes q e -> precedes (posMax p q) e.
Proof. intros Hp Hq. unfold posMax. now destruct (isAfter q p). Qed.

Lemma precedes_posMin (s p q : Position) :
  precedes s p -> precedes s q -> precedes s (posMin p q).
Proof. intros Hp Hq. unfold posMin. now destruct (isBefore q p). Qed.

Lemma line_posMax (p q : Position) :
  line (posMax p q) = Z.max (line p) (line q).
Proof.
  unfold posMax, isAfter.
  destruct (isBefore p q) eqn:E.
  - apply isBefore_precedes in E. unfold precedes in E. lia.
  - assert (H : ~ precedes p q) by (rewrite <- isBefore_precedes; congruence).
    unfold precedes in H. lia.
Qed.

Lemma line_posMin (p q : Position) :
  line (posMin p q) = Z.min (line p) (line q).
Proof.
  unfold posMin.
  destruct (isBefore q p) eqn:E.
  - apply isBefore_precedes in E. unfold precedes in E. lia.
  - assert (H : ~ precedes q p) by (rewrite <- isBefore_precedes; congruence).
    unfold precedes in H. lia.
Qed.

(** Ranges that have text in common intersect in a non-empty range whose
    lines are the lines the two ranges share. *)
Lemma intersection_shareText (r other : Range) :
  shareText r other ->
  exists i,
    intersection other r = Some i /\ isEmpty i = false
    /\ lineCount i = sharedLines r other.
Proof.
  intros (Hr & Ho & Hro & Hor).
  unfold intersection.
  set (s := posMax (start r) (start other)).
  set (e := posMin (end_ r) (end_ other)).
  assert (Hse : precedes s e).
  { unfold s, e. apply precedes_posMax; apply precedes_posMin; assumption. }
  cbv zeta.
  assert (Ea : isAfter s e = false).
  { unfold isAfter. apply not_true_is_false. rewrite isBefore_precedes.
    now apply precedes_asym. }
  rewrite Ea. exists (mkRange s e). split; [reflexivity|]. split.
  - unfold isEmpty, isEqual. cbn [start end_].
    apply not_true_is_false. rewrite andb_true_iff, !Z.eqb_eq.
    unfold precedes in Hse. lia.
  - unfold lineCount, sharedLines. cbn [start end_].
    unfold s, e. rewrite line_posMax, line_posMin.
    assert (Hl : line s <= line e) by (unfold precedes in Hse; lia).
    unfold s, e in Hl. rewrite line_posMax, line_posMin in Hl. lia.
Qed.

(** Of two accepted blocks, the one accepted later passed the overlap test
    against the one accepted earlier. *)
Lemma accepted_not_covered :
  forall (MAX_REFERENCED_TYPE_CONTENT_CHARS_CONSTANT : Z) (fileContent : str)
         (documentSymbols : option (list DocumentSymbol))
         (activeSymbolDetailedInfo : option ActiveSymbolDetailedInfo)
         (maxAllowedLength : Z) (ranges : list Range)
         (i j : nat) (earlier later : Range),
    acceptedRanges MAX_REFERENCED_TYPE_CONTENT_CHARS_CONSTANT fileContent
                   documentSymbols activeSymbolDetailedInfo maxAllowedLength
    = Ok ranges ->
    (i < j)%nat ->
    nth_error ranges i = Some earlier ->
    nth_error ranges j = Some later ->
    0 < lineCount later ->
    coversSubstantially later earlier = false.
Proof.
  intros MAXC fileContent syms active maxLen ranges i j earlier later.
  unfold acceptedRanges.
  destruct (packedState _ _ _ _ _) as [st|e] eqn:Est; [|discriminate].
  simpl. intros [= <-] Hij Hi Hj Hcount.
  destruct (nth_error_split_pair _ Hij Hi Hj) as (rs1 & rs2 & E & Hin).
  pose proof (packedState_accepted _ _ _ _ _ Est _ _ _ E) as Hov.
  unfold isSubstantiallyOverlapping in Hov.
  destruct (lineCount later <=? 0) eqn:Ec; [apply Z.leb_le in Ec; lia|].
  destruct (coversSubstantially later earlier) eqn:Ecov; [|reflexivity].
  rewrite <- Hov. symmetry. apply existsb_exists. now exists earlier.
Qed.

(** C7, as amended.  Of two accepted blocks whose ranges have text in
    common, the one accepted later shares fewer than 70% of its own lines
    with the one accepted earlier. *)
Theorem accepted_ranges_shared_lines :
  forall (MAX_REFERENCED_TYPE_CONTENT_CHARS_CONSTANT : Z) (fileContent : str)
         (documentSymbols : option (list DocumentSymbol))
         (activeSymbolDetailedInfo : option ActiveSymbolDetailedInfo)
         (maxAllowedLength : Z) (ranges : list Range)
         (i j : nat) (earlier later : Range),
    acceptedRanges MAX_REFERENCED_TYPE_CONTENT_CHARS_CONSTANT fileContent
                   documentSymbols activeSymbolDetailedInfo maxAllowedLength
    = Ok ranges ->
    (i < j)%nat ->
    nth_error ranges i = Some earlier ->
    nth_error ranges j = Some later ->
    shareText later earlier ->
    10 * sharedLines later earlier < 7 * lineCount later.
Proof.
  intros MAXC fileContent syms active maxLen ranges i j earlier later
         Hacc Hij Hi Hj Hshare.
  assert (Hcount : 0 < lineCount later).
  { destruct Hshare as (Hr & _). unfold precedes in Hr. unfold lineCount. lia. }
  pose proof (accepted_not_covered _ _ _ _ _ Hacc Hij Hi Hj Hcount) as Hcov.
  destruct (intersection_shareText Hshare) as (x & Ex & Hne & Hlines).
  unfold coversSubstantially in Hcov. rewrite Ex, Hne in Hcov.
  cbn [negb] in Hcov. cbv zeta in Hcov.
  rewrite Hlines in Hcov.
  rewrite Z.geb_leb in Hcov. apply Z.leb_gt in Hcov. exact Hcov.
Qed.

(** C7, as stated, fails twice over.  On the object literal the active
    symbol on line 1 is accepted first, then the four-line declaration
    that contains it: the two blocks have text in common and share the
    whole of the first block's single line.  On the line with two
    declarations both are accepted although each shares its only line
    with the other: their ranges have no character in common. *)
Lemma accepted_ranges_overlap_counterexample :
  (acceptedRanges maxReferenced configFile (Some [configSymbol])
                  (Some configProperty) 1000
   = Ok [newRange 1 0 1 7; newRange 0 0 3 2]
   /\ shareText (newRange 0 0 3 2) (newRange 1 0 1 7)
   /\ sharedLines (newRange 1 0 1 7) (newRange 0 0 3 2) = 1
   /\ lineCount (newRange 1 0 1 7) = 1
   /\ overlaps70 (newRange 1 0 1 7) (newRange 0 0 3 2) = true)
  /\ (acceptedRanges maxReferenced sameLineFile (Some sameLineSymbols) None 1000
      = Ok [newRange 0 6 0 11; newRange 0 19 0 24]
      /\ sharedLines (newRange 0 19 0 24) (newRange 0 6 0 11) = 1
      /\ lineCount (newRange 0 19 0 24) = 1
      /\ overlaps70 (newRange 0 19 0 24) (newRange 0 6 0 11) = true
      /\ overlaps70 (newRange 0 6 0 11) (newRange 0 19 0 24) = true).
Proof.
  repeat split; try (vm_compute; reflexivity);
    unfold precedes; cbn; lia.
Qed.

Lemma accepted_ranges_shared_lines_witness :
  10 * sharedLines (newRange 0 0 3 2) (newRange 1 0 1 7)
  < 7 * lineCount (newRange 0 0 3 2).
Proof.
  apply (@accepted_ranges_shared_lines
           maxReferenced configFile (Some [configSymbol]) (Some configProperty)
           1000 [newRange 1 0 1 7; newRange 0 0 3 2] 0%nat 1%nat).
  - vm_compute. reflexivity.
  - lia.
  - reflexivity.
  - reflexivity.
  - unfold shareText, precedes. cbn. lia.
Defined.

End AcceptedRanges.

(** ** The fallback loop runs to its end *)

Section FallbackFuel.

Local Open Scope Z_scope.

Variable fileContent : str.
Variable maxAllowedLength : Z.

Lemma extendBlock_ge (includedRanges : list Range) (n : nat) :
  forall blockEndLine,
    blockEndLine <= extendBlock includedRanges n blockEndLine.
Proof.
  induction n as [|n IH]; intros b; simpl; [lia|].
  destruct (isCovered _ _); [lia|].
  specialize (IH (b + 1)). lia.
Qed.

(** The fallback loop needs no more iterations than there are lines left:
    extra fuel changes nothing, so the fuel given by [packedState] (the
    number of lines, from line 0) always lets the loop run to its own
    exit. *)
Lemma fallbackLoop_fuel (fuel : nat) :
  forall (currentLine : Z) (st : PackerState) (extra : nat),
    Z.of_nat (List.length (fileLines fileContent)) - currentLine
    <= Z.of_nat fuel ->
    fallbackLoop fileContent maxAllowedLength (fuel + extra) currentLine st
    = fallbackLoop fileContent maxAllowedLength fuel currentLine st.
Proof.
  induction fuel as [|fuel IH]; intros currentLine st extra Hfuel.
  - destruct extra as [|extra]; [reflexivity|]. simpl.
    destruct (currentLine <? _) eqn:E; [|reflexivity].
    apply Z.ltb_lt in E. lia.
  - simpl.
    destruct (_ && _); [|reflexivity].
    destruct (lineAt _ currentLine) as [thisLine|e]; [|reflexivity]. simpl.
    destruct (negb _).
    + destruct (lineAt _ _) as [lastLine|e]; [|reflexivity]. simpl.
      destruct (extractContentForRange _ _) as [snippet|e]; [|reflexivity].
      simpl. apply IH.
      pose proof (extendBlock_ge (includedRanges st)
                    (Z.to_nat (Z.of_nat (List.length (fileLines fileContent))
                               - (currentLine + 1))) currentLine).
      lia.
    + apply IH. lia.
Qed.

End FallbackFuel.

(** ** Candidates and summaries *)

Section Candidates.

Local Open Scope Z_scope.

Lemma flatMapM_Forall {X Y : Type} (P : Y -> Prop) (f : X -> result (list Y))
      (xs : list X) (ys : list Y) :
  (forall x zs, f x = Ok zs -> Forall P zs) ->
  flatMapM f xs = Ok ys -> Forall P ys.
Proof.
  intros Hf. revert ys.
  induction xs as [|x xs IH]; intros ys; simpl.
  - intros [= <-]. constructor.
  - destruct (f x) as [zs|e] eqn:Ex; [|discriminate]. simpl.
    destruct (flatMapM f xs) as [ws|e]; [|discriminate]. simpl.
    intros [= <-]. apply Forall_app. split; [now apply (Hf x)|now apply IH].
Qed.

Variable MAX_REFERENCED_TYPE_CONTENT_CHARS_CONSTANT : Z.
Variable fileContent : str.
Variable documentSymbols : option (list DocumentSymbol).
Variable activeSymbolDetailedInfo : option ActiveSymbolDetailedInfo.
Variable maxAllowedLength : Z.

Lemma preamble_not_active :
  Forall (fun c => marker c <> ACTIVE_SYMBOL) (preambleCandidates fileContent maxAllowedLength).
Proof.
  unfold preambleCandidates. destruct (_ >=? 0); repeat constructor.
  simpl. discriminate.
Qed.

Lemma imports_not_active :
  Forall (fun c => marker c <> ACTIVE_SYMBOL) (importCandidates fileContent maxAllowedLength).
Proof.
  unfold importCandidates. destruct (_ >=? 0); [|constructor].
  destruct (_ >=? _); repeat constructor.
  simpl. discriminate.
Qed.

Lemma exported_not_active (cs : list ContentCandidate) :
  exportedCandidates fileContent documentSymbols maxAllowedLength = Ok cs ->
  Forall (fun c => marker c <> ACTIVE_SYMBOL) cs.
Proof.
  unfold exportedCandidates.
  destruct documentSymbols as [symbols|]; [|intros [= <-]; constructor].
  apply flatMapM_Forall. intros symbol zs.
  unfold exportedSymbolCandidates.
  destruct (getDocumentationRange _ _) as [docRange|e]; [|discriminate]. simpl.
  match goal with
  | |- bind ?m _ = _ -> _ => destruct m as [structs|e] eqn:Es; [|discriminate]
  end.
  simpl.
  destruct (getDeclarationRange _ _) as [declarationRange|e]; [|discriminate].
  simpl. intros [= <-].
  repeat (apply Forall_app; split).
  - destruct docRange; repeat constructor. simpl. discriminate.
  - destruct (_ || _); [|inversion Es; constructor].
    destruct (formatSymbolStructure _ _) as [[c|]|e]; simpl in Es;
      try discriminate; [|inversion Es; constructor].
    destruct (isEmptyStr c); inversion Es; repeat constructor.
    simpl. discriminate.
  - repeat constructor. simpl. discriminate.
Qed.

Lemma calls_not_active :
  Forall (fun c => marker c <> ACTIVE_SYMBOL)
         (callCandidates MAX_REFERENCED_TYPE_CONTENT_CHARS_CONSTANT
                         activeSymbolDetailedInfo).
Proof.
  unfold callCandidates.
  destruct activeSymbolDetailedInfo as [info|]; [|constructor].
  destruct (filePath info) as [p|]; [|constructor].
  destruct (isEmptyStr p); [constructor|].
  apply Forall_app. split; apply Forall_flat_map, Forall_forall; intros call _.
  - unfold incomingCandidates.
    destruct (isLocationInCurrentFile _ _); [|constructor].
    destruct (fromRanges call); repeat constructor.
    simpl. discriminate.
  - unfold outgoingCandidates.
    destruct (isLocationInCurrentFile _ _); repeat constructor.
    simpl. discriminate.
Qed.

Lemma internal_not_active (cs : list ContentCandidate) :
  internalCandidates fileContent documentSymbols = Ok cs ->
  Forall (fun c => marker c <> ACTIVE_SYMBOL) cs.
Proof.
  unfold internalCandidates.
  destruct documentSymbols as [symbols|]; [|intros [= <-]; constructor].
  apply flatMapM_Forall. intros symbol zs.
  unfold internalSymbolCandidates.
  destruct (getDeclarationRange _ _) as [declarationRange|e]; [|discriminate].
  simpl. intros [= <-]. repeat constructor.
  simpl. discriminate.
Qed.

(** Only the first push carries the ACTIVE_SYMBOL marker. *)
Lemma generateCandidates_active (cs : list ContentCandidate)
      (c : ContentCandidate) :
  generateCandidates MAX_REFERENCED_TYPE_CONTENT_CHARS_CONSTANT fileContent
                     documentSymbols activeSymbolDetailedInfo maxAllowedLength
  = Ok cs ->
  (In c cs /\ marker c = ACTIVE_SYMBOL
   <-> In c (activeCandidates activeSymbolDetailedInfo)).
Proof.
  unfold generateCandidates.
  destruct (exportedCandidates _ _ _) as [exported|e] eqn:Ee; [|discriminate].
  destruct (internalCandidates _ _) as [internal|e] eqn:Ei; [|discriminate].
  simpl. intros [= <-].
  pose proof preamble_not_active as Hp.
  pose proof imports_not_active as Him.
  pose proof (exported_not_active Ee) as Hex.
  pose proof calls_not_active as Hc.
  pose proof (internal_not_active Ei) as Hin.
  rewrite Forall_forall in Hp, Him, Hex, Hc, Hin.
  split.
  - intros [Hc' Hm]. rewrite !in_app_iff in Hc'.
    destruct Hc' as [H|[H|[H|[H|[H|H]]]]]; [exact H| | | | |]; exfalso;
      [apply (Hp c H)|apply (Him c H)|apply (Hex c H)|apply (Hc c H)
      |apply (Hin c H)]; exact Hm.
  - intros H. split; [apply in_or_app; now left|].
    unfold activeCandidates in H.
    destruct activeSymbolDetailedInfo as [info|]; [|contradiction].
    destruct (fullRange info); [|contradiction].
    destruct H as [<-|[]]. reflexivity.
Qed.

End Candidates.

Section Summaries.

Local Open Scope Z_scope.

(** C9, as amended.  The priority-5 ACTIVE_SYMBOL candidate is produced
    exactly when active-symbol information with a full range is supplied;
    the file the information refers to plays no part. *)
Theorem active_candidate_iff_full_range :
  forall (MAX_REFERENCED_TYPE_CONTENT_CHARS_CONSTANT : Z) (fileContent : str)
         (documentSymbols : option (list DocumentSymbol))
         (activeSymbolDetailedInfo : option ActiveSymbolDetailedInfo)
         (maxAllowedLength : Z) (candidates : list ContentCandidate)
         (c : ContentCandidate),
    generateCandidates MAX_REFERENCED_TYPE_CONTENT_CHARS_CONSTANT fileContent
                       documentSymbols activeSymbolDetailedInfo maxAllowedLength
    = Ok candidates ->
    (In c candidates /\ marker c = ACTIVE_SYMBOL
     <-> exists info r,
           activeSymbolDetailedInfo = Some info
           /\ fullRange info = Some r
           /\ c = mkCandidate
                    500 r ACTIVE_SYMBOL
                    (name info ++ lit " ("
                     ++ match kind info with
                        | Some k => kindName k
                        | None => lit "Unknown"
                        end ++ lit ")")
                    None None).
Proof.
  intros MAXC fileContent syms active maxLen candidates c Hgen.
  rewrite (@generateCandidates_active _ _ _ _ _ _ c Hgen).
  unfold activeCandidates.
  destruct active as [info|].
  - destruct (fullRange info) as [r|] eqn:Er.
    + split.
      * intros [<-|[]]. now exists info, r.
      * intros (info' & r' & [= <-] & Er' & ->).
        rewrite Er in Er'. inversion Er'. now left.
    + split; [intros []|].
      intros (info' & r' & [= <-] & Er' & _). congruence.
  - split; [intros []|]. intros (info' & r' & E & _). discriminate.
Qed.

(** C9, as stated, fails: information about a symbol of src/other.ts,
    passed while another file is summarised, still yields the candidate
    and an ACTIVE_SYMBOL section. *)
Lemma active_candidate_foreign_file_counterexample :
  filePath foreignSymbol = Some (lit "src/other.ts")
  /\ generateCandidates maxReferenced (lit "const a = 1;") None
                        (Some foreignSymbol) 1000
     = Ok [mkCandidate 500 (newRange 0 0 0 5) ACTIVE_SYMBOL
                       (lit "helper (Function)") None None]
  /\ intelligentlySummarizeFileContent
       maxReferenced (lit "const a = 1;") None (Some foreignSymbol) 1000
     = Ok (lit "// [ACTIVE_SYMBOL: helper (Function)]" ++ [nl]
           ++ lit "const" ++ [nl]
           ++ lit "// [END_SECTION: ACTIVE_SYMBOL]").
Proof. repeat split; vm_compute; reflexivity. Qed.

Lemma active_candidate_iff_full_range_witness :
  In (mkCandidate 500 (newRange 0 0 0 5) ACTIVE_SYMBOL
                  (lit "helper (Function)") None None)
     [mkCandidate 500 (newRange 0 0 0 5) ACTIVE_SYMBOL
                  (lit "helper (Function)") None None]
  /\ marker (mkCandidate 500 (newRange 0 0 0 5) ACTIVE_SYMBOL
                         (lit "helper (Function)") None None)
     = ACTIVE_SYMBOL.
Proof.
  apply (@active_candidate_iff_full_range
           maxReferenced (lit "const a = 1;") None (Some foreignSymbol) 1000).
  - vm_compute. reflexivity.
  - exists foreignSymbol, (newRange 0 0 0 5). repeat split.
Defined.

(** C1 at a failing input: a seven-line file and a budget of 200 give a
    summary of 219 code units.  The joined blocks (239 units with the
    separator, which the running length never counts) are cut to 200 and
    the 19-unit truncation notice is appended after the cut. *)
Theorem summary_exceeds_budget :
  exists summary,
    intelligentlySummarizeFileContent maxReferenced sampleFile None None 200
    = Ok summary
    /\ slen summary = 219.
Proof. eexists. split; vm_compute; reflexivity. Qed.

(** C6 at a failing input: a symbol whose lines lie beyond the end of the
    file makes [getDocumentationRange] read [lines[1]] of a one-line file
    and call [trim] on [undefined]; no string is returned. *)
Theorem summary_throws_on_stale_symbol :
  intelligentlySummarizeFileContent maxReferenced shortFile
                                    (Some [staleSymbol]) None 1000
  = Throw TypeError.
Proof. vm_compute. reflexivity. Qed.

Lemma lit_app_nonempty (a : ascii) (s : string) (t : str) :
  lit (String a s) ++ t <> [].
Proof. discriminate. Qed.

(** Whenever a summary of a non-empty file is returned, it is not empty. *)
Lemma summary_nonempty
      (MAX_REFERENCED_TYPE_CONTENT_CHARS_CONSTANT : Z) (fileContent : str)
      (documentSymbols : option (list DocumentSymbol))
      (activeSymbolDetailedInfo : option ActiveSymbolDetailedInfo)
      (maxAllowedLength : Z) (summary : str) :
  0 < slen fileContent ->
  intelligentlySummarizeFileContent
    MAX_REFERENCED_TYPE_CONTENT_CHARS_CONSTANT fileContent documentSymbols
    activeSymbolDetailedInfo maxAllowedLength = Ok summary ->
  summary <> [].
Proof.
  intros Hlen. unfold intelligentlySummarizeFileContent.
  destruct (packedState _ _ _ _ _) as [st|e]; [|discriminate].
  simpl. intros [= <-]. unfold assemble.
  set (finalContent := if _ >? maxAllowedLength then _ else _).
  assert (Hpos : (slen fileContent >? 0) = true) by (apply Z.gtb_lt; lia).
  rewrite Hpos, andb_true_r.
  destruct (trim finalContent) eqn:Et; simpl.
  - unfold fallbackSnippet. apply lit_app_nonempty.
  - discriminate.
Qed.

End Summaries.

(** ** Symbols within the file: the summary is returned *)

Section Totality.

Local Open Scope Z_scope.

Lemma lineAt_ok (lines : list str) (i : Z) :
  0 <= i < Z.of_nat (List.length lines) ->
  exists l, lineAt lines i = Ok l.
Proof.
  intros [H0 H1]. unfold lineAt.
  destruct (i <? 0) eqn:E; [apply Z.ltb_lt in E; lia|].
  destruct (nth_error lines (Z.to_nat i)) as [l|] eqn:En; [eauto|].
  apply nth_error_None in En. lia.
Qed.

Lemma extractLines_ok (lines : list str) (range : Range) (n : nat) :
  forall i,
    0 <= i -> i + Z.of_nat n <= Z.of_nat (List.length lines) ->
    exists ls, extractLines lines range n i = Ok ls.
Proof.
  induction n as [|n IH]; intros i H0 H1; simpl; [eauto|].
  destruct (@lineAt_ok lines i) as [l ->]; [lia|]. simpl.
  destruct (IH (i + 1)) as [ls ->]; [lia|lia|]. simpl. eauto.
Qed.

(** [extractContentForRange] never throws. *)
Lemma extractContentForRange_total (fullContent : str) (range : Range) :
  exists s, extractContentForRange fullContent range = Ok s.
Proof.
  unfold extractContentForRange.
  destruct (line (start range) <? 0) eqn:E1; [simpl; eauto|].
  destruct (line (end_ range) >=? _) eqn:E2; [simpl; eauto|].
  destruct (line (start range) >? line (end_ range)) eqn:E3; [simpl; eauto|].
  simpl.
  apply Z.ltb_ge in E1. rewrite Z.geb_leb in E2. apply Z.leb_gt in E2.
  rewrite Z.gtb_ltb in E3. apply Z.ltb_ge in E3.
  destruct (@extractLines_ok (splitLines fullContent) range
              (Z.to_nat (line (end_ range) - line (start range) + 1))
              (line (start range))) as [ls ->]; [lia|lia|].
  simpl. eauto.
Qed.

Lemma findBrace_ok (lines : list str) (symbol : DocumentSymbol) (n : nat) :
  forall i,
    0 <= i -> i + Z.of_nat n <= Z.of_nat (List.length lines) ->
    exists r, findBrace lines symbol n i = Ok r.
Proof.
  induction n as [|n IH]; intros i H0 H1; simpl; [eauto|].
  destruct (@lineAt_ok lines i) as [l ->]; [lia|]. simpl.
  destruct (negb _); [eauto|]. apply IH; lia.
Qed.

Lemma getDeclarationRange_ok (fullContent : str) (symbol : DocumentSymbol) :
  rangeInFile (splitLines fullContent) (sym_range symbol) ->
  exists r, getDeclarationRange fullContent symbol = Ok r.
Proof.
  intros (H0 & H1 & H2). unfold getDeclarationRange.
  destruct (includesKind BLOCK_KINDS (sym_kind symbol)).
  - destruct (@findBrace_ok (splitLines fullContent) symbol
                (Z.to_nat (line (end_ (sym_range symbol))
                           - line (start (sym_range symbol)) + 1))
                (line (start (sym_range symbol)))) as [[r|] ->]; [lia|lia| |];
      simpl; [eauto|].
    destruct (_ || _); eauto.
  - simpl. destruct (_ || _); eauto.
Qed.

Lemma skipBlankLinesUp_ok (lines : list str) (n : nat) :
  forall currentLine,
    currentLine < Z.of_nat (List.length lines) ->
    n = Z.to_nat (currentLine + 1) ->
    exists c, skipBlankLinesUp lines n currentLine = Ok c /\ c <= currentLine.
Proof.
  induction n as [|n IH]; intros c Hc Hn; simpl.
  - exists c. split; [reflexivity|lia].
  - destruct (@lineAt_ok lines c) as [l ->]; [lia|]. simpl.
    destruct (isEmptyStr (trim l)).
    + destruct (IH (c - 1)) as [c' [-> Hc']]; [lia|lia|].
      exists c'. split; [reflexivity|lia].
    + exists c. split; [reflexivity|lia].
Qed.

Lemma scanDocBlock_ok (lines : list str) (n : nat) :
  forall i startDocLine,
    i < Z.of_nat (List.length lines) ->
    n = Z.to_nat (i + 1) ->
    -1 <= startDocLine ->
    exists s, scanDocBlock lines n i startDocLine = Ok s /\ -1 <= s.
Proof.
  induction n as [|n IH]; intros i s0 Hi Hn Hs; simpl.
  - exists s0. split; [reflexivity|lia].
  - destruct (@lineAt_ok lines i) as [l ->]; [lia|]. simpl.
    destruct (isEmptyStr (trim l)).
    + destruct (negb _); [apply IH; lia|].
      exists s0. split; [reflexivity|lia].
    + destruct (isCommentShaped (trim l)).
      * destruct (startsWith (trim l) (lit "//") && (i >? 0)) eqn:E.
        -- apply andb_prop in E. destruct E as [_ E].
           apply Z.gtb_lt in E.
           destruct (@lineAt_ok lines (i - 1)) as [prev ->]; [lia|]. simpl.
           destruct (_ && _); [exists i; split; [reflexivity|lia]|].
           destruct (i =? 0); [exists i; split; [reflexivity|lia]|].
           apply IH; lia.
        -- simpl.
           destruct (i =? 0); [exists i; split; [reflexivity|lia]|].
           apply IH; lia.
      * exists (i + 1). split; [reflexivity|lia].
Qed.

Lemma skipBlankLinesDown_ok (lines : list str) (n : nat) :
  forall finalStartLine,
    0 <= finalStartLine ->
    finalStartLine + Z.of_nat n <= Z.of_nat (List.length lines) ->
    exists f, skipBlankLinesDown lines n finalStartLine = Ok f.
Proof.
  induction n as [|n IH]; intros f H0 H1; simpl; [eauto|].
  destruct (@lineAt_ok lines f) as [l ->]; [lia|]. simpl.
  destruct (isEmptyStr (trim l)); [apply IH; lia|eauto].
Qed.

Lemma getDocumentationRange_ok (fullContent : str) (symbol : DocumentSymbol) :
  rangeInFile (splitLines fullContent) (sym_range symbol) ->
  exists r, getDocumentationRange fullContent symbol = Ok r.
Proof.
  intros (H0 & H1 & H2). unfold getDocumentationRange.
  destruct (@skipBlankLinesUp_ok (splitLines fullContent)
              (Z.to_nat (line (start (sym_range symbol)) - 1 + 1))
              (line (start (sym_range symbol)) - 1))
    as [c [-> Hc]]; [lia|reflexivity|]. simpl.
  destruct (c <? 0) eqn:Ec; [eauto|]. apply Z.ltb_ge in Ec.
  destruct (@scanDocBlock_ok (splitLines fullContent) (Z.to_nat (c + 1)) c (-1))
    as [s [-> Hs]]; [lia|reflexivity|lia|]. simpl.
  destruct ((s =? -1) || (s >? c)) eqn:Es; [eauto|].
  apply orb_false_elim in Es. destruct Es as [Es1 Es2].
  apply Z.eqb_neq in Es1. rewrite Z.gtb_ltb in Es2. apply Z.ltb_ge in Es2.
  destruct (@skipBlankLinesDown_ok (splitLines fullContent)
              (Z.to_nat (c - s)) s) as [f ->]; [lia|lia|]. simpl.
  destruct (f >? c); [eauto|].
  destruct (@lineAt_ok (splitLines fullContent) c) as [l ->]; [lia|].
  simpl. eauto.
Qed.

Lemma flatMapM_ok {X Y : Type} (f : X -> result (list Y)) (xs : list X) :
  Forall (fun x => exists ys, f x = Ok ys) xs ->
  exists ys, flatMapM f xs = Ok ys.
Proof.
  induction 1 as [|x xs [ys Hx] _ [zs IH]]; simpl; [eauto|].
  rewrite Hx, IH. simpl. eauto.
Qed.

Lemma formatSymbolStructure_ok (fullContent : str) (symbol : DocumentSymbol) :
  symbolInFile (splitLines fullContent) symbol ->
  exists r, formatSymbolStructure symbol fullContent = Ok r.
Proof.
  intros [Hr Hc]. unfold formatSymbolStructure.
  destruct (_ && _); [eauto|].
  destruct (@getDeclarationRange_ok fullContent symbol Hr) as [r ->]. simpl.
  destruct (extractContentForRange_total fullContent r) as [e ->]. simpl.
  match goal with
  | |- context [bind ?m _] =>
      assert (Hm : exists cs, m = Ok cs); [|destruct Hm as [cs ->]; simpl; eauto]
  end.
  destruct (0 <? _); [|eauto].
  apply flatMapM_ok. eapply Forall_impl; [|exact Hc].
  intros child Hchild. unfold formatChild.
  destruct (includesKind _ _); [|eauto].
  destruct (@getDeclarationRange_ok fullContent child Hchild) as [rc ->]. simpl.
  destruct (extractContentForRange_total fullContent rc) as [ec ->]. simpl.
  eauto.
Qed.

Variable MAX_REFERENCED_TYPE_CONTENT_CHARS_CONSTANT : Z.
Variable fileContent : str.
Variable documentSymbols : option (list DocumentSymbol).
Variable activeSymbolDetailedInfo : option ActiveSymbolDetailedInfo.
Variable maxAllowedLength : Z.

Hypothesis symbols_in_file : symbolsInFile fileContent documentSymbols.

Lemma generateCandidates_ok :
  exists cs,
    generateCandidates MAX_REFERENCED_TYPE_CONTENT_CHARS_CONSTANT fileContent
                       documentSymbols activeSymbolDetailedInfo maxAllowedLength
    = Ok cs.
Proof.
  unfold generateCandidates.
  assert (He : exists cs, exportedCandidates fileContent documentSymbols
                                             maxAllowedLength = Ok cs).
  { unfold exportedCandidates, symbolsInFile in *.
    destruct documentSymbols as [symbols|]; [|eauto].
    apply flatMapM_ok, Forall_forall. intros symbol Hin.
    apply filter_In in Hin. destruct Hin as [Hin _].
    rewrite Forall_forall in symbols_in_file.
    specialize (symbols_in_file symbol Hin).
    unfold exportedSymbolCandidates.
    destruct (@getDocumentationRange_ok fileContent symbol) as [d ->];
      [apply symbols_in_file|]. simpl.
    destruct (@formatSymbolStructure_ok fileContent symbol symbols_in_file)
      as [f ->].
    destruct (@getDeclarationRange_ok fileContent symbol) as [r ->];
      [apply symbols_in_file|].
    destruct (_ || _); simpl; [destruct f as [c|]; [destruct (isEmptyStr c)|]|];
      simpl; eauto. }
  assert (Hi : exists cs, internalCandidates fileContent documentSymbols = Ok cs).
  { unfold internalCandidates, symbolsInFile in *.
    destruct documentSymbols as [symbols|]; [|eauto].
    apply flatMapM_ok, Forall_forall. intros symbol Hin.
    apply filter_In in Hin. destruct Hin as [Hin _].
    rewrite Forall_forall in symbols_in_file.
    specialize (symbols_in_file symbol Hin).
    unfold internalSymbolCandidates.
    destruct (@getDeclarationRange_ok fileContent symbol) as [r ->];
      [apply symbols_in_file|]. simpl. eauto. }
  destruct He as [e ->]. destruct Hi as [i ->]. simpl. eauto.
Qed.

Lemma processCandidates_ok (candidates : list ContentCandidate) :
  forall st,
    exists st',
      processCandidates fileContent maxAllowedLength candidates st = Ok st'.
Proof.
  induction candidates as [|c cs IH]; intros st; simpl; [eauto|].
  destruct (currentLength st >=? maxAllowedLength); [eauto|].
  match goal with
  | |- context [bind ?m _] =>
      assert (Hm : exists contentRaw, m = Ok contentRaw)
  end.
  { destruct (contentOverride c) as [o|];
      [destruct (isEmptyStr o); [|eauto]|];
      apply extractContentForRange_total. }
  destruct Hm as [contentRaw ->]. simpl. apply IH.
Qed.

Lemma extendBlock_le (includedRanges : list Range) (n : nat) :
  forall blockEndLine,
    extendBlock includedRanges n blockEndLine <= blockEndLine + Z.of_nat n.
Proof.
  induction n as [|n IH]; intros b; simpl; [lia|].
  destruct (isCovered _ _); [lia|].
  specialize (IH (b + 1)). lia.
Qed.

Lemma fallbackLoop_ok (fuel : nat) :
  forall currentLine st,
    0 <= currentLine ->
    exists st',
      fallbackLoop fileContent maxAllowedLength fuel currentLine st = Ok st'.
Proof.
  induction fuel as [|fuel IH]; intros c st Hc; simpl; [eauto|].
  destruct (c <? _) eqn:E; simpl; [|eauto].
  destruct (currentLength st <? maxAllowedLength); simpl; [|eauto].
  apply Z.ltb_lt in E.
  destruct (@lineAt_ok (fileLines fileContent) c) as [l ->]; [lia|]. simpl.
  destruct (negb _); [|apply IH; lia].
  set (n := Z.to_nat (Z.of_nat (List.length (fileLines fileContent)) - (c + 1))).
  pose proof (extendBlock_ge (includedRanges st) n c) as Hge.
  pose proof (extendBlock_le (includedRanges st) n c) as Hle.
  destruct (@lineAt_ok (fileLines fileContent)
              (extendBlock (includedRanges st) n c)) as [l' ->]; [lia|].
  simpl.
  match goal with
  | |- context [extractContentForRange ?c ?r] =>
      destruct (extractContentForRange_total c r) as [snippet ->]
  end.
  simpl. apply IH. lia.
Qed.

Lemma packedState_ok :
  exists st,
    packedState MAX_REFERENCED_TYPE_CONTENT_CHARS_CONSTANT fileContent
                documentSymbols activeSymbolDetailedInfo maxAllowedLength
    = Ok st.
Proof.
  unfold packedState.
  destruct generateCandidates_ok as [cs ->]. simpl.
  destruct (processCandidates_ok (sortBy candidateAfter cs) initialState)
    as [st ->]. simpl.
  destruct (currentLength st <? maxAllowedLength); [|eauto].
  apply fallbackLoop_ok. lia.
Qed.

(** X26. With document symbols that lie within the text, the summary of a
    non-empty file is returned and is not empty, whatever the budget. *)
Lemma summary_returned_nonempty :
  0 < slen fileContent ->
  exists summary,
    intelligentlySummarizeFileContent
      MAX_REFERENCED_TYPE_CONTENT_CHARS_CONSTANT fileContent documentSymbols
      activeSymbolDetailedInfo maxAllowedLength = Ok summary
    /\ summary <> [].
Proof.
  intros Hlen.
  destruct packedState_ok as [st Hst].
  exists (assemble fileContent maxAllowedLength st).
  assert (E : intelligentlySummarizeFileContent
                MAX_REFERENCED_TYPE_CONTENT_CHARS_CONSTANT fileContent
                documentSymbols activeSymbolDetailedInfo maxAllowedLength
              = Ok (assemble fileContent maxAllowedLength st)).
  { unfold intelligentlySummarizeFileContent. now rewrite Hst. }
  split; [exact E|].
  eapply summary_nonempty; eauto.
Qed.

End Totality.

(** ** Scores in double precision *)

Section Doubles.

Variable log : float -> float.

(** The threshold guard holds of every stored score, in any arithmetic. *)
Lemma buildSemanticGraph_above_threshold {A : Arith}
      (fileSummaries : JsMap str) (p : str) (links : list (SemanticLink A))
      (l : SemanticLink A) :
  In (p, links) (buildSemanticGraph fileSummaries) ->
  In l links ->
  num_gt (score l) num_threshold = true.
Proof.
  unfold buildSemanticGraph.
  destruct (List.length (map_keys fileSummaries) <? 2)%nat; [intros []|].
  intros Hin Hl. apply sorted_entries in Hin.
  destruct Hin as [links0 [Hin ->]]. apply sortBy_In in Hl.
  apply (@linkAll_entries A (corpusVectors fileSummaries)
           (fun _ _ => True) (fun _ => True)
           (fun _ l => num_gt (score l) num_threshold = true)) in Hin.
  - now apply Hin.
  - intros a b va vb _ _ _ Hgt. simpl. auto.
  - apply ForallOrdPairs_trivial.
Qed.

(** Every weight of the four-document sample is [1 * Math.log(4 / 2)]. *)
Lemma quadCorpus_vectors :
  log 2%float = LN2 ->
  corpusVectors (A:=Float64Arith log) quadCorpus
  = [(lit "a.ts", [(lit "alpha", LN2); (lit "beta", LN2)]);
     (lit "b.ts", [(lit "alpha", LN2); (lit "beta", LN2)]);
     (lit "c.ts", [(lit "gamma", LN2); (lit "delta", LN2)]);
     (lit "d.ts", [(lit "gamma", LN2); (lit "delta", LN2)])].
Proof.
  intros log_2. vm_compute. rewrite !log_2. vm_compute. reflexivity.
Qed.

(** C3 at a failing input: with [Math.log(2)] the double nearest to ln 2,
    the twins of the four-document sample are linked with the score
    1.0000000000000002, one unit in the last place above 1.  The vectors
    are equal, [(ln 2, ln 2)]; the rounded product of the two rounded
    square roots falls below the rounded sum of squares. *)
Theorem score_above_one_in_doubles :
  log 2%float = LN2 ->
  buildSemanticGraph (A:=Float64Arith log) quadCorpus
  = [(lit "a.ts",
      [mkLink (A:=Float64Arith log) (lit "b.ts") 0x1.0000000000001p+0%float]);
     (lit "b.ts",
      [mkLink (A:=Float64Arith log) (lit "a.ts") 0x1.0000000000001p+0%float]);
     (lit "c.ts",
      [mkLink (A:=Float64Arith log) (lit "d.ts") 0x1.0000000000001p+0%float]);
     (lit "d.ts",
      [mkLink (A:=Float64Arith log) (lit "c.ts") 0x1.0000000000001p+0%float])]
  /\ PrimFloat.ltb 1%float 0x1.0000000000001p+0%float = true.
Proof.
  intros log_2. split; [|vm_compute; reflexivity].
  unfold buildSemanticGraph.
  rewrite (quadCorpus_vectors log_2).
  vm_compute. reflexivity.
Qed.

(** The two-document sample in doubles: [Math.log(1)] is [+0], all
    weights vanish and the twins have similarity 0. *)
Lemma identical_summaries_zero_in_doubles :
  log 1%float = 0%float ->
  pairSimilarity (A:=Float64Arith log) twinCorpus (lit "a.ts") (lit "b.ts")
  = Some 0%float.
Proof.
  intros log_1. vm_compute. rewrite !log_1. vm_compute. reflexivity.
Qed.

(** C5 at a failing input: the twins of the three-document sample have the
    summary "handles user login", whose three terms survive the filter
    and are missing from the third document.  With [Math.log(1.5)] the
    double nearest to ln 1.5 their similarity is 1.0000000000000002, not
    1: both vectors are [(w, w, w)] with [w = 1 * Math.log(3 / 2)], the
    dot product and the two squared magnitudes are the same double [m],
    and the rounded product of the two rounded square roots falls below
    [m]. *)
Theorem identical_summaries_above_one_in_doubles :
  log 0x1.8p+0%float = LN1_5 ->
  map_get authCorpus (lit "a.ts") = Some (lit "handles user login")
  /\ map_get authCorpus (lit "b.ts") = Some (lit "handles user login")
  /\ termsOf (lit "handles user login")
     = [lit "handles"; lit "user"; lit "login"]
  /\ pairSimilarity (A:=Float64Arith log) authCorpus (lit "a.ts") (lit "b.ts")
     = Some 0x1.0000000000001p+0%float
  /\ PrimFloat.eqb 0x1.0000000000001p+0 1 = false
  /\ PrimFloat.ltb 1 0x1.0000000000001p+0 = true.
Proof.
  intros log_3_2.
  repeat split; try reflexivity.
  vm_compute. rewrite !log_3_2. vm_compute. reflexivity.
Qed.

End Doubles.

Lemma identical_summaries_above_one_in_doubles_witness :
  map_get authCorpus (lit "a.ts") = Some (lit "handles user login")
  /\ map_get authCorpus (lit "b.ts") = Some (lit "handles user login")
  /\ termsOf (lit "handles user login")
     = [lit "handles"; lit "user"; lit "login"]
  /\ pairSimilarity (A:=Float64Arith logTable) authCorpus
                    (lit "a.ts") (lit "b.ts")
     = Some 0x1.0000000000001p+0%float
  /\ PrimFloat.eqb 0x1.0000000000001p+0 1 = false
  /\ PrimFloat.ltb 1 0x1.0000000000001p+0 = true.
Proof.
  apply (@identical_summaries_above_one_in_doubles logTable). reflexivity.
Defined.

Lemma score_above_one_in_doubles_witness :
  buildSemanticGraph (A:=Float64Arith (fun _ => LN2)) quadCorpus
  = [(lit "a.ts",
      [mkLink (A:=Float64Arith (fun _ => LN2)) (lit "b.ts")
              0x1.0000000000001p+0%float]);
     (lit "b.ts",
      [mkLink (A:=Float64Arith (fun _ => LN2)) (lit "a.ts")
              0x1.0000000000001p+0%float]);
     (lit "c.ts",
      [mkLink (A:=Float64Arith (fun _ => LN2)) (lit "d.ts")
              0x1.0000000000001p+0%float]);
     (lit "d.ts",
      [mkLink (A:=Float64Arith (fun _ => LN2)) (lit "c.ts")
              0x1.0000000000001p+0%float])]
  /\ PrimFloat.ltb 1%float 0x1.0000000000001p+0%float = true.
Proof.
  apply (@score_above_one_in_doubles (fun _ => LN2)). reflexivity.
Defined.

(** ** Sorting: order and stability *)

Section SortedFacts.

Context {T : Type} (after : T -> T -> bool) (le : T -> T -> Prop).

Hypothesis after_false : forall a b, after a b = false -> le a b.
Hypothesis after_true : forall a b, after a b = true -> le b a.
Hypothesis le_trans : forall a b c, le a b -> le b c -> le a c.

Lemma ForallOrdPairs_cons_inv (x : T) (l : list T) :
  ForallOrdPairs le (x :: l) -> Forall (le x) l /\ ForallOrdPairs le l.
Proof. intros H. inversion H; subst. now split. Qed.

Lemma insertBy_sorted (x : T) (l : list T) :
  ForallOrdPairs le l -> ForallOrdPairs le (insertBy after x l).
Proof.
  induction l as [|y l IH]; simpl; intros Hl.
  - constructor; [constructor|constructor].
  - apply ForallOrdPairs_cons_inv in Hl. destruct Hl as [Hy Hl].
    destruct (after x y) eqn:E.
    + constructor; [|now apply IH].
      apply Forall_forall. intros z Hz.
      apply (Permutation_in z (Permutation_sym (insertBy_perm after x l))) in Hz.
      destruct Hz as [<-|Hz]; [now apply after_true|].
      rewrite Forall_forall in Hy. now apply Hy.
    + constructor; [|now constructor].
      constructor; [now apply after_false|].
      eapply Forall_impl; [|exact Hy].
      intros z Hz. eapply le_trans; [|exact Hz]. now apply after_false.
Qed.

Lemma sortBy_sorted (l : list T) : ForallOrdPairs le (sortBy after l).
Proof.
  induction l as [|x l IH]; simpl; [constructor|].
  now apply insertBy_sorted.
Qed.

End SortedFacts.

(** ** The packer: what a block does to the state *)

Section PackerInvariants.

Local Open Scope Z_scope.

Lemma slen_app (a b : str) : slen (a ++ b) = slen a + slen b.
Proof. unfold slen. rewrite length_app. lia. Qed.

Lemma slen_nonneg (a : str) : 0 <= slen a.
Proof. unfold slen. lia. Qed.

Lemma slen_substring_0 (s : str) (k : Z) :
  slen (substring s 0 k) = Z.min (Z.max k 0) (slen s).
Proof.
  unfold substring, clampIndex, slen.
  rewrite length_firstn, length_skipn. lia.
Qed.

(** What a call of [addContentBlock] does to the packer state: nothing,
    or one framed block that fits the budget is appended. *)
Lemma addContentBlock_cases (maxAllowedLength : Z) (st : PackerState)
      (contentRaw : str) (sourceRange : Range) (markerType description : str)
      (desiredBlockLength : option Z) :
  let st' := snd (addContentBlock maxAllowedLength st contentRaw sourceRange
                                  markerType description desiredBlockLength) in
  st' = st
  \/ exists body,
      let block :=
        headerOf markerType description ++ body ++ footerOf markerType in
      currentLength st < maxAllowedLength
      /\ isSubstantiallyOverlapping (includedRanges st) sourceRange = false
      /\ currentLength st + slen block <= maxAllowedLength
      /\ st' = mkState (currentLength st + slen block)
                       (collectedParts st
                        ++ [mkPart block (line (start sourceRange))])
                       (includedRanges st ++ [sourceRange]).
Proof.
  unfold addContentBlock.
  destruct (currentLength st >=? maxAllowedLength) eqn:Ecur; [now left|].
  rewrite Z.geb_leb in Ecur. apply Z.leb_gt in Ecur.
  destruct (isSubstantiallyOverlapping (includedRanges st) sourceRange) eqn:Eov;
    [now left|].
  fold (headerOf markerType description). fold (footerOf markerType).
  set (contentToUse := match desiredBlockLength with
                       | Some d => _ | None => _ end).
  set (h := headerOf markerType description).
  set (f := footerOf markerType).
  destruct (slen h + slen contentToUse + slen f
            >? maxAllowedLength - currentLength st) eqn:Efit.
  - destruct (maxAllowedLength - currentLength st - slen h - slen f >? 30)
      eqn:Eavail; [|now left].
    apply Z.gtb_lt in Eavail.
    match goal with
    | |- context [if ?c then _ else _] => destruct c; [|now left]
    end.
    right. eexists. cbv zeta. cbn [snd].
    split; [assumption|]. split; [reflexivity|]. split; [|reflexivity].
    rewrite !slen_app, slen_substring_0.
    change (slen truncationMessage) with 27.
    pose proof (slen_nonneg contentToUse). lia.
  - rewrite Z.gtb_ltb in Efit. apply Z.ltb_ge in Efit.
    match goal with
    | |- context [if ?c then _ else _] => destruct c; [|now left]
    end.
    right. exists contentToUse. cbv zeta. cbn [snd].
    split; [assumption|]. split; [reflexivity|]. split; [|reflexivity].
    rewrite !slen_app. lia.
Qed.

Variable MAX_REFERENCED_TYPE_CONTENT_CHARS_CONSTANT : Z.
Variable fileContent : str.
Variable documentSymbols : option (list DocumentSymbol).
Variable activeSymbolDetailedInfo : option ActiveSymbolDetailedInfo.
Variable maxAllowedLength : Z.

Variable P : PackerState -> Prop.

Hypothesis P_block :
  forall st sourceRange markerType description body,
    P st ->
    currentLength st < maxAllowedLength ->
    currentLength st
    + slen (headerOf markerType description ++ body ++ footerOf markerType)
    <= maxAllowedLength ->
    P (mkState (currentLength st
                + slen (headerOf markerType description ++ body
                        ++ footerOf markerType))
               (collectedParts st
                ++ [mkPart (headerOf markerType description ++ body
                            ++ footerOf markerType)
                           (line (start sourceRange))])
               (includedRanges st ++ [sourceRange])).

Lemma addContentBlock_invariant (st : PackerState) (contentRaw : str)
      (sourceRange : Range) (markerType description : str)
      (desiredBlockLength : option Z) :
  P st ->
  P (snd (addContentBlock maxAllowedLength st contentRaw sourceRange
                          markerType description desiredBlockLength)).
Proof.
  intros Hst.
  destruct (addContentBlock_cases maxAllowedLength st contentRaw sourceRange
              markerType description desiredBlockLength)
    as [->|(body & Hcur & _ & Hfit & ->)]; [exact Hst|].
  now apply P_block.
Qed.

Lemma processCandidates_invariant (candidates : list ContentCandidate) :
  forall st st',
    P st ->
    processCandidates fileContent maxAllowedLength candidates st = Ok st' ->
    P st'.
Proof.
  induction candidates as [|c cs IH]; intros st st' Hst; simpl.
  - now intros [= <-].
  - destruct (currentLength st >=? maxAllowedLength); [now intros [= <-]|].
    match goal with
    | |- bind ?m _ = _ -> _ => destruct m as [contentRaw|e]; [|discriminate]
    end.
    simpl. apply IH.
    destruct (negb _); [|exact Hst].
    now apply addContentBlock_invariant.
Qed.

Lemma fallbackLoop_invariant (fuel : nat) :
  forall currentLine st st',
    P st ->
    fallbackLoop fileContent maxAllowedLength fuel currentLine st = Ok st' ->
    P st'.
Proof.
  induction fuel as [|fuel IH]; intros currentLine st st' Hst; simpl.
  - now intros [= <-].
  - destruct (_ && _); [|now intros [= <-]].
    destruct (lineAt _ currentLine) as [thisLine|e]; [|discriminate]. simpl.
    destruct (negb _); [|now apply IH].
    destruct (lineAt _ _) as [lastLine|e]; [|discriminate]. simpl.
    destruct (extractContentForRange _ _) as [snippet|e]; [|discriminate].
    simpl. apply IH.
    destruct (negb _); [|exact Hst].
    now apply addContentBlock_invariant.
Qed.

Lemma packedState_invariant (st : PackerState) :
  P initialState ->
  packedState MAX_REFERENCED_TYPE_CONTENT_CHARS_CONSTANT fileContent
              documentSymbols activeSymbolDetailedInfo maxAllowedLength = Ok st ->
  P st.
Proof.
  intros Hinit. unfold packedState.
  destruct (generateCandidates _ _ _ _ _) as [candidates|e]; [|discriminate].
  simpl.
  destruct (processCandidates _ _ _ _) as [st0|e] eqn:E0; [|discriminate].
  simpl.
  assert (H0 : P st0) by (eapply processCandidates_invariant; eauto).
  destruct (currentLength st0 <? maxAllowedLength).
  - now apply fallbackLoop_invariant.
  - now intros [= <-].
Qed.

End PackerInvariants.

(** ** Lines, and the text of a range *)

Section Lines.

Local Open Scope Z_scope.

Lemma splitLines_nonempty (s : str) : splitLines s <> [].
Proof.
  destruct s as [|c s]; simpl; [discriminate|].
  destruct (c =? nl)%N; [discriminate|].
  destruct (splitLines s); discriminate.
Qed.

(** Joining the lines of a text gives the text back. *)
Lemma join_splitLines (s : str) : join [nl] (splitLines s) = s.
Proof.
  induction s as [|c s IH]; [reflexivity|].
  simpl splitLines.
  destruct (c =? nl)%N eqn:E.
  - apply N.eqb_eq in E. subst c.
    pose proof (splitLines_nonempty s) as Hne.
    simpl. destruct (splitLines s) as [|l ls]; [contradiction|].
    now rewrite IH.
  - pose proof (splitLines_nonempty s) as Hne.
    destruct (splitLines s) as [|l ls]; [contradiction|].
    simpl in *. destruct ls; simpl in *; now rewrite <- IH.
Qed.

Lemma splitLines_no_newline (s : str) :
  Forall (fun l => ~ In nl l) (splitLines s).
Proof.
  induction s as [|c s IH]; simpl.
  - constructor; [intros []|constructor].
  - destruct (c =? nl)%N eqn:E.
    + constructor; [intros []|exact IH].
    + apply N.eqb_neq in E.
      destruct (splitLines s) as [|l ls].
      * constructor; [|constructor]. intros [H|[]]. congruence.
      * inversion IH; subst. constructor; [|assumption].
        intros [H|H]; [congruence|contradiction].
Qed.

Lemma splitLines_line (l : str) (s : str) :
  ~ In nl l -> splitLines (l ++ nl :: s) = l :: splitLines s.
Proof.
  induction l as [|c l IH]; intros Hl; simpl.
  - reflexivity.
  - destruct (c =? nl)%N eqn:E.
    + apply N.eqb_eq in E. exfalso. apply Hl. now left.
    + rewrite IH; [reflexivity|]. intros H. apply Hl. now right.
Qed.

Lemma splitLines_single (l : str) : ~ In nl l -> splitLines l = [l].
Proof.
  induction l as [|c l IH]; intros Hl; simpl; [reflexivity|].
  destruct (c =? nl)%N eqn:E.
  - apply N.eqb_eq in E. exfalso. apply Hl. now left.
  - rewrite IH; [reflexivity|]. intros H. apply Hl. now right.
Qed.

(** Splitting a join of newline-free pieces gives the pieces back. *)
Lemma splitLines_join (pieces : list str) :
  pieces <> [] -> Forall (fun l => ~ In nl l) pieces ->
  splitLines (join [nl] pieces) = pieces.
Proof.
  induction pieces as [|p ps IH]; intros Hne Hall; [contradiction|].
  inversion Hall as [|? ? Hp Hps]; subst.
  destruct ps as [|q ps].
  - simpl. now apply splitLines_single.
  - change (join [nl] (p :: q :: ps)) with (p ++ nl :: join [nl] (q :: ps)).
    rewrite splitLines_line by assumption.
    rewrite IH; [reflexivity|discriminate|assumption].
Qed.

Lemma join_not_In (c : N) (sep : str) (pieces : list str) :
  ~ In c sep -> Forall (fun l => ~ In c l) pieces -> ~ In c (join sep pieces).
Proof.
  intros Hsep. induction 1 as [|p ps Hp Hps IH]; simpl; [tauto|].
  destruct ps as [|q ps]; [exact Hp|].
  intros H. apply in_app_or in H. destruct H as [H|H]; [now apply Hp|].
  apply in_app_or in H. destruct H as [H|H]; [now apply Hsep|now apply IH].
Qed.

Lemma In_firstn {T : Type} (n : nat) (l : list T) (x : T) :
  In x (firstn n l) -> In x l.
Proof.
  intros H. rewrite <- (firstn_skipn n l). apply in_or_app. now left.
Qed.

Lemma In_skipn {T : Type} (n : nat) (l : list T) (x : T) :
  In x (skipn n l) -> In x l.
Proof.
  intros H. rewrite <- (firstn_skipn n l). apply in_or_app. now right.
Qed.

Lemma last_nth {T : Type} (l : list T) (d : T) :
  last l d = nth (List.length l - 1) l d.
Proof.
  induction l as [|x l IH]; [reflexivity|].
  destruct l as [|y l]; [reflexivity|].
  change (last (x :: y :: l) d) with (last (y :: l) d). rewrite IH.
  simpl. now rewrite Nat.sub_0_r.
Qed.

Lemma substring_incl (s : str) (a b : Z) (c : N) :
  In c (substring s a b) -> In c s.
Proof.
  unfold substring. intros H. eapply In_skipn, In_firstn. exact H.
Qed.

Lemma substringFrom_incl (s : str) (a : Z) (c : N) :
  In c (substringFrom s a) -> In c s.
Proof. unfold substringFrom. apply In_skipn. Qed.

Lemma selectedPart_incl (range : Range) (i : Z) (l : str) (c : N) :
  In c (selectedPart range i l) -> In c l.
Proof.
  unfold selectedPart.
  destruct (_ && _); [apply substring_incl|].
  destruct (i =? line (start range)); [apply substringFrom_incl|].
  destruct (i =? line (end_ range)); [apply substring_incl|tauto].
Qed.

Lemma lineAt_nth (lines : list str) (i : Z) (l : str) :
  lineAt lines i = Ok l <->
  0 <= i /\ nth_error lines (Z.to_nat i) = Some l.
Proof.
  unfold lineAt. destruct (i <? 0) eqn:E.
  - apply Z.ltb_lt in E. split; [discriminate|lia].
  - apply Z.ltb_ge in E.
    destruct (nth_error lines (Z.to_nat i)) as [l'|]; split.
    + intros [= ->]. now split.
    + intros [_ [= ->]]. reflexivity.
    + discriminate.
    + intros [_ H]. discriminate.
Qed.

(** The extraction loop in closed form. *)
Lemma extractLines_closed (lines : list str) (range : Range) (n : nat) :
  forall i,
    0 <= i -> i + Z.of_nat n <= Z.of_nat (List.length lines) ->
    extractLines lines range n i
    = Ok (map (fun k => selectedPart range (Z.of_nat k) (nth k lines []))
              (seq (Z.to_nat i) n)).
Proof.
  induction n as [|n IH]; intros i H0 H1; simpl; [reflexivity|].
  destruct (@lineAt_ok lines i) as [l Hl]; [lia|]. rewrite Hl. simpl.
  rewrite (IH (i + 1)) by lia. simpl.
  apply lineAt_nth in Hl. destruct Hl as [_ Hl].
  replace (Z.to_nat (i + 1)) with (S (Z.to_nat i)) by lia.
  rewrite (@nth_error_nth str lines (Z.to_nat i) l [] Hl).
  rewrite Z2Nat.id by lia. reflexivity.
Qed.

Lemma extractContentForRange_closed (fullContent : str) (range : Range) :
  rangeInFile (splitLines fullContent) range ->
  extractContentForRange fullContent range
  = Ok (join [nl]
          (map (fun k => selectedPart range (Z.of_nat k)
                                      (nth k (splitLines fullContent) []))
               (seq (Z.to_nat (line (start range)))
                    (Z.to_nat (line (end_ range) - line (start range) + 1))))).
Proof.
  intros (H0 & H1 & H2). unfold extractContentForRange.
  destruct (line (start range) <? 0) eqn:E1; [apply Z.ltb_lt in E1; lia|].
  destruct (line (end_ range) >=? _) eqn:E2;
    [rewrite Z.geb_leb in E2; apply Z.leb_le in E2; lia|].
  destruct (line (start range) >? line (end_ range)) eqn:E3;
    [apply Z.gtb_lt in E3; lia|].
  simpl. rewrite extractLines_closed by lia. reflexivity.
Qed.

Lemma map_nth_seq (lines : list str) :
  map (fun k => nth k lines []) (seq 0 (List.length lines)) = lines.
Proof.
  apply nth_ext with (d := []) (d' := []).
  - now rewrite length_map, length_seq.
  - intros n Hn. rewrite length_map, length_seq in Hn.
    rewrite (nth_indep _ [] (nth 0 lines [])) by
      now rewrite length_map, length_seq.
    rewrite (map_nth (fun k => nth k lines [])), seq_nth by assumption.
    reflexivity.
Qed.

Lemma clampIndex_0 (l : str) : clampIndex l 0 = 0%nat.
Proof. unfold clampIndex, slen. lia. Qed.

Lemma clampIndex_slen (l : str) : clampIndex l (slen l) = List.length l.
Proof. unfold clampIndex, slen. lia. Qed.

Lemma substring_whole (l : str) : substring l 0 (slen l) = l.
Proof.
  unfold substring. rewrite clampIndex_0, clampIndex_slen.
  rewrite Nat.min_0_l, Nat.max_0_l, Nat.sub_0_r. simpl.
  apply firstn_all.
Qed.

(** X1. Extracting the range that spans the whole text returns the text. *)
Theorem extractContentForRange_whole_text :
  forall fullContent : str,
    extractContentForRange fullContent (wholeRange fullContent)
    = Ok fullContent.
Proof.
  intros fullContent.
  pose proof (splitLines_nonempty fullContent) as Hne.
  assert (Hlen : (1 <= List.length (splitLines fullContent))%nat).
  { destruct (splitLines fullContent); [contradiction|simpl; lia]. }
  rewrite extractContentForRange_closed.
  2:{ unfold rangeInFile, wholeRange. simpl. lia. }
  transitivity (Ok (join [nl] (splitLines fullContent)));
    [|now rewrite join_splitLines].
  do 2 f_equal.
  unfold wholeRange. simpl line.
  replace (Z.to_nat (Z.of_nat (List.length (splitLines fullContent)) - 1 - 0 + 1))
    with (List.length (splitLines fullContent)) by lia.
  change (Z.to_nat 0) with 0%nat.
  set (lines := splitLines fullContent) in *.
  transitivity (map (fun k => nth k lines []) (seq 0 (List.length lines)));
    [|apply map_nth_seq].
  apply map_ext_in. intros k Hk. apply in_seq in Hk.
  unfold selectedPart. simpl.
  destruct (Z.of_nat k =? 0) eqn:Ek0;
    destruct (Z.of_nat k =? Z.of_nat (List.length lines) - 1) eqn:Ekn; simpl.
  - apply Z.eqb_eq in Ekn.
    replace (last lines []) with (nth k lines []).
    + apply substring_whole.
    + rewrite last_nth. f_equal. lia.
  - unfold substringFrom. now rewrite clampIndex_0.
  - apply Z.eqb_eq in Ekn.
    replace (last lines []) with (nth k lines []).
    + apply substring_whole.
    + rewrite last_nth. f_equal. lia.
  - reflexivity.
Qed.

(** X2. The text extracted for a range that lies within the file has one line
    per line of the range, and the lines strictly between the first and
    the last are those of the file. *)
Theorem extractContentForRange_lines :
  forall (fullContent : str) (range : Range),
    rangeInFile (splitLines fullContent) range ->
    exists text,
      extractContentForRange fullContent range = Ok text
      /\ Z.of_nat (List.length (splitLines text))
         = line (end_ range) - line (start range) + 1
      /\ forall i,
          line (start range) < i < line (end_ range) ->
          nth_error (splitLines text) (Z.to_nat (i - line (start range)))
          = nth_error (splitLines fullContent) (Z.to_nat i).
Proof.
  intros fullContent range Hr.
  rewrite (extractContentForRange_closed _ Hr).
  destruct Hr as (H0 & H1 & H2).
  eexists. split; [reflexivity|].
  set (lines := splitLines fullContent) in *.
  set (pieces := map _ _).
  assert (Hlen : List.length pieces
                 = Z.to_nat (line (end_ range) - line (start range) + 1)).
  { subst pieces. now rewrite length_map, length_seq. }
  assert (Hsplit : splitLines (join [nl] pieces) = pieces).
  { apply splitLines_join.
    - intros E. rewrite E in Hlen. simpl in Hlen. lia.
    - subst pieces. apply Forall_forall. intros p Hp.
      apply in_map_iff in Hp. destruct Hp as (k & <- & Hk).
      intros Hin. apply selectedPart_incl in Hin.
      apply in_seq in Hk.
      pose proof (splitLines_no_newline fullContent) as Hall.
      rewrite Forall_forall in Hall. apply (Hall (nth k lines [])); [|exact Hin].
      apply nth_In. unfold lines in *. lia. }
  rewrite Hsplit. split; [lia|].
  intros i Hi. subst pieces.
  rewrite nth_error_map, nth_error_seq.
  destruct (Z.to_nat (i - line (start range))
            <? Z.to_nat (line (end_ range) - line (start range) + 1))%nat eqn:E;
    [|apply Nat.ltb_ge in E; lia].
  simpl. unfold selectedPart.
  replace (Z.to_nat (line (start range)) + Z.to_nat (i - line (start range)))%nat
    with (Z.to_nat i) by lia.
  rewrite Z2Nat.id by lia.
  destruct (i =? line (start range)) eqn:E1; [apply Z.eqb_eq in E1; lia|].
  destruct (i =? line (end_ range)) eqn:E2; [apply Z.eqb_eq in E2; lia|].
  simpl. symmetry. apply nth_error_nth'. lia.
Qed.

Lemma extractContentForRange_lines_witness :
  exists text,
    extractContentForRange sampleFile (newRange 1 6 5 1) = Ok text
    /\ Z.of_nat (List.length (splitLines text)) = 5 - 1 + 1
    /\ forall i,
        1 < i < 5 ->
        nth_error (splitLines text) (Z.to_nat (i - 1))
        = nth_error (splitLines sampleFile) (Z.to_nat i).
Proof.
  apply (@extractContentForRange_lines sampleFile (newRange 1 6 5 1)).
  vm_compute. intuition discriminate.
Defined.

End Lines.

(** ** Declaration ranges *)

Section DeclarationRange.

Local Open Scope Z_scope.

Lemma findFrom_none (c : N) (s : str) :
  forall i, 0 <= i -> findFrom c s i = -1 -> ~ In c s.
Proof.
  induction s as [|d s IH]; intros i Hi; simpl; [tauto|].
  destruct (c =? d)%N eqn:E; [lia|].
  apply N.eqb_neq in E. intros H [Hd|Hin]; [congruence|].
  apply (IH (i + 1)); [lia|assumption|assumption].
Qed.

Lemma findFrom_found (c : N) (s : str) :
  forall i j,
    0 <= i -> findFrom c s i = j -> j <> -1 ->
    i <= j
    /\ nth_error s (Z.to_nat (j - i)) = Some c
    /\ ~ In c (firstn (Z.to_nat (j - i)) s).
Proof.
  induction s as [|d s IH]; intros i j Hi; simpl; [lia|].
  destruct (c =? d)%N eqn:E.
  - apply N.eqb_eq in E. subst d. intros <- _.
    rewrite Z.sub_diag. simpl. split; [lia|]. split; [reflexivity|tauto].
  - apply N.eqb_neq in E. intros Hj Hne.
    destruct (IH (i + 1) j) as (H1 & H2 & H3); [lia|assumption|assumption|].
    replace (Z.to_nat (j - i)) with (S (Z.to_nat (j - (i + 1)))) by lia.
    simpl. split; [lia|]. split; [exact H2|].
    intros [Hd|Hin]; [congruence|contradiction].
Qed.

Lemma indexOf_none (l : str) (c : N) (from : Z) :
  indexOf l c from = -1 -> ~ In c (substringFrom l from).
Proof.
  unfold indexOf, substringFrom. apply findFrom_none. lia.
Qed.

Lemma indexOf_found (l : str) (c : N) (from j : Z) :
  indexOf l c from = j -> j <> -1 ->
  0 <= j
  /\ nth_error l (Z.to_nat j) = Some c
  /\ ~ In c (substring l from j).
Proof.
  unfold indexOf. intros Hj Hne.
  destruct (@findFrom_found c (skipn (clampIndex l from) l)
              (Z.of_nat (clampIndex l from)) j) as (H1 & H2 & H3);
    [lia|assumption|assumption|].
  rewrite nth_error_skipn in H2.
  replace (clampIndex l from + Z.to_nat (j - Z.of_nat (clampIndex l from)))%nat
    with (Z.to_nat j) in H2 by lia.
  split; [lia|]. split; [exact H2|].
  assert (Hlt : (Z.to_nat j < List.length l)%nat).
  { apply nth_error_Some. congruence. }
  unfold substring.
  assert (Eb : clampIndex l j = Z.to_nat j).
  { unfold clampIndex, slen. lia. }
  rewrite Eb.
  replace (Nat.min (clampIndex l from) (Z.to_nat j)) with (clampIndex l from)
    by lia.
  replace (Nat.max (clampIndex l from) (Z.to_nat j)) with (Z.to_nat j) by lia.
  replace (Z.to_nat j - clampIndex l from)%nat
    with (Z.to_nat (j - Z.of_nat (clampIndex l from))) by lia.
  exact H3.
Qed.

(** What the brace search returns when it finds a brace: the first brace
    at or after the start of the symbol. *)
Lemma findBrace_found (lines : list str) (symbol : DocumentSymbol) (n : nat) :
  forall i r,
    findBrace lines symbol n i = Ok (Some r) ->
    exists j lj,
      i <= j < i + Z.of_nat n
      /\ lineAt lines j = Ok lj
      /\ indexOf lj brace
                 (if j =? line (start (sym_range symbol))
                  then character (start (sym_range symbol)) else 0) <> -1
      /\ r = mkRange (start (sym_range symbol))
                     (mkPosition j
                        (indexOf lj brace
                           (if j =? line (start (sym_range symbol))
                            then character (start (sym_range symbol)) else 0)))
      /\ forall k,
          i <= k < j ->
          exists lk,
            lineAt lines k = Ok lk
            /\ indexOf lk brace
                       (if k =? line (start (sym_range symbol))
                        then character (start (sym_range symbol)) else 0)
               = -1.
Proof.
  induction n as [|n IH]; intros i r; simpl; [discriminate|].
  destruct (lineAt lines i) as [l|e] eqn:El; [|discriminate]. simpl.
  set (from := if i =? line (start (sym_range symbol)) then _ else _).
  destruct (indexOf l brace from =? -1) eqn:Eb; simpl.
  - apply Z.eqb_eq in Eb. intros H.
    destruct (IH _ _ H) as (j & lj & Hj & Hlj & Hne & Hr & Hbefore).
    exists j, lj. split; [lia|]. split; [exact Hlj|].
    split; [exact Hne|]. split; [exact Hr|].
    intros k Hk. destruct (Z.eq_dec k i) as [->|Hki].
    + exists l. now split.
    + apply Hbefore. lia.
  - apply Z.eqb_neq in Eb. intros [= <-].
    exists i, l. split; [lia|]. split; [exact El|].
    split; [exact Eb|]. split; [reflexivity|].
    intros k Hk. lia.
Qed.

Lemma brace_not_newline : ~ In brace [nl].
Proof. intros [H|[]]. discriminate. Qed.

(** X3. For a symbol with a braced body, the declaration range is the
    selection range or runs from the start of the symbol to the first
    opening brace: the position it ends at holds a brace, and the text it
    covers holds none. *)
Theorem declaration_range_stops_at_brace :
  forall (fullContent : str) (symbol : DocumentSymbol) (r : Range),
    includesKind BLOCK_KINDS (sym_kind symbol) = true ->
    getDeclarationRange fullContent symbol = Ok r ->
    r = sym_selectionRange symbol
    \/ (start r = start (sym_range symbol)
        /\ line (end_ r) <= line (end_ (sym_range symbol))
        /\ (exists l,
               lineAt (splitLines fullContent) (line (end_ r)) = Ok l
               /\ 0 <= character (end_ r)
               /\ nth_error l (Z.to_nat (character (end_ r))) = Some brace)
        /\ exists text,
            extractContentForRange fullContent r = Ok text
            /\ ~ In brace text).
Proof.
  intros fullContent symbol r Hblock. unfold getDeclarationRange.
  rewrite Hblock.
  set (lines := splitLines fullContent).
  set (s0 := line (start (sym_range symbol))).
  set (e0 := line (end_ (sym_range symbol))).
  destruct (findBrace lines symbol (Z.to_nat (e0 - s0 + 1)) s0)
    as [[found|]|e] eqn:Efind; simpl; [| |discriminate].
  2:{ rewrite !orb_true_r. intros [= <-]. now left. }
  intros [= <-]. right.
  destruct (@findBrace_found _ _ _ _ _ Efind)
    as (j & lj & Hj & Hlj & Hne & -> & Hbefore).
  fold s0 in Hne, Hbefore |- *.
  set (b := indexOf lj brace
                    (if j =? s0 then character (start (sym_range symbol)) else 0))
    in *.
  destruct (@indexOf_found lj brace _ b eq_refl Hne) as (Hb0 & Hbrace & Hclean).
  fold b in Hb0, Hbrace, Hclean.
  simpl. split; [reflexivity|]. split; [lia|]. split.
  { exists lj. now repeat split. }
  assert (Hs0 : exists l0, lineAt lines s0 = Ok l0).
  { destruct (Z.eq_dec s0 j) as [->|Hsj]; [eauto|].
    destruct (Hbefore s0) as (l0 & Hl0 & _); [lia|eauto]. }
  destruct Hs0 as [l0 Hl0].
  apply lineAt_nth in Hl0. destruct Hl0 as [Hs0 Hl0].
  pose proof Hlj as Hlj'. apply lineAt_nth in Hlj'. destruct Hlj' as [_ Hlj'].
  assert (Hjlen : (Z.to_nat j < List.length lines)%nat).
  { apply nth_error_Some. congruence. }
  rewrite extractContentForRange_closed.
  2:{ unfold rangeInFile. simpl. fold s0 lines. lia. }
  eexists. split; [reflexivity|].
  apply join_not_In; [exact brace_not_newline|].
  apply Forall_forall. intros piece Hpiece.
  apply in_map_iff in Hpiece. destruct Hpiece as (k & <- & Hk).
  apply in_seq in Hk. simpl in Hk. fold s0 in Hk.
  fold lines. unfold selectedPart. simpl. fold s0.
  destruct (Z.eq_dec (Z.of_nat k) j) as [Ekj|Ekj].
  - assert (El : nth k lines [] = lj).
    { apply nth_error_nth. rewrite <- Hlj'. f_equal. lia. }
    rewrite El, Ekj, Z.eqb_refl, andb_true_r.
    destruct (j =? s0) eqn:Ejs; exact Hclean.
  - destruct (Hbefore (Z.of_nat k)) as (lk & Hlk & Hnone); [lia|].
    apply lineAt_nth in Hlk. destruct Hlk as [_ Hlk].
    rewrite Nat2Z.id in Hlk.
    rewrite (@nth_error_nth str lines k lk [] Hlk).
    apply indexOf_none in Hnone.
    destruct (Z.of_nat k =? j) eqn:E1; [apply Z.eqb_eq in E1; lia|].
    rewrite andb_false_r.
    destruct (Z.of_nat k =? s0) eqn:E2; [exact Hnone|].
    unfold substringFrom in Hnone. now rewrite clampIndex_0 in Hnone.
Qed.

Lemma declaration_range_stops_at_brace_witness :
  newRange 4 0 4 19 = sym_selectionRange addSymbol
  \/ (start (newRange 4 0 4 19) = start (sym_range addSymbol)
      /\ line (end_ (newRange 4 0 4 19)) <= line (end_ (sym_range addSymbol))
      /\ (exists l,
             lineAt (splitLines documentedFile)
                    (line (end_ (newRange 4 0 4 19))) = Ok l
             /\ 0 <= character (end_ (newRange 4 0 4 19))
             /\ nth_error l (Z.to_nat (character (end_ (newRange 4 0 4 19))))
                = Some brace)
      /\ exists text,
          extractContentForRange documentedFile (newRange 4 0 4 19) = Ok text
          /\ ~ In brace text).
Proof.
  apply (@declaration_range_stops_at_brace documentedFile addSymbol).
  - reflexivity.
  - vm_compute. reflexivity.
Defined.

End DeclarationRange.

(** ** Documentation ranges *)

Section DocumentationRange.

Local Open Scope Z_scope.

Variable lines : list str.

Lemma isEmptyStr_true (s : str) : isEmptyStr s = true <-> s = [].
Proof. destruct s; simpl; split; congruence. Qed.

Lemma isEmptyStr_false (s : str) : isEmptyStr s = false <-> s <> [].
Proof. destruct s; simpl; split; congruence. Qed.

Lemma skipBlankLinesUp_spec (n : nat) :
  forall currentLine c,
    n = Z.to_nat (currentLine + 1) ->
    skipBlankLinesUp lines n currentLine = Ok c ->
    c <= currentLine
    /\ (forall k, c < k <= currentLine ->
                  exists l, lineAt lines k = Ok l /\ trim l = [])
    /\ (0 <= c -> exists l, lineAt lines c = Ok l /\ trim l <> []).
Proof.
  induction n as [|n IH]; intros cur c Hn; simpl.
  - intros [= <-]. split; [lia|]. split; intros; lia.
  - destruct (lineAt lines cur) as [l|e] eqn:El; [|discriminate]. simpl.
    destruct (isEmptyStr (trim l)) eqn:Eb.
    + intros H. destruct (IH (cur - 1) c) as (H1 & H2 & H3); [lia|exact H|].
      split; [lia|]. split; [|exact H3].
      intros k Hk. destruct (Z.eq_dec k cur) as [->|Hne].
      * exists l. split; [exact El|now apply isEmptyStr_true].
      * apply H2. lia.
    + intros [= <-]. split; [lia|]. split; [intros; lia|].
      intros _. exists l. split; [exact El|now apply isEmptyStr_false].
Qed.

Lemma scanDocBlock_spec (endDocLine : Z) (n : nat) :
  forall i startDocLine s,
    n = Z.to_nat (i + 1) -> -1 <= i <= endDocLine ->
    (forall k, i < k <= endDocLine ->
               exists l, lineAt lines k = Ok l
                         /\ (trim l = [] \/ isCommentShaped (trim l) = true)) ->
    startDocLine = -1 \/ i < startDocLine <= endDocLine ->
    scanDocBlock lines n i startDocLine = Ok s ->
    (s = -1 \/ 0 <= s <= endDocLine + 1)
    /\ (s <> -1 ->
        forall k, s <= k <= endDocLine ->
                  exists l, lineAt lines k = Ok l
                            /\ (trim l = [] \/ isCommentShaped (trim l) = true)).
Proof.
  induction n as [|n IH]; intros i s0 s Hn Hi Hdone Hs0; simpl.
  - intros [= <-]. split; [lia|]. intros Hne k Hk. apply Hdone. lia.
  - destruct (lineAt lines i) as [l|e] eqn:El; [|discriminate]. simpl.
    destruct (isEmptyStr (trim l)) eqn:Eb.
    + destruct (s0 =? -1) eqn:E0; simpl.
      * intros [= <-]. apply Z.eqb_eq in E0. split; [now left|]. congruence.
      * apply Z.eqb_neq in E0. apply IH; [lia|lia| |lia].
        intros k Hk. destruct (Z.eq_dec k i) as [->|Hne].
        -- exists l. split; [exact El|]. left. now apply isEmptyStr_true.
        -- apply Hdone. lia.
    + destruct (isCommentShaped (trim l)) eqn:Ec.
      * assert (Hdone_i : forall k, i - 1 < k <= endDocLine ->
                   exists l, lineAt lines k = Ok l
                     /\ (trim l = [] \/ isCommentShaped (trim l) = true)).
        { intros k Hk. destruct (Z.eq_dec k i) as [->|Hne].
          - exists l. split; [exact El|now right].
          - apply Hdone. lia. }
        assert (Hstop : forall s, Ok i = Ok s ->
                   (s = -1 \/ 0 <= s <= endDocLine + 1)
                   /\ (s <> -1 -> forall k, s <= k <= endDocLine ->
                         exists l, lineAt lines k = Ok l
                           /\ (trim l = [] \/ isCommentShaped (trim l) = true))).
        { intros s' [= <-]. split; [lia|]. intros _ k Hk. apply Hdone_i. lia. }
        match goal with
        | |- bind ?m _ = _ -> _ => destruct m as [stop|e]; [|discriminate]
        end.
        simpl. destruct stop; [apply Hstop|].
        destruct (i =? 0); [apply Hstop|].
        apply IH; [lia|lia|exact Hdone_i|lia].
      * intros [= <-]. split; [lia|]. intros _ k Hk. apply Hdone. lia.
Qed.

Lemma skipBlankLinesDown_spec (n : nat) :
  forall finalStartLine f,
    skipBlankLinesDown lines n finalStartLine = Ok f ->
    finalStartLine <= f <= finalStartLine + Z.of_nat n
    /\ (f < finalStartLine + Z.of_nat n ->
        exists l, lineAt lines f = Ok l /\ trim l <> []).
Proof.
  induction n as [|n IH]; intros f0 f; simpl.
  - intros [= <-]. split; [lia|]. intros; lia.
  - destruct (lineAt lines f0) as [l|e] eqn:El; [|discriminate]. simpl.
    destruct (isEmptyStr (trim l)) eqn:Eb.
    + intros H. destruct (IH _ _ H) as [H1 H2]. split; [lia|].
      intros Hf. apply H2. lia.
    + intros [= <-]. split; [lia|]. intros _.
      exists l. split; [exact El|now apply isEmptyStr_false].
Qed.

End DocumentationRange.

Section DocumentationRangeShape.

Local Open Scope Z_scope.

(** X4. A documentation range lies strictly above its symbol and is separated
    from it by blank lines only; it starts at column 0 of a non-blank
    line, ends at the end of a non-blank line, and each of its lines is
    blank or shaped like a comment. *)
Theorem documentation_range_shape :
  forall (fullContent : str) (symbol : DocumentSymbol) (r : Range),
    getDocumentationRange fullContent symbol = Ok (Some r) ->
    let lines := splitLines fullContent in
    character (start r) = 0
    /\ 0 <= line (start r) <= line (end_ r)
    /\ line (end_ r) < line (start (sym_range symbol))
    /\ (exists l, lineAt lines (line (start r)) = Ok l /\ trim l <> [])
    /\ (exists l, lineAt lines (line (end_ r)) = Ok l /\ trim l <> []
                  /\ character (end_ r) = slen l)
    /\ (forall k, line (end_ r) < k < line (start (sym_range symbol)) ->
                  exists l, lineAt lines k = Ok l /\ trim l = [])
    /\ (forall k, line (start r) <= k <= line (end_ r) ->
                  exists l, lineAt lines k = Ok l
                            /\ (trim l = [] \/ isCommentShaped (trim l) = true)).
Proof.
  intros fullContent symbol r. unfold getDocumentationRange.
  set (lines := splitLines fullContent).
  set (s0 := line (start (sym_range symbol))).
  destruct (skipBlankLinesUp lines (Z.to_nat (s0 - 1 + 1)) (s0 - 1))
    as [c|e] eqn:Eup; [|discriminate]. simpl.
  destruct (@skipBlankLinesUp_spec lines _ _ _ eq_refl Eup)
    as (Hc & Hblank & Hlast).
  destruct (c <? 0) eqn:Ec; [discriminate|]. apply Z.ltb_ge in Ec.
  destruct (scanDocBlock lines (Z.to_nat (c + 1)) c (-1)) as [s|e] eqn:Escan;
    [|discriminate]. simpl.
  destruct (@scanDocBlock_spec lines c (Z.to_nat (c + 1)) c (-1) s)
    as [Hs Hshape];
    [reflexivity|lia|intros; lia|now left|exact Escan|].
  destruct ((s =? -1) || (s >? c)) eqn:Es; [discriminate|].
  apply orb_false_elim in Es. destruct Es as [Es1 Es2].
  apply Z.eqb_neq in Es1. rewrite Z.gtb_ltb in Es2. apply Z.ltb_ge in Es2.
  destruct (skipBlankLinesDown lines (Z.to_nat (c - s)) s) as [f|e] eqn:Edown;
    [|discriminate]. simpl.
  destruct (skipBlankLinesDown_spec _ _ _ Edown) as [Hf Hfirst].
  destruct (f >? c) eqn:Ef; [discriminate|].
  rewrite Z.gtb_ltb in Ef. apply Z.ltb_ge in Ef.
  destruct (lineAt lines c) as [lastLine|e] eqn:Elast; [|discriminate]. simpl.
  intros [= <-]. simpl.
  destruct (Hlast Ec) as (l & Hl & Hne).
  assert (l = lastLine) by congruence. subst l.
  split; [reflexivity|]. split; [lia|]. split; [lia|]. split.
  { destruct (Z.eq_dec f c) as [->|Hfc]; [eauto|]. apply Hfirst. lia. }
  split; [eauto|]. split.
  { intros k Hk. apply Hblank. lia. }
  intros k Hk. apply Hshape; [assumption|lia].
Qed.

Lemma documentation_range_shape_witness :
  let r := newRange 0 0 2 3 in
  let lines := splitLines documentedFile in
  character (start r) = 0
  /\ 0 <= line (start r) <= line (end_ r)
  /\ line (end_ r) < line (start (sym_range addSymbol))
  /\ (exists l, lineAt lines (line (start r)) = Ok l /\ trim l <> [])
  /\ (exists l, lineAt lines (line (end_ r)) = Ok l /\ trim l <> []
                /\ character (end_ r) = slen l)
  /\ (forall k, line (end_ r) < k < line (start (sym_range addSymbol)) ->
                exists l, lineAt lines k = Ok l /\ trim l = [])
  /\ (forall k, line (start r) <= k <= line (end_ r) ->
                exists l, lineAt lines k = Ok l
                          /\ (trim l = [] \/ isCommentShaped (trim l) = true)).
Proof.
  apply (@documentation_range_shape documentedFile addSymbol (newRange 0 0 2 3)).
  vm_compute. reflexivity.
Defined.

End DocumentationRangeShape.

(** ** Structure summaries *)

Section SymbolStructure.

Local Open Scope Z_scope.

(** X5. [formatSymbolStructure] answers [null] exactly for the symbols that
    are neither an interface nor a type parameter; for these two kinds the
    text it builds starts with the header line that names the kind and the
    symbol. *)
Theorem formatSymbolStructure_header :
  forall (symbol : DocumentSymbol) (fullContent : str) (result : option str),
    formatSymbolStructure symbol fullContent = Ok result ->
    match result with
    | None =>
        sym_kind symbol <> KInterface /\ sym_kind symbol <> KTypeParameter
    | Some text =>
        (sym_kind symbol = KInterface \/ sym_kind symbol = KTypeParameter)
        /\ exists rest,
            text = lit "// " ++ kindName (sym_kind symbol) ++ lit ": "
                   ++ sym_name symbol ++ [nl] ++ rest
    end.
Proof.
  intros symbol fullContent result. unfold formatSymbolStructure.
  unfold kind_eqb.
  destruct (kind_eq_dec (sym_kind symbol) KInterface) as [Ei|Ei];
    destruct (kind_eq_dec (sym_kind symbol) KTypeParameter) as [Et|Et];
    simpl negb; cbv iota; cbn [andb];
    try (intros [= <-]; now split).
  all: destruct (getDeclarationRange fullContent symbol) as [r|e];
    [|discriminate]; cbn [bind];
    destruct (extractContentForRange fullContent r) as [extracted|e];
    [|discriminate]; cbn [bind];
    match goal with
    | |- bind ?m _ = _ -> _ => destruct m as [childrenList|e]; [|discriminate]
    end;
    cbn [bind]; intros [= <-]; (split; [tauto|]);
    eexists; cbn [app join];
    rewrite <- !app_assoc; reflexivity.
Qed.

Lemma formatSymbolStructure_header_witness :
  (sym_kind pointSymbol = KInterface \/ sym_kind pointSymbol = KTypeParameter)
  /\ exists rest,
      join [nl] [lit "// Interface: Point"; lit "Point"; lit "{";
                 lit "  - x: number;"; lit "  - y: number;"; lit "}"]
      = lit "// " ++ kindName (sym_kind pointSymbol) ++ lit ": "
        ++ sym_name pointSymbol ++ [nl] ++ rest.
Proof.
  apply (@formatSymbolStructure_header
           pointSymbol pointFile
           (Some (join [nl] [lit "// Interface: Point"; lit "Point"; lit "{";
                             lit "  - x: number;"; lit "  - y: number;";
                             lit "}"]))).
  vm_compute. reflexivity.
Defined.

End SymbolStructure.

(** ** The width of line numbers *)

Section DecimalWidth.

Local Open Scope Z_scope.

Lemma slen_string_of_uint (d : Decimal.uint) :
  slen (lit (NilEmpty.string_of_uint d)) = Z.of_nat (Decimal.nb_digits d).
Proof.
  unfold slen, lit.
  induction d; simpl in *; lia.
Qed.

Lemma slen_numToString_pos (p : positive) :
  slen (numToString (Z.pos p)) = Z.of_nat (Decimal.nb_digits (Pos.to_uint p)).
Proof.
  unfold numToString. simpl Z.to_int.
  unfold NilZero.string_of_int, NilZero.string_of_uint.
  pose proof (DecimalPos.Unsigned.to_uint_nonnil p) as Hne.
  destruct (Pos.to_uint p) eqn:E; try contradiction;
    rewrite <- E at 1; rewrite slen_string_of_uint; now rewrite E.
Qed.

Lemma of_uint_acc_bounds (d : Decimal.uint) :
  forall acc : positive,
    Z.pos acc * 10 ^ Z.of_nat (Decimal.nb_digits d)
    <= Z.pos (Pos.of_uint_acc d acc)
    < (Z.pos acc + 1) * 10 ^ Z.of_nat (Decimal.nb_digits d).
Proof.
  induction d; intros acc;
    try (cbn [Pos.of_uint_acc Decimal.nb_digits];
         rewrite Nat2Z.inj_succ, Z.pow_succ_r by lia;
         match goal with
         | |- context [Pos.of_uint_acc d ?a] => specialize (IHd a)
         end;
         assert (0 < 10 ^ Z.of_nat (Decimal.nb_digits d))
           by (apply Z.pow_pos_nonneg; lia);
         nia).
  simpl. lia.
Qed.

Lemma of_uint_upper (d : Decimal.uint) :
  Z.of_N (Pos.of_uint d) < 10 ^ Z.of_nat (Decimal.nb_digits d).
Proof.
  induction d;
    try (cbn [Pos.of_uint Decimal.nb_digits];
         rewrite Nat2Z.inj_succ, Z.pow_succ_r by lia;
         match goal with
         | |- context [Pos.of_uint_acc d ?a] =>
             pose proof (of_uint_acc_bounds d a)
         end;
         assert (0 < 10 ^ Z.of_nat (Decimal.nb_digits d))
           by (apply Z.pow_pos_nonneg; lia);
         cbn [Z.of_N]; nia).
  - simpl. lia.
  - cbn [Pos.of_uint Decimal.nb_digits].
    rewrite Nat2Z.inj_succ, Z.pow_succ_r by lia.
    assert (0 < 10 ^ Z.of_nat (Decimal.nb_digits d))
      by (apply Z.pow_pos_nonneg; lia).
    lia.
Qed.

Lemma of_uint_lower (d : Decimal.uint) :
  Decimal.nzhead d = d -> d <> Decimal.Nil ->
  10 ^ (Z.of_nat (Decimal.nb_digits d) - 1) <= Z.of_N (Pos.of_uint d).
Proof.
  intros Hnz Hne.
  destruct d; try contradiction;
    try (cbn [Pos.of_uint Decimal.nb_digits];
         replace (Z.of_nat (S (Decimal.nb_digits d)) - 1)
           with (Z.of_nat (Decimal.nb_digits d)) by lia;
         match goal with
         | |- context [Pos.of_uint_acc d ?a] =>
             pose proof (of_uint_acc_bounds d a)
         end;
         assert (0 < 10 ^ Z.of_nat (Decimal.nb_digits d))
           by (apply Z.pow_pos_nonneg; lia);
         cbn [Z.of_N]; nia).
  exfalso. apply (DecimalFacts.nzhead_nonzero (Decimal.D0 d) d). exact Hnz.
Qed.

Lemma to_uint_nzhead (p : positive) :
  Decimal.nzhead (Pos.to_uint p) = Pos.to_uint p.
Proof.
  pose proof (DecimalPos.Unsigned.to_of (Pos.to_uint p)) as H.
  rewrite DecimalPos.Unsigned.of_to in H. simpl in H.
  destruct (Decimal.nzhead (Pos.to_uint p)) eqn:E;
    try (rewrite <- E; rewrite <- DecimalFacts.unorm_nzhead;
         [now symmetry|rewrite E; discriminate]).
  exfalso. apply (DecimalPos.Unsigned.to_uint_nonzero p).
  rewrite H. now apply DecimalFacts.unorm_0.
Qed.

(** The decimal representation of a positive number is at most as long
    as that of a larger one. *)
Lemma slen_numToString_mono (a b : Z) :
  0 < a <= b -> slen (numToString a) <= slen (numToString b).
Proof.
  intros Hab.
  destruct a as [|p|p]; try lia. destruct b as [|q|q]; try lia.
  rewrite !slen_numToString_pos.
  pose proof (of_uint_lower (to_uint_nzhead p)
                (DecimalPos.Unsigned.to_uint_nonnil p)) as Hlow.
  pose proof (of_uint_upper (Pos.to_uint q)) as Hup.
  rewrite DecimalPos.Unsigned.of_to in Hlow, Hup. simpl Z.of_N in Hlow, Hup.
  assert (Hpow : 10 ^ (Z.of_nat (Decimal.nb_digits (Pos.to_uint p)) - 1)
                 < 10 ^ Z.of_nat (Decimal.nb_digits (Pos.to_uint q))) by lia.
  destruct (Z.le_gt_cases (Z.of_nat (Decimal.nb_digits (Pos.to_uint p)))
                          (Z.of_nat (Decimal.nb_digits (Pos.to_uint q))))
    as [Hle|Hgt]; [exact Hle|].
  exfalso.
  assert (10 ^ Z.of_nat (Decimal.nb_digits (Pos.to_uint q))
          <= 10 ^ (Z.of_nat (Decimal.nb_digits (Pos.to_uint p)) - 1))
    by (apply Z.pow_le_mono_r; lia).
  lia.
Qed.

End DecimalWidth.

(** ** Code snippets *)

Section CodeSnippet.

Local Open Scope Z_scope.

Lemma string_of_uint_no_newline (d : Decimal.uint) :
  ~ In nl (lit (NilEmpty.string_of_uint d)).
Proof.
  induction d; simpl; [tauto|..]; intros [H|H];
    (discriminate || now apply IHd).
Qed.

Lemma numToString_no_newline (n : Z) : ~ In nl (numToString n).
Proof.
  assert (Huint : forall d, ~ In nl (lit (NilZero.string_of_uint d))).
  { intros d. unfold NilZero.string_of_uint.
    destruct d; try apply string_of_uint_no_newline.
    simpl. intros [H|[]]. discriminate. }
  unfold numToString, NilZero.string_of_int.
  destruct (Z.to_int n) as [d|d]; [apply Huint|].
  change (lit (String "-" (NilZero.string_of_uint d)))
    with (45%N :: lit (NilZero.string_of_uint d)).
  intros [H|H]; [discriminate|now apply (Huint d)].
Qed.

Lemma snippetLines_closed (lines : list str) (width : Z) (n : nat) :
  forall i,
    snippetLines lines width n i
    = map (fun k => padStart (numToString (i + Z.of_nat k + 1)) width
                    ++ lit ": " ++ lineText lines (i + Z.of_nat k))
          (seq 0 n).
Proof.
  induction n as [|n IH]; intros i; [reflexivity|].
  cbn [snippetLines]. rewrite IH. cbn [seq map].
  rewrite Z.add_0_r. f_equal.
  rewrite <- seq_shift, map_map. apply map_ext. intros k.
  now replace (i + 1 + Z.of_nat k) with (i + Z.of_nat (S k)) by lia.
Qed.

(** X6. For a line number that exists in the text, the snippet has one line
    per line of the window around it, never more than
    [linesBefore + linesAfter + 1]; each of them is the number of the
    source line, a colon and a blank, and the source line itself, and the
    numbers are padded with blanks on the left to the width of the last
    one, so that the colons line up. *)
Theorem getCodeSnippet_window :
  forall (fullContent : str) (lineNumber linesBefore linesAfter : Z),
    1 <= lineNumber <= Z.of_nat (List.length (splitLines fullContent)) ->
    0 <= linesBefore -> 0 <= linesAfter ->
    let lines := splitLines fullContent in
    let first := Z.max 0 (lineNumber - 1 - linesBefore) in
    let last :=
      Z.min (Z.of_nat (List.length lines) - 1) (lineNumber - 1 + linesAfter) in
    let shown :=
      splitLines (getCodeSnippet fullContent lineNumber linesBefore
                                 linesAfter) in
    let width := slen (numToString (last + 1)) in
    Z.of_nat (List.length shown) = last - first + 1
    /\ 1 <= Z.of_nat (List.length shown) <= linesBefore + linesAfter + 1
    /\ forall i,
        first <= i <= last ->
        exists l,
          nth_error lines (Z.to_nat i) = Some l
          /\ slen (numToString (i + 1)) <= width
          /\ nth_error shown (Z.to_nat (i - first))
             = Some (repeat 32%N (Z.to_nat (width - slen (numToString (i + 1))))
                     ++ numToString (i + 1) ++ lit ": " ++ l).
Proof.
  intros fullContent lineNumber linesBefore linesAfter Hline Hbefore Hafter
         lines first last shown width.
  subst shown. unfold getCodeSnippet. fold lines. fold first. fold last.
  rewrite snippetLines_closed. fold width.
  set (pieces := map _ (seq 0 (Z.to_nat (last - first + 1)))).
  assert (Hwindow : 0 <= first <= last /\ last < Z.of_nat (List.length lines)
                    /\ last - first <= linesBefore + linesAfter)
    by (unfold first, last, lines in *; lia).
  assert (Hlen : @List.length str pieces = Z.to_nat (last - first + 1)).
  { subst pieces. now rewrite length_map, length_seq. }
  assert (Htext : forall k, (k < Z.to_nat (last - first + 1))%nat ->
             exists l, nth_error lines (Z.to_nat (first + Z.of_nat k)) = Some l
                       /\ lineText lines (first + Z.of_nat k) = l).
  { intros k Hk. unfold lineText.
    destruct (first + Z.of_nat k <? 0) eqn:E; [apply Z.ltb_lt in E; lia|].
    destruct (nth_error lines (Z.to_nat (first + Z.of_nat k))) as [l|] eqn:El;
      [eauto|].
    apply nth_error_None in El. lia. }
  assert (Hsplit : splitLines (join [nl] pieces) = pieces).
  { apply splitLines_join.
    - intros E. rewrite E in Hlen. simpl in Hlen. lia.
    - subst pieces. apply Forall_forall. intros p Hp.
      apply in_map_iff in Hp. destruct Hp as (k & <- & Hk).
      apply in_seq in Hk. destruct (Htext k) as (l & Hl & ->); [lia|].
      unfold padStart. intros Hin.
      repeat (apply in_app_or in Hin; destruct Hin as [Hin|Hin]).
      + apply repeat_spec in Hin. discriminate.
      + now apply numToString_no_newline in Hin.
      + simpl in Hin. destruct Hin as [Hin|[Hin|[]]]; discriminate.
      + pose proof (splitLines_no_newline fullContent) as Hall.
        rewrite Forall_forall in Hall. apply (Hall l); [|exact Hin].
        eapply nth_error_In. exact Hl. }
  rewrite Hsplit, Hlen. split; [lia|]. split; [lia|].
  intros i Hi.
  destruct (Htext (Z.to_nat (i - first))) as (l & Hl & Htxt); [lia|].
  replace (first + Z.of_nat (Z.to_nat (i - first))) with i in Hl, Htxt by lia.
  exists l. split; [exact Hl|].
  split; [apply slen_numToString_mono; lia|].
  subst pieces. rewrite nth_error_map, nth_error_seq.
  destruct (Z.to_nat (i - first) <? Z.to_nat (last - first + 1))%nat eqn:E;
    [|apply Nat.ltb_ge in E; lia].
  cbn [option_map]. rewrite Nat.add_0_l.
  replace (first + Z.of_nat (Z.to_nat (i - first))) with i by lia.
  rewrite Htxt. unfold padStart. now rewrite <- app_assoc.
Qed.

Lemma getCodeSnippet_window_witness :
  let lines := splitLines sampleFile in
  let first := Z.max 0 (5 - 1 - 2) in
  let last := Z.min (Z.of_nat (List.length lines) - 1) (5 - 1 + 2) in
  let shown := splitLines (getCodeSnippet sampleFile 5 2 2) in
  let width := slen (numToString (last + 1)) in
  Z.of_nat (List.length shown) = last - first + 1
  /\ 1 <= Z.of_nat (List.length shown) <= 2 + 2 + 1
  /\ forall i,
      first <= i <= last ->
      exists l,
        nth_error lines (Z.to_nat i) = Some l
        /\ slen (numToString (i + 1)) <= width
        /\ nth_error shown (Z.to_nat (i - first))
           = Some (repeat 32%N (Z.to_nat (width - slen (numToString (i + 1))))
                   ++ numToString (i + 1) ++ lit ": " ++ l).
Proof.
  apply (@getCodeSnippet_window sampleFile 5 2 2).
  - vm_compute. intuition discriminate.
  - lia.
  - lia.
Defined.

End CodeSnippet.

(** ** File structure and the text heuristics *)

Section FileStructure.

Local Open Scope Z_scope.

Lemma classifyLine_entries (structure : FileStructureAnalysis) (i : Z)
      (rawLine : str) :
  allEntries (classifyLine structure i rawLine) = allEntries structure
  \/ Permutation (allEntries (classifyLine structure i rawLine))
                 (mkEntry (i + 1) (trim rawLine) :: allEntries structure).
Proof.
  unfold classifyLine, allEntries.
  repeat match goal with
         | |- context [if ?c then _ else _] => destruct c
         end;
    cbn [imports exports functions classes variables comments];
    try (now left); right;
    repeat rewrite app_assoc;
    repeat match goal with
           | |- Permutation (?l ++ ?t) (?x :: ?l' ++ ?t) =>
               apply (@Permutation_app_tail _ l (x :: l') t)
           end;
    apply Permutation_sym, Permutation_cons_append.
Qed.

Lemma analyzeLines_entries (ls : list str) :
  forall (earlier : list str) (structure : FileStructureAnalysis),
    (forall e, In e (allEntries structure) ->
               1 <= entry_line e <= Z.of_nat (List.length earlier)
               /\ exists l,
                   nth_error (earlier ++ ls) (Z.to_nat (entry_line e - 1))
                   = Some l
                   /\ entry_content e = trim l) ->
    NoDup (map entry_line (allEntries structure)) ->
    let result :=
      analyzeLines ls (Z.of_nat (List.length earlier)) structure in
    (forall e, In e (allEntries result) ->
               1 <= entry_line e <= Z.of_nat (List.length (earlier ++ ls))
               /\ exists l,
                   nth_error (earlier ++ ls) (Z.to_nat (entry_line e - 1))
                   = Some l
                   /\ entry_content e = trim l)
    /\ NoDup (map entry_line (allEntries result)).
Proof.
  induction ls as [|l ls IH]; intros earlier structure Hin Hnd; simpl.
  - rewrite app_nil_r in *. split; [|exact Hnd].
    intros e He. apply Hin in He. exact He.
  - replace (Z.of_nat (List.length earlier) + 1)
      with (Z.of_nat (List.length (earlier ++ [l])))
      by (rewrite length_app; simpl; lia).
    replace (earlier ++ l :: ls) with ((earlier ++ [l]) ++ ls)
      by (rewrite <- app_assoc; reflexivity).
    apply IH.
    + intros e He.
      assert (Hold : In e (allEntries structure) ->
                1 <= entry_line e <= Z.of_nat (List.length (earlier ++ [l]))
                /\ exists l0,
                    nth_error ((earlier ++ [l]) ++ ls)
                              (Z.to_nat (entry_line e - 1)) = Some l0
                    /\ entry_content e = trim l0).
      { intros He'. destruct (Hin e He') as [Hr Hl].
        rewrite length_app. simpl. split; [lia|].
        rewrite <- app_assoc. exact Hl. }
      destruct (classifyLine_entries structure
                  (Z.of_nat (List.length earlier)) l) as [E|P].
      * rewrite E in He. now apply Hold.
      * apply (Permutation_in _ P) in He. destruct He as [<-|He];
          [|now apply Hold].
        simpl. rewrite length_app. simpl. split; [lia|].
        exists l. split; [|reflexivity].
        replace (Z.to_nat (Z.of_nat (List.length earlier) + 1 - 1))
          with (List.length earlier) by lia.
        rewrite <- app_assoc. simpl.
        now rewrite nth_error_app2, Nat.sub_diag by lia.
    + destruct (classifyLine_entries structure
                  (Z.of_nat (List.length earlier)) l) as [E|P].
      * now rewrite E.
      * apply (Permutation_NoDup
                 (Permutation_sym (Permutation_map entry_line P))).
        simpl. constructor; [|exact Hnd].
        intros Hdup. apply in_map_iff in Hdup.
        destruct Hdup as (e & He1 & He2).
        apply Hin in He2. lia.
Qed.

(** X7. Every entry of the analysis points at a line of the text and holds
    that line trimmed, and no line is entered twice, whether in one list
    or in two. *)
Theorem analyzeFileStructure_entries :
  forall filePath content : str,
    let structure := analyzeFileStructure filePath content in
    (forall e, In e (allEntries structure) ->
               1 <= entry_line e
                 <= Z.of_nat (List.length (splitLines content))
               /\ exists l,
                   nth_error (splitLines content)
                             (Z.to_nat (entry_line e - 1)) = Some l
                   /\ entry_content e = trim l)
    /\ NoDup (map entry_line (allEntries structure)).
Proof.
  intros filePath content. unfold analyzeFileStructure.
  apply (analyzeLines_entries (splitLines content) []
           (mkStructure [] [] [] [] [] [])).
  - intros e [].
  - constructor.
Qed.

End FileStructure.

Section Heuristics.

Local Open Scope Z_scope.

Lemma startsWith_app (s p q : str) :
  startsWith s (p ++ q) = true -> startsWith s p = true.
Proof.
  revert s. induction p as [|c p IH]; intros s; [now destruct s|].
  destruct s as [|d s]; simpl; [discriminate|].
  intros H. apply andb_prop in H. destruct H as [H1 H2].
  rewrite H1. simpl. now apply IH.
Qed.

Lemma includes_app (s p q : str) :
  includes s (p ++ q) = true -> includes s p = true.
Proof.
  induction s as [|d s IH]; cbn [includes]; intros H.
  - rewrite orb_false_r in *. now apply startsWith_app with (q := q).
  - apply orb_prop in H. destruct H as [H|H].
    + now rewrite (startsWith_app _ _ _ H).
    + rewrite (IH H). apply orb_true_r.
Qed.

Variable hostToLowerCase : str -> str.
Variable basename : str -> str.

(** X8. The file path never changes the verdict: whatever the path, a rewrite
    is detected exactly when the lower-cased prompt contains one of the
    rewrite keywords. *)
Theorem isRewriteIntentDetected_ignores_path :
  forall (prompt : str) (filePath : option str),
    isRewriteIntentDetected hostToLowerCase basename prompt filePath
    = existsb (fun keyword => includes (hostToLowerCase prompt) keyword)
              rewriteKeywords.
Proof.
  intros prompt filePath. unfold isRewriteIntentDetected.
  set (lowerPrompt := hostToLowerCase prompt).
  destruct (existsb (fun keyword => includes lowerPrompt keyword)
                    rewriteKeywords) eqn:E; [reflexivity|].
  destruct filePath as [filePath|]; [|reflexivity].
  destruct (isEmptyStr filePath); [reflexivity|].
  set (fileBaseName := hostToLowerCase (basename filePath)).
  assert (Hprefix : forall keyword rest,
             In keyword rewriteKeywords ->
             includes lowerPrompt (keyword ++ rest) = false).
  { intros keyword rest Hin. apply not_true_is_false. intros Ei.
    apply includes_app in Ei.
    assert (Hex : existsb (fun keyword => includes lowerPrompt keyword)
                          rewriteKeywords = true)
      by (apply existsb_exists; eauto).
    congruence. }
  assert (H1 : includes lowerPrompt
                 (lit "completely change file " ++ fileBaseName) = false).
  { apply (Hprefix (lit "completely change") (lit " file " ++ fileBaseName)).
    simpl. tauto. }
  assert (H2 : includes lowerPrompt (lit "completely change this file") = false).
  { apply (Hprefix (lit "completely change") (lit " this file")).
    simpl. tauto. }
  assert (H3 : includes lowerPrompt (lit "rewrite file " ++ fileBaseName)
               = false).
  { apply (Hprefix (lit "rewrite") (lit " file " ++ fileBaseName)).
    simpl. tauto. }
  assert (H4 : includes lowerPrompt (lit "rewrite this file") = false).
  { apply (Hprefix (lit "rewrite") (lit " this file")). simpl. tauto. }
  now rewrite H1, H2, H3, H4.
Qed.

Lemma startsWithIgnoringCase_same (word text rest : str) :
  map canonicalize text = map canonicalize word ->
  startsWithIgnoringCase (text ++ rest) word = true.
Proof.
  revert text. induction word as [|c word IH]; intros text;
    [now destruct (text ++ rest)|].
  destruct text as [|d text]; [discriminate|].
  simpl. intros [= Hd Ht]. rewrite Hd, N.eqb_refl. simpl. now apply IH.
Qed.

Lemma includesIgnoringCase_occurrence (word before text after : str) :
  map canonicalize text = map canonicalize word ->
  includesIgnoringCase (before ++ text ++ after) word = true.
Proof.
  intros H. induction before as [|d before IH].
  - change ([] ++ text ++ after) with (text ++ after).
    destruct (text ++ after) eqn:E; cbn [includesIgnoringCase];
      rewrite <- E; now rewrite startsWithIgnoringCase_same.
  - change ((d :: before) ++ text ++ after)
      with (d :: before ++ text ++ after).
    cbn [includesIgnoringCase]. rewrite IH. apply orb_true_r.
Qed.

(** X9. A text that contains one of the words of the final pattern, in any
    letter case, is taken for an error message, however long it is. *)
Theorem isAIOutputLikelyErrorMessage_on_error_words :
  forall word before text after : str,
    In word (map lit ["error"; "fail"; "exception"; "apology"; "i am sorry"]
                 %string) ->
    map canonicalize text = map canonicalize word ->
    isAIOutputLikelyErrorMessage hostToLowerCase (before ++ text ++ after)
    = true.
Proof.
  intros word before text after Hword Htext.
  unfold isAIOutputLikelyErrorMessage.
  destruct (existsb _ (errorPhrases ++ systemErrorPhrases)); [reflexivity|].
  destruct (_ && _); [reflexivity|].
  unfold markdownErrorPattern. apply existsb_exists.
  exists word. split; [exact Hword|].
  now apply includesIgnoringCase_occurrence.
Qed.

End Heuristics.

Section HeuristicsWitness.

Lemma isAIOutputLikelyErrorMessage_on_error_words_witness :
  isAIOutputLikelyErrorMessage
    (fun s => s)
    (lit "} catch (" ++ lit "Error" ++ lit " e) { retry(); }")
  = true.
Proof.
  apply (@isAIOutputLikelyErrorMessage_on_error_words
           (fun s => s) (lit "error")).
  - simpl. tauto.
  - reflexivity.
Defined.

End HeuristicsWitness.

(** ** Tokens *)

Section Tokens.

Lemma wordRuns_concat (s : str) :
  forall current, List.concat (wordRuns s current) = current ++ filter isWordChar s.
Proof.
  induction s as [|c s IH]; intros current; simpl.
  - destruct current; simpl; now rewrite ?app_nil_r.
  - destruct (isWordChar c).
    + rewrite IH, <- app_assoc. reflexivity.
    + rewrite concat_app, IH. simpl.
      destruct current; simpl; now rewrite ?app_nil_r.
Qed.

Lemma wordRuns_runs (s : str) :
  forall current,
    Forall (fun c => isWordChar c = true) current ->
    Forall (fun run => run <> []
                       /\ Forall (fun c => isWordChar c = true) run)
           (wordRuns s current).
Proof.
  induction s as [|c s IH]; intros current Hcur; simpl.
  - destruct current; simpl; constructor; [|constructor].
    split; [discriminate|exact Hcur].
  - destruct (isWordChar c) eqn:E.
    + apply IH. apply Forall_app. split; [exact Hcur|].
      constructor; [exact E|constructor].
    + apply Forall_app. split; [|apply IH; constructor].
      destruct current; simpl; constructor; [|constructor].
      split; [discriminate|exact Hcur].
Qed.

(** X10. The tokens of a summary are non-empty words of digits, underscores
    and lower-case letters, and put together they are the word characters
    of the summary, lower-cased: tokenising drops the separators and
    nothing else. *)
Theorem tokens_are_lowercase_words :
  forall summary : str,
    List.concat (tokensOf summary) = toLowerCase (filter isWordChar summary)
    /\ Forall (fun token =>
                 token <> [] /\ Forall (fun c => isTokenChar c = true) token)
              (tokensOf summary).
Proof.
  intros summary. unfold tokensOf. split.
  - pose proof (wordRuns_concat summary []) as E. simpl in E.
    rewrite <- E. unfold toLowerCase at 2. now rewrite concat_map.
  - apply Forall_map.
    eapply Forall_impl; [|apply (@wordRuns_runs summary []); constructor].
    intros run [Hne Hrun]. split.
    + destruct run; [contradiction|discriminate].
    + unfold toLowerCase. apply Forall_map.
      eapply Forall_impl; [|exact Hrun].
      intros c Hc. unfold isTokenChar, isWordChar in *.
      destruct ((65 <=? c) && (c <=? 90))%N eqn:Eupper.
      * apply andb_prop in Eupper. destruct Eupper as [H1 H2].
        apply N.leb_le in H1. apply N.leb_le in H2.
        apply andb_true_intro. split.
        -- apply orb_true_intro. right. apply andb_true_intro.
           split; apply N.leb_le; lia.
        -- apply negb_true_iff, andb_false_iff. right. apply N.leb_gt. lia.
      * rewrite Eupper. now rewrite Hc.
Qed.

End Tokens.

(** ** Term statistics and the links of the graph *)

Section TermStatistics.

Lemma count_occ_filter (keep : str -> bool) (l : list str) (t : str) :
  count_occ str_eq_dec (filter keep l) t
  = if keep t then count_occ str_eq_dec l t else O.
Proof.
  induction l as [|x l IH]; simpl; [now destruct (keep t)|].
  destruct (keep x) eqn:Ex; simpl.
  - destruct (str_eq_dec x t) as [->|Hne]; rewrite IH.
    + now rewrite Ex.
    + reflexivity.
  - rewrite IH. destruct (str_eq_dec x t) as [->|Hne]; [|reflexivity].
    now rewrite Ex.
Qed.

Lemma countOr0_counting (keep : str -> bool) (tokens : list str) (t : str) :
  forall m : JsMap nat,
    countOr0
      (fold_left (fun termFrequencies token =>
                    if keep token then increment termFrequencies token
                    else termFrequencies)
                 tokens m) t
    = (countOr0 m t + count_occ str_eq_dec (filter keep tokens) t)%nat.
Proof.
  induction tokens as [|x tokens IH]; intros m; simpl; [lia|].
  destruct (keep x); simpl; rewrite IH.
  - rewrite countOr0_increment. destruct (str_eq_dec x t); lia.
  - reflexivity.
Qed.

Lemma map_get_countOr0 (m : JsMap nat) (t : str) :
  (forall k n, In (k, n) m -> (1 <= n)%nat) ->
  map_get m t = if (countOr0 m t =? 0)%nat then None else Some (countOr0 m t).
Proof.
  intros Hpos. unfold countOr0.
  destruct (map_get m t) as [n|] eqn:E; [|reflexivity].
  apply map_get_In, Hpos in E.
  destruct (n =? 0)%nat eqn:En; [apply Nat.eqb_eq in En; lia|reflexivity].
Qed.

(** X11. The term-frequency map of a summary holds, for every token that is not
    a stop word and has more than one character, the number of times it
    occurs among the summary's lower-cased tokens, and holds nothing
    else. *)
Theorem term_frequencies_count_occurrences :
  forall summary t : str,
    map_get (termFrequenciesOf summary) t
    = if negb (isStopWord t) && (1 <? List.length t)%nat
      then
        let occurrences := count_occ str_eq_dec (tokensOf summary) t in
        if (occurrences =? 0)%nat then None else Some occurrences
      else None.
Proof.
  intros summary t.
  rewrite map_get_countOr0 by apply termFrequenciesOf_wf.
  unfold termFrequenciesOf.
  rewrite (countOr0_counting
             (fun token => negb (isStopWord token) && (1 <? List.length token)%nat)).
  rewrite count_occ_filter. simpl.
  now destruct (negb (isStopWord t) && (1 <? List.length t)%nat).
Qed.

Lemma increments_positive (ks : list str) :
  forall m : JsMap nat,
    (forall k n, In (k, n) m -> (1 <= n)%nat) ->
    forall k n, In (k, n) (fold_left increment ks m) -> (1 <= n)%nat.
Proof.
  induction ks as [|x ks IH]; intros m Hm; simpl; [exact Hm|].
  apply IH. now apply increment_positive.
Qed.

Lemma countTerms_df_positive (fileSummaries : JsMap str)
      (filePaths : list str) :
  forall k n,
    In (k, n) (snd (countTerms fileSummaries filePaths)) -> (1 <= n)%nat.
Proof.
  induction filePaths as [|p filePaths IH] using rev_ind.
  - intros k n [].
  - rewrite countTerms_snoc. simpl. now apply increments_positive.
Qed.

(** X12. After step 1 the document-frequency map holds, for every term, the
    number of documents whose summary contains it, and has no entry for a
    term that occurs in no document. *)
Theorem document_frequencies_count_documents :
  forall (fileSummaries : JsMap str) (t : str),
    let filePaths := map_keys fileSummaries in
    let df := documentFrequency fileSummaries filePaths t in
    map_get (snd (countTerms fileSummaries filePaths)) t
    = if (df =? 0)%nat then None else Some df.
Proof.
  intros fileSummaries t filePaths df.
  rewrite map_get_countOr0 by apply countTerms_df_positive.
  now rewrite countTerms_df.
Qed.

End TermStatistics.

Section GraphLinks.

Context {A : Arith}.

Variable tfidfVectors : JsMap (JsMap num).

Lemma linksOf_pushLink_mono (g : SemanticGraph A) (p q : str)
      (l l' : SemanticLink A) :
  In l (linksOf g q) -> In l (linksOf (pushLink g p l') q).
Proof.
  intros H. rewrite linksOf_pushLink.
  destruct (str_eq_dec p q) as [->|_]; [|exact H].
  apply in_or_app. now left.
Qed.

Lemma linksOf_pushLink_new (g : SemanticGraph A) (p : str)
      (l : SemanticLink A) :
  In l (linksOf (pushLink g p l) p).
Proof.
  rewrite linksOf_pushLink.
  destruct (str_eq_dec p p); [|contradiction].
  apply in_or_app. right. now left.
Qed.

Lemma linkPair_mono (pathA pathB q : str) (g : SemanticGraph A)
      (l : SemanticLink A) :
  In l (linksOf g q) -> In l (linksOf (linkPair tfidfVectors pathA g pathB) q).
Proof.
  intros H. unfold linkPair.
  destruct (map_get tfidfVectors pathA); [|exact H].
  destruct (map_get tfidfVectors pathB); [|exact H].
  destruct (num_gt _ _); [|exact H].
  now apply linksOf_pushLink_mono, linksOf_pushLink_mono.
Qed.

Lemma fold_linkPair_mono (pathA q : str) (l : SemanticLink A)
      (rest : list str) :
  forall g,
    In l (linksOf g q) ->
    In l (linksOf (fold_left (linkPair tfidfVectors pathA) rest g) q).
Proof.
  induction rest as [|b rest IH]; intros g H; simpl; [exact H|].
  now apply IH, linkPair_mono.
Qed.

Lemma linkAll_mono (q : str) (l : SemanticLink A) (filePaths : list str) :
  forall g,
    In l (linksOf g q) -> In l (linksOf (linkAll tfidfVectors filePaths g) q).
Proof.
  induction filePaths as [|a rest IH]; intros g H; simpl; [exact H|].
  now apply IH, fold_linkPair_mono.
Qed.

Lemma linkPair_adds (pathA pathB : str) (vectorA vectorB : JsMap num)
      (g : SemanticGraph A) :
  map_get tfidfVectors pathA = Some vectorA ->
  map_get tfidfVectors pathB = Some vectorB ->
  num_gt (calculateCosineSimilarity vectorA vectorB) num_threshold = true ->
  let g' := linkPair tfidfVectors pathA g pathB in
  In (mkLink pathB (calculateCosineSimilarity vectorA vectorB))
     (linksOf g' pathA)
  /\ In (mkLink pathA (calculateCosineSimilarity vectorA vectorB))
        (linksOf g' pathB).
Proof.
  intros Ha Hb Hgt. unfold linkPair. rewrite Ha, Hb, Hgt. simpl. split.
  - apply linksOf_pushLink_mono, linksOf_pushLink_new.
  - apply linksOf_pushLink_new.
Qed.

Lemma fold_linkPair_adds (pathA pathB : str) (vectorA vectorB : JsMap num)
      (rest : list str) :
  map_get tfidfVectors pathA = Some vectorA ->
  map_get tfidfVectors pathB = Some vectorB ->
  num_gt (calculateCosineSimilarity vectorA vectorB) num_threshold = true ->
  In pathB rest ->
  forall g,
    let g' := fold_left (linkPair tfidfVectors pathA) rest g in
    In (mkLink pathB (calculateCosineSimilarity vectorA vectorB))
       (linksOf g' pathA)
    /\ In (mkLink pathA (calculateCosineSimilarity vectorA vectorB))
          (linksOf g' pathB).
Proof.
  intros Ha Hb Hgt.
  induction rest as [|b rest IH]; intros Hin g; [destruct Hin|].
  simpl. destruct Hin as [->|Hin].
  - destruct (linkPair_adds pathA pathB g Ha Hb Hgt) as [H1 H2].
    split; now apply fold_linkPair_mono.
  - now apply IH.
Qed.

Lemma linkAll_adds (pathA pathB : str) (vectorA vectorB : JsMap num)
      (earlier rest : list str) :
  map_get tfidfVectors pathA = Some vectorA ->
  map_get tfidfVectors pathB = Some vectorB ->
  num_gt (calculateCosineSimilarity vectorA vectorB) num_threshold = true ->
  In pathB rest ->
  forall g,
    let g' := linkAll tfidfVectors (earlier ++ pathA :: rest) g in
    In (mkLink pathB (calculateCosineSimilarity vectorA vectorB))
       (linksOf g' pathA)
    /\ In (mkLink pathA (calculateCosineSimilarity vectorA vectorB))
          (linksOf g' pathB).
Proof.
  intros Ha Hb Hgt Hin.
  induction earlier as [|e earlier IH]; intros g; simpl.
  - destruct (fold_linkPair_adds pathA pathB rest Ha Hb Hgt Hin g) as [H1 H2].
    split; now apply linkAll_mono.
  - apply IH.
Qed.

Lemma pushLink_entries (g : SemanticGraph A) (p q : str)
      (l : SemanticLink A) (links : list (SemanticLink A)) :
  In (q, links) (pushLink g p l) ->
  (q = p /\ links = linksOf g p ++ [l]) \/ In (q, links) g.
Proof.
  unfold pushLink, linksOf.
  destruct (map_get g p) as [old|]; intros H; apply map_set_entries in H;
    tauto.
Qed.

Lemma linkAll_link_similarity (filePaths : list str) :
  forall p links l,
    In (p, links) (linkAll tfidfVectors filePaths []) ->
    In l links ->
    exists vectorP vectorL,
      map_get tfidfVectors p = Some vectorP
      /\ map_get tfidfVectors (relatedPath l) = Some vectorL
      /\ (score l = calculateCosineSimilarity vectorP vectorL
          \/ score l = calculateCosineSimilarity vectorL vectorP)
      /\ num_gt (score l) num_threshold = true.
Proof.
  intros p links l Hin Hl.
  apply (@linkAll_entries A tfidfVectors
           (fun _ _ => True) (fun _ => True)
           (fun q l =>
              exists vectorP vectorL,
                map_get tfidfVectors q = Some vectorP
                /\ map_get tfidfVectors (relatedPath l) = Some vectorL
                /\ (score l = calculateCosineSimilarity vectorP vectorL
                    \/ score l = calculateCosineSimilarity vectorL vectorP)
                /\ num_gt (score l) num_threshold = true)) in Hin.
  - now apply Hin.
  - intros a b va vb _ Ha Hb Hgt. simpl.
    split; [exact I|]. split; [exact I|]. split.
    + exists va, vb. tauto.
    + exists vb, va. tauto.
  - apply ForallOrdPairs_trivial.
Qed.

Lemma linkAll_nonempty (filePaths : list str) :
  forall p links,
    In (p, links) (linkAll tfidfVectors filePaths []) -> links <> [].
Proof.
  apply (@linkAll_invariant A tfidfVectors (fun _ _ => True)
           (fun g => forall p links, In (p, links) g -> links <> [])).
  - intros g a b va vb Hg _ _ _ _ p links Hin.
    apply pushLink_entries in Hin. destruct Hin as [[_ ->]|Hin].
    + intros E. now apply app_eq_nil in E.
    + apply pushLink_entries in Hin. destruct Hin as [[_ ->]|Hin].
      * intros E. now apply app_eq_nil in E.
      * now apply (Hg p).
  - apply ForallOrdPairs_trivial.
  - intros p links [].
Qed.

End GraphLinks.

Section GraphProperties.

Context {A : Arith}.

Lemma linksOf_sorted (g : SemanticGraph A) (p : str) (l : SemanticLink A) :
  In l (linksOf (map (fun '(p, links) => (p, sortBy linkAfter links)) g) p)
  <-> In l (linksOf g p).
Proof.
  unfold linksOf. rewrite sorted_get.
  destruct (map_get g p) as [links|]; simpl; [apply sortBy_In|tauto].
Qed.

(** X13. Two documents whose similarity exceeds the threshold are linked in
    both directions, each link carrying the similarity computed for the
    pair (the first of the two being the one that comes first in the
    corpus). *)
Theorem similar_documents_are_linked :
  forall (fileSummaries : JsMap str) (earlier later : list str)
         (pathA pathB : str) (similarity : num),
    map_keys fileSummaries = earlier ++ pathA :: later ->
    In pathB later ->
    pairSimilarity fileSummaries pathA pathB = Some similarity ->
    num_gt similarity num_threshold = true ->
    In (mkLink pathB similarity)
       (linksOf (buildSemanticGraph fileSummaries) pathA)
    /\ In (mkLink pathA similarity)
          (linksOf (buildSemanticGraph fileSummaries) pathB).
Proof.
  intros fileSummaries earlier later pathA pathB s Hkeys Hin Hsim Hgt.
  unfold buildSemanticGraph.
  destruct (List.length (map_keys fileSummaries) <? 2)%nat eqn:Elen.
  - apply Nat.ltb_lt in Elen. rewrite Hkeys, length_app in Elen.
    destruct later; [destruct Hin|]. simpl in Elen. lia.
  - unfold pairSimilarity in Hsim.
    destruct (map_get (corpusVectors fileSummaries) pathA) as [va|] eqn:Ea;
      [|discriminate].
    destruct (map_get (corpusVectors fileSummaries) pathB) as [vb|] eqn:Eb;
      [|discriminate].
    injection Hsim as <-.
    rewrite !linksOf_sorted, Hkeys.
    now apply linkAll_adds.
Qed.

(** X14. Every link stored in the graph carries the similarity computed for
    its two documents, and that similarity exceeds the threshold. *)
Theorem links_carry_pair_similarity :
  forall (fileSummaries : JsMap str) (p : str)
         (links : list (SemanticLink A)) (l : SemanticLink A),
    In (p, links) (buildSemanticGraph fileSummaries) ->
    In l links ->
    (pairSimilarity fileSummaries p (relatedPath l) = Some (score l)
     \/ pairSimilarity fileSummaries (relatedPath l) p = Some (score l))
    /\ num_gt (score l) num_threshold = true.
Proof.
  intros fileSummaries p links l.
  unfold buildSemanticGraph.
  destruct (List.length (map_keys fileSummaries) <? 2)%nat; [intros []|].
  intros Hin Hl. apply sorted_entries in Hin.
  destruct Hin as [links0 [Hin ->]]. apply sortBy_In in Hl.
  destruct (@linkAll_link_similarity _ _ _ _ _ _ Hin Hl)
    as (vp & vl & Hp & Hr & Hs & Hgt).
  split; [|exact Hgt].
  unfold pairSimilarity. rewrite Hp, Hr.
  destruct Hs as [->| ->]; [now left|now right].
Qed.

Lemma graph_entries_nonempty_helper (fileSummaries : JsMap str) (p : str)
      (links : list (SemanticLink A)) :
  In (p, links) (buildSemanticGraph fileSummaries) -> exists l, In l links.
Proof.
  unfold buildSemanticGraph.
  destruct (List.length (map_keys fileSummaries) <? 2)%nat; [intros []|].
  intros Hin. apply sorted_entries in Hin.
  destruct Hin as [links0 [Hin ->]].
  apply linkAll_nonempty in Hin.
  destruct links0 as [|l links0]; [contradiction|].
  exists l. apply sortBy_In. now left.
Qed.

(** X15. The graph has one entry per path, and only for paths that have at
    least one link. *)
Theorem graph_entries_are_nonempty :
  forall fileSummaries : JsMap str,
    NoDup (map_keys (buildSemanticGraph fileSummaries))
    /\ forall (p : str) (links : list (SemanticLink A)),
        In (p, links) (buildSemanticGraph fileSummaries) -> links <> [].
Proof.
  intros fileSummaries. split; [apply buildSemanticGraph_keys_NoDup|].
  intros p links. unfold buildSemanticGraph.
  destruct (List.length (map_keys fileSummaries) <? 2)%nat; [intros []|].
  intros Hin. apply sorted_entries in Hin.
  destruct Hin as [links0 [Hin ->]].
  apply linkAll_nonempty in Hin.
  intros E. apply Hin.
  apply Permutation_nil. rewrite <- E. apply Permutation_sym, sortBy_perm.
Qed.

End GraphProperties.

Section ExactGraph.

Local Open Scope R_scope.

Lemma authCorpus_similarity :
  pairSimilarity (A:=RArith) authCorpus (lit "a.ts") (lit "b.ts") = Some 1.
Proof.
  destruct (@pairSimilarity_same_text
              authCorpus (lit "a.ts") (lit "b.ts") (lit "handles user login")
              eq_refl eq_refl) as [v [Ev ->]].
  destruct (@same_text_nonzero_weight
              authCorpus (lit "a.ts") (lit "handles user login")
              (lit "login") (lit "c.ts")) as [w [Hw Hne]];
    [reflexivity|vm_compute; tauto|vm_compute; tauto
    |vm_compute; intuition discriminate|].
  f_equal. subst v. now apply cosine_self_1 with (t := lit "login") (w := w).
Qed.

Lemma similar_documents_are_linked_witness :
  In (mkLink (A:=RArith) (lit "b.ts") 1)
     (linksOf (buildSemanticGraph authCorpus) (lit "a.ts"))
  /\ In (mkLink (A:=RArith) (lit "a.ts") 1)
        (linksOf (buildSemanticGraph authCorpus) (lit "b.ts")).
Proof.
  apply (@similar_documents_are_linked
           RArith authCorpus [] [lit "b.ts"; lit "c.ts"]).
  - reflexivity.
  - now left.
  - exact authCorpus_similarity.
  - simpl. destruct (Rgt_dec 1 (1 / 100)); [reflexivity|lra].
Defined.

Lemma links_carry_pair_similarity_witness :
  (pairSimilarity (A:=RArith) authCorpus (lit "a.ts") (lit "b.ts") = Some 1
   \/ pairSimilarity (A:=RArith) authCorpus (lit "b.ts") (lit "a.ts") = Some 1)
  /\ num_gt (Arith:=RArith) 1 num_threshold = true.
Proof.
  apply (@links_carry_pair_similarity
           RArith authCorpus (lit "a.ts") [mkLink (A:=RArith) (lit "b.ts") 1]
           (mkLink (A:=RArith) (lit "b.ts") 1)).
  - rewrite authCorpus_graph. now left.
  - now left.
Defined.

Lemma graph_entries_are_nonempty_witness :
  NoDup (map_keys (buildSemanticGraph (A:=RArith) authCorpus))
  /\ forall (p : str) (links : list (SemanticLink RArith)),
      In (p, links) (buildSemanticGraph authCorpus) -> links <> [].
Proof.
  apply (@graph_entries_are_nonempty RArith authCorpus).
Defined.

End ExactGraph.

(** ** Documents without terms *)

Section EmptyVectors.

Context {A : Arith}.

Hypothesis zero_square : num_add num_zero (num_mul num_zero num_zero) = num_zero.
Hypothesis zero_is_zero : num_is_zero num_zero = true.

Lemma accumulate_empty_l (vectorB : JsMap num) (terms : list str) :
  forall d mb,
    snd (fst (fold_left
                (fun '(dotProduct, magnitudeA, magnitudeB) term =>
                   let scoreA := scoreOr0 [] term in
                   let scoreB := scoreOr0 vectorB term in
                   (num_add dotProduct (num_mul scoreA scoreB),
                    num_add magnitudeA (num_mul scoreA scoreA),
                    num_add magnitudeB (num_mul scoreB scoreB)))
                terms (d, num_zero, mb))) = num_zero.
Proof.
  induction terms as [|t terms IH]; intros d mb; cbn [fold_left];
    [reflexivity|].
  change (scoreOr0 [] t) with num_zero. cbv zeta.
  rewrite zero_square. apply IH.
Qed.

Lemma accumulate_empty_r (vectorA : JsMap num) (terms : list str) :
  forall d ma,
    snd (fold_left
           (fun '(dotProduct, magnitudeA, magnitudeB) term =>
              let scoreA := scoreOr0 vectorA term in
              let scoreB := scoreOr0 [] term in
              (num_add dotProduct (num_mul scoreA scoreB),
               num_add magnitudeA (num_mul scoreA scoreA),
               num_add magnitudeB (num_mul scoreB scoreB)))
           terms (d, ma, num_zero)) = num_zero.
Proof.
  induction terms as [|t terms IH]; intros d ma; cbn [fold_left];
    [reflexivity|].
  change (scoreOr0 [] t) with num_zero. cbv zeta.
  rewrite zero_square. apply IH.
Qed.

Lemma cosine_empty_l (vectorB : JsMap num) :
  calculateCosineSimilarity [] vectorB = num_zero.
Proof.
  unfold calculateCosineSimilarity, accumulate.
  set (allTerms := newSet _).
  pose proof (accumulate_empty_l vectorB allTerms num_zero num_zero) as H.
  destruct (fold_left _ _ _) as [[d ma] mb]. simpl in H. subst ma.
  now rewrite zero_is_zero.
Qed.

Lemma cosine_empty_r (vectorA : JsMap num) :
  calculateCosineSimilarity vectorA [] = num_zero.
Proof.
  unfold calculateCosineSimilarity, accumulate.
  set (allTerms := newSet _).
  pose proof (accumulate_empty_r vectorA allTerms num_zero num_zero) as H.
  destruct (fold_left _ _ _) as [[d ma] mb]. simpl in H. subst mb.
  rewrite zero_is_zero. now rewrite orb_true_r.
Qed.

Lemma corpusVectors_without_terms (fileSummaries : JsMap str) (p : str)
      (v : JsMap num) :
  termsOf (summaryOf fileSummaries p) = [] ->
  map_get (corpusVectors fileSummaries) p = Some v -> v = [].
Proof.
  intros Hterms. unfold corpusVectors.
  destruct (countTerms fileSummaries (map_keys fileSummaries))
    as [tfMaps dfMap] eqn:E.
  rewrite tfidfVectorsOf_get.
  destruct (existsb (str_eqb p) (map_keys fileSummaries)) eqn:Ein;
    [|discriminate].
  pose proof (countTerms_tf fileSummaries (map_keys fileSummaries) p) as Htf.
  rewrite E, Ein in Htf. simpl in Htf. rewrite Htf. simpl.
  intros [= <-].
  unfold termsOf, map_keys in Hterms. apply map_eq_nil in Hterms.
  now rewrite Hterms.
Qed.

Hypothesis zero_below_threshold : num_gt num_zero num_threshold = false.

Lemma document_without_terms_unlinked (fileSummaries : JsMap str) (p : str) :
  termsOf (summaryOf fileSummaries p) = [] ->
  forall q links l,
    In (q, links) (buildSemanticGraph fileSummaries) ->
    In l links ->
    q <> p /\ relatedPath l <> p.
Proof.
  intros Hterms q links l. unfold buildSemanticGraph.
  destruct (List.length (map_keys fileSummaries) <? 2)%nat; [intros []|].
  intros Hin Hl. apply sorted_entries in Hin.
  destruct Hin as [links0 [Hin ->]]. apply sortBy_In in Hl.
  destruct (@linkAll_link_similarity _ _ _ _ _ _ Hin Hl)
    as (vq & vl & Hq & Hr & Hs & Hgt).
  split; intros Ep.
  - subst q.
    apply (corpusVectors_without_terms _ _ Hterms) in Hq. subst vq.
    rewrite cosine_empty_l, cosine_empty_r in Hs.
    assert (E : score l = num_zero) by (destruct Hs; assumption).
    rewrite E in Hgt. congruence.
  - rewrite Ep in Hr.
    apply (corpusVectors_without_terms _ _ Hterms) in Hr. subst vl.
    rewrite cosine_empty_l, cosine_empty_r in Hs.
    assert (E : score l = num_zero) by (destruct Hs; assumption).
    rewrite E in Hgt. congruence.
Qed.

End EmptyVectors.

Section StopWordDocuments.

(** X16. In double-precision arithmetic, whatever [Math.log] returns, a
    document whose summary leaves no term (it is empty, or made of stop
    words and one-letter words only) has no entry in the graph and no
    link points to it. *)
Theorem document_without_terms_unlinked_in_doubles :
  forall (log : float -> float) (fileSummaries : JsMap str) (p : str),
    termsOf (summaryOf fileSummaries p) = [] ->
    map_get (buildSemanticGraph (A:=Float64Arith log) fileSummaries) p = None
    /\ forall q links l,
        In (q, links) (buildSemanticGraph (A:=Float64Arith log) fileSummaries) ->
        In l links ->
        relatedPath l <> p.
Proof.
  intros log fileSummaries p Hterms.
  assert (Hun : forall q links l,
             In (q, links)
                (buildSemanticGraph (A:=Float64Arith log) fileSummaries) ->
             In l links -> q <> p /\ relatedPath l <> p).
  { apply (@document_without_terms_unlinked (Float64Arith log));
      [reflexivity|reflexivity|reflexivity|exact Hterms]. }
  split.
  - destruct (map_get (buildSemanticGraph fileSummaries) p) as [links|] eqn:E;
      [|reflexivity].
    apply map_get_In in E.
    destruct (@graph_entries_nonempty_helper (Float64Arith log)
                fileSummaries p links E) as [l Hl].
    destruct (Hun _ _ _ E Hl) as [Hp _]. contradiction.
  - intros q links l Hin Hl. now apply (Hun q links l).
Qed.

Lemma document_without_terms_unlinked_in_doubles_witness :
  map_get (buildSemanticGraph (A:=Float64Arith (fun x => x)) stopWordCorpus)
          (lit "a.ts") = None
  /\ forall q links l,
      In (q, links)
         (buildSemanticGraph (A:=Float64Arith (fun x => x)) stopWordCorpus) ->
      In l links ->
      relatedPath l <> lit "a.ts".
Proof.
  apply (@document_without_terms_unlinked_in_doubles
           (fun x => x) stopWordCorpus (lit "a.ts")).
  vm_compute. reflexivity.
Defined.

End StopWordDocuments.

(** ** Documents without a common term, in doubles *)

Section FloatClasses.

Lemma SFeqb_refl_finite (s : bool) (m : positive) (e : Z) :
  SFeqb (S754_finite s m e) (S754_finite s m e) = true.
Proof.
  unfold SFeqb, SFcompare. rewrite Z.compare_refl, Pos.compare_cont_refl.
  now destruct s.
Qed.

(** A double is falsy ([!x]) exactly when it is a zero or NaN. *)
Lemma falsy_spec (x : float) :
  (PrimFloat.eqb x 0%float || PrimFloat.is_nan x = true)
  <-> (exists s, Prim2SF x = S754_zero s) \/ Prim2SF x = S754_nan.
Proof.
  unfold PrimFloat.is_nan. rewrite !eqb_spec.
  change (Prim2SF 0%float) with (S754_zero false).
  destruct (Prim2SF x) as [s|s| |s m e].
  - split; [intros _; left; now exists s|reflexivity].
  - split; [destruct s; discriminate|intros [[s' H]|H]; discriminate].
  - split; [now right|reflexivity].
  - rewrite SFeqb_refl_finite.
    split; [destruct s; discriminate|intros [[s' H]|H]; discriminate].
Qed.

Lemma falsy_zero : PrimFloat.eqb 0 0 || PrimFloat.is_nan 0 = true.
Proof. reflexivity. Qed.

Lemma falsy_mul_l (x : float) :
  PrimFloat.eqb (0 * x) 0 || PrimFloat.is_nan (0 * x) = true.
Proof.
  apply falsy_spec. rewrite mul_spec.
  change (Prim2SF 0%float) with (S754_zero false).
  destruct (Prim2SF x) as [s|s| |s m e]; simpl; eauto.
Qed.

Lemma falsy_mul_r (x : float) :
  PrimFloat.eqb (x * 0) 0 || PrimFloat.is_nan (x * 0) = true.
Proof.
  apply falsy_spec. rewrite mul_spec.
  change (Prim2SF 0%float) with (S754_zero false).
  destruct (Prim2SF x) as [s|s| |s m e]; simpl; eauto.
Qed.

Lemma falsy_add (a b : float) :
  PrimFloat.eqb a 0 || PrimFloat.is_nan a = true ->
  PrimFloat.eqb b 0 || PrimFloat.is_nan b = true ->
  PrimFloat.eqb (a + b) 0 || PrimFloat.is_nan (a + b) = true.
Proof.
  rewrite !falsy_spec, add_spec.
  intros [[sa ->]| ->] [[sb ->]| ->]; simpl; eauto.
  destruct sa, sb; eauto.
Qed.

Lemma falsy_div (a y : float) :
  PrimFloat.eqb a 0 || PrimFloat.is_nan a = true ->
  PrimFloat.eqb (a / y) 0 || PrimFloat.is_nan (a / y) = true.
Proof.
  rewrite !falsy_spec, div_spec.
  intros [[sa ->]| ->]; destruct (Prim2SF y) as [s|s| |s m e]; simpl; eauto.
Qed.

Lemma falsy_below_threshold (a : float) :
  PrimFloat.eqb a 0 || PrimFloat.is_nan a = true ->
  PrimFloat.ltb 0x1.47ae147ae147bp-7 a = false.
Proof.
  rewrite falsy_spec, ltb_spec.
  intros [[sa ->]| ->]; reflexivity.
Qed.

End FloatClasses.

Section DisjointVectors.

Context {A : Arith}.

Hypothesis zero_falsy : num_falsy num_zero = true.
Hypothesis mul_zero_l_falsy : forall x, num_falsy (num_mul num_zero x) = true.
Hypothesis mul_zero_r_falsy : forall x, num_falsy (num_mul x num_zero) = true.
Hypothesis add_falsy :
  forall a b, num_falsy a = true -> num_falsy b = true ->
              num_falsy (num_add a b) = true.
Hypothesis div_falsy :
  forall a y, num_falsy a = true -> num_falsy (num_div a y) = true.

(** Without a common term every product [scoreA * scoreB] has a factor
    that is the literal 0, and the dot product never leaves the falsy
    values (a zero, or NaN when the other factor is infinite). *)
Lemma accumulate_disjoint_falsy (vectorA vectorB : JsMap num)
      (terms : list str) :
  (forall t, map_get vectorA t = None \/ map_get vectorB t = None) ->
  forall d ma mb,
    num_falsy d = true ->
    num_falsy
      (fst (fst (fold_left
                   (fun '(dotProduct, magnitudeA, magnitudeB) term =>
                      let scoreA := scoreOr0 vectorA term in
                      let scoreB := scoreOr0 vectorB term in
                      (num_add dotProduct (num_mul scoreA scoreB),
                       num_add magnitudeA (num_mul scoreA scoreA),
                       num_add magnitudeB (num_mul scoreB scoreB)))
                   terms (d, ma, mb)))) = true.
Proof.
  intros Hdis.
  induction terms as [|t terms IH]; intros d ma mb Hd; cbn [fold_left];
    [exact Hd|].
  apply IH. cbv zeta. apply add_falsy; [exact Hd|].
  unfold scoreOr0.
  destruct (Hdis t) as [-> | ->]; [apply mul_zero_l_falsy|apply mul_zero_r_falsy].
Qed.

Lemma cosine_disjoint_falsy (vectorA vectorB : JsMap num) :
  (forall t, map_get vectorA t = None \/ map_get vectorB t = None) ->
  num_falsy (calculateCosineSimilarity vectorA vectorB) = true.
Proof.
  intros Hdis. unfold calculateCosineSimilarity, accumulate.
  set (terms := newSet _).
  pose proof (@accumulate_disjoint_falsy vectorA vectorB terms Hdis
                num_zero num_zero num_zero zero_falsy) as H.
  destruct (fold_left _ terms _) as [[d ma] mb]. cbn [fst] in H.
  destruct (_ || _); [exact zero_falsy|].
  now apply div_falsy.
Qed.

Lemma corpusVectors_disjoint (fileSummaries : JsMap str) (pathA pathB : str)
      (vectorA vectorB : JsMap num) :
  (forall t, In t (termsOf (summaryOf fileSummaries pathA)) ->
             ~ In t (termsOf (summaryOf fileSummaries pathB))) ->
  map_get (corpusVectors fileSummaries) pathA = Some vectorA ->
  map_get (corpusVectors fileSummaries) pathB = Some vectorB ->
  forall t, map_get vectorA t = None \/ map_get vectorB t = None.
Proof.
  intros Hdis Ha Hb t.
  assert (HA : In pathA (map_keys fileSummaries)).
  { destruct (existsb (str_eqb pathA) (map_keys fileSummaries)) eqn:E.
    - apply existsb_exists in E. destruct E as [x [Hx Ex]].
      apply str_eqb_eq in Ex. now subst x.
    - exfalso. revert Ha. unfold corpusVectors.
      destruct (countTerms _ _) as [tfMaps dfMap].
      rewrite tfidfVectorsOf_get, E. discriminate. }
  assert (HB : In pathB (map_keys fileSummaries)).
  { destruct (existsb (str_eqb pathB) (map_keys fileSummaries)) eqn:E.
    - apply existsb_exists in E. destruct E as [x [Hx Ex]].
      apply str_eqb_eq in Ex. now subst x.
    - exfalso. revert Hb. unfold corpusVectors.
      destruct (countTerms _ _) as [tfMaps dfMap].
      rewrite tfidfVectorsOf_get, E. discriminate. }
  destruct (corpusVectors_weight (A:=A) fileSummaries pathA HA) as [va [Eva Hwa]].
  destruct (corpusVectors_weight (A:=A) fileSummaries pathB HB) as [vb [Evb Hwb]].
  rewrite Ha in Eva. rewrite Hb in Evb.
  injection Eva as <-. injection Evb as <-.
  rewrite Hwa, Hwb.
  destruct (map_get (termFrequenciesOf (summaryOf fileSummaries pathA)) t)
    as [c|] eqn:Ea; [|now left].
  right.
  destruct (map_get (termFrequenciesOf (summaryOf fileSummaries pathB)) t)
    as [c'|] eqn:Eb; [|reflexivity].
  exfalso. apply (Hdis t); unfold termsOf; eapply map_get_key; eauto.
Qed.

Hypothesis falsy_not_above :
  forall a, num_falsy a = true -> num_gt a num_threshold = false.

Lemma disjoint_documents_not_linked (fileSummaries : JsMap str)
      (pathA pathB : str) (l : SemanticLink A) :
  (forall t, In t (termsOf (summaryOf fileSummaries pathA)) ->
             ~ In t (termsOf (summaryOf fileSummaries pathB))) ->
  In l (linksOf (buildSemanticGraph fileSummaries) pathA) ->
  relatedPath l <> pathB.
Proof.
  intros Hdis Hin Epath.
  unfold linksOf in Hin.
  destruct (map_get (buildSemanticGraph fileSummaries) pathA) as [links|] eqn:E;
    [|destruct Hin].
  apply map_get_In in E. revert E Hin. unfold buildSemanticGraph.
  destruct (List.length (map_keys fileSummaries) <? 2)%nat; [intros []|].
  intros E Hin. apply sorted_entries in E.
  destruct E as [links0 [E ->]]. apply sortBy_In in Hin.
  destruct (@linkAll_link_similarity _ _ _ _ _ _ E Hin)
    as (vp & vl & Hp & Hr & Hs & Hgt).
  rewrite Epath in Hr.
  assert (Hab : forall t, map_get vp t = None \/ map_get vl t = None)
    by (eapply corpusVectors_disjoint; eauto).
  assert (Hba : forall t, map_get vl t = None \/ map_get vp t = None)
    by (intros t; destruct (Hab t); tauto).
  assert (Hf : num_falsy (score l) = true).
  { destruct Hs as [-> | ->]; now apply cosine_disjoint_falsy. }
  apply falsy_not_above in Hf. congruence.
Qed.

End DisjointVectors.

Section DisjointDocuments.

(** X18. In double-precision arithmetic, whatever [Math.log] returns, two
    documents whose summaries have no term in common are never linked:
    neither has a link to the other. *)
Theorem disjoint_documents_not_linked_in_doubles :
  forall (log : float -> float) (fileSummaries : JsMap str)
         (pathA pathB : str),
    (forall t, In t (termsOf (summaryOf fileSummaries pathA)) ->
               ~ In t (termsOf (summaryOf fileSummaries pathB))) ->
    (forall l, In l (linksOf (buildSemanticGraph (A:=Float64Arith log)
                                                 fileSummaries) pathA) ->
               relatedPath l <> pathB)
    /\ (forall l, In l (linksOf (buildSemanticGraph (A:=Float64Arith log)
                                                    fileSummaries) pathB) ->
                  relatedPath l <> pathA).
Proof.
  intros log fileSummaries pathA pathB Hdis.
  split; intros l Hl.
  - apply (@disjoint_documents_not_linked (Float64Arith log)
             falsy_zero falsy_mul_l falsy_mul_r falsy_add falsy_div
             falsy_below_threshold fileSummaries pathA pathB l Hdis Hl).
  - apply (@disjoint_documents_not_linked (Float64Arith log)
             falsy_zero falsy_mul_l falsy_mul_r falsy_add falsy_div
             falsy_below_threshold fileSummaries pathB pathA l); [|exact Hl].
    intros t Ht Ht'. now apply (Hdis t).
Qed.

Lemma disjoint_documents_not_linked_in_doubles_witness :
  (forall l, In l (linksOf (buildSemanticGraph (A:=Float64Arith logTable)
                                               rankCorpus) (lit "a.ts")) ->
             relatedPath l <> lit "d.ts")
  /\ (forall l, In l (linksOf (buildSemanticGraph (A:=Float64Arith logTable)
                                                  rankCorpus) (lit "d.ts")) ->
                relatedPath l <> lit "a.ts").
Proof.
  apply (@disjoint_documents_not_linked_in_doubles
           logTable rankCorpus (lit "a.ts") (lit "d.ts")).
  intros t Ht. vm_compute in Ht |- *. intuition congruence.
Defined.

End DisjointDocuments.

(** ** The order of the links, in doubles *)

Section FloatOrder.

Local Open Scope Z_scope.

Lemma digits2_pos_bounds (m : positive) :
  2 ^ (Zpos (digits2_pos m) - 1) <= Zpos m < 2 ^ Zpos (digits2_pos m).
Proof.
  induction m as [m IH|m IH|]; cbn [digits2_pos].
  - rewrite Pos2Z.inj_succ.
    replace (Z.succ (Zpos (digits2_pos m)) - 1)
      with (Z.succ (Zpos (digits2_pos m) - 1)) by lia.
    rewrite !Z.pow_succ_r by lia. lia.
  - rewrite Pos2Z.inj_succ.
    replace (Z.succ (Zpos (digits2_pos m)) - 1)
      with (Z.succ (Zpos (digits2_pos m) - 1)) by lia.
    rewrite !Z.pow_succ_r by lia. lia.
  - simpl. lia.
Qed.

Lemma shr_m_shr_1 (r : shr_record) :
  0 <= shr_m r -> shr_m (shr_1 r) = shr_m r / 2.
Proof.
  destruct r as [m rb sb]. cbn [shr_m]. intros Hm.
  destruct m as [|p|p]; [reflexivity| |lia].
  destruct p as [p|p|]; cbn [shr_1 shr_m].
  - apply Z.div_unique with (r := 1); lia.
  - apply Z.div_unique with (r := 0); lia.
  - reflexivity.
Qed.

Lemma shr_m_iter (p : positive) :
  forall r, 0 <= shr_m r ->
            shr_m (SpecFloat.iter_pos shr_1 p r) = shr_m r / 2 ^ Zpos p.
Proof.
  induction p as [p IH|p IH|]; intros r Hr; cbn [SpecFloat.iter_pos].
  - assert (H1 : 0 <= shr_m (shr_1 r)).
    { rewrite shr_m_shr_1 by exact Hr. apply Z.div_pos; lia. }
    assert (H2 : 0 <= shr_m (SpecFloat.iter_pos shr_1 p (shr_1 r))).
    { rewrite IH by exact H1. apply Z.div_pos; [exact H1|].
      apply Z.pow_pos_nonneg; lia. }
    rewrite IH by exact H2. rewrite IH by exact H1.
    rewrite shr_m_shr_1 by exact Hr.
    assert (Hp : 0 < 2 ^ Zpos p) by (apply Z.pow_pos_nonneg; lia).
    rewrite !Z.div_div by lia.
    f_equal. change (Zpos p~1) with (2 * Zpos p + 1).
    rewrite Z.pow_add_r, Z.pow_twice_r, Z.pow_1_r by lia. lia.
  - assert (H1 : 0 <= shr_m (SpecFloat.iter_pos shr_1 p r)).
    { rewrite IH by exact Hr. apply Z.div_pos; [exact Hr|].
      apply Z.pow_pos_nonneg; lia. }
    rewrite IH by exact H1. rewrite IH by exact Hr.
    assert (Hp : 0 < 2 ^ Zpos p) by (apply Z.pow_pos_nonneg; lia).
    rewrite Z.div_div by lia.
    f_equal. change (Zpos p~0) with (2 * Zpos p).
    rewrite Z.pow_twice_r. reflexivity.
  - rewrite shr_m_shr_1 by exact Hr. reflexivity.
Qed.

Lemma shr_m_of_loc (m : Z) (l : location) :
  shr_m (shr_record_of_loc m l) = m.
Proof. destruct l as [|[]]; reflexivity. Qed.

(** Rounding to the format's exponent range keeps a positive mantissa
    positive: at most the digits beyond the precision are shifted out. *)
Lemma shr_fexp_pos (m e : Z) (l : location) :
  0 < m -> -1074 <= e ->
  0 < shr_m (fst (shr_fexp prec emax m e l))
  /\ -1074 <= snd (shr_fexp prec emax m e l).
Proof.
  intros Hm He. unfold shr_fexp, shr, fexp.
  change (SpecFloat.emin prec emax) with (-1074). change prec with 53.
  destruct m as [|p|p]; try lia. cbn [Zdigits2].
  pose proof (digits2_pos_bounds p) as [Hlo _].
  set (d := Zpos (digits2_pos p)) in *.
  destruct (Z.max (d + e - 53) (-1074) - e) as [|q|q] eqn:En;
    cbn [fst snd]; rewrite ?shr_m_of_loc; try (split; lia).
  rewrite shr_m_iter by (rewrite shr_m_of_loc; lia).
  rewrite shr_m_of_loc. split; [|lia].
  apply Z.div_str_pos. split; [apply Z.pow_pos_nonneg; lia|].
  apply Z.le_trans with (2 ^ (d - 1)); [|exact Hlo].
  apply Z.pow_le_mono_r; lia.
Qed.

Lemma round_nearest_even_pos (m : Z) (l : location) :
  0 < m -> 0 < round_nearest_even m l.
Proof.
  intros Hm. unfold round_nearest_even.
  destruct l as [|[]]; try lia. destruct (Z.even m); lia.
Qed.

Lemma binary_round_aux_pos (m e : Z) (l : location) :
  0 < m -> -1074 <= e ->
  (exists m' e', binary_round_aux prec emax false m e l
                 = S754_finite false m' e')
  \/ binary_round_aux prec emax false m e l = S754_infinity false.
Proof.
  intros Hm He. unfold binary_round_aux.
  pose proof (@shr_fexp_pos m e l Hm He) as [H1 H2].
  destruct (shr_fexp prec emax m e l) as [mrs' e']. cbn [fst snd] in H1, H2.
  pose proof (@round_nearest_even_pos _ (loc_of_shr_record mrs') H1) as H3.
  pose proof (@shr_fexp_pos _ e' loc_Exact H3 H2) as [H4 _].
  destruct (shr_fexp prec emax _ e' loc_Exact) as [mrs'' e''].
  cbn [fst] in H4.
  destruct (shr_m mrs'') as [|q|q]; try lia.
  destruct (e'' <=? emax - prec); [left; eauto|now right].
Qed.

Lemma binary_round_aux_neg (m e : Z) (l : location) :
  SFltb (S754_zero false) (binary_round_aux prec emax true m e l) = false.
Proof.
  unfold binary_round_aux.
  destruct (shr_fexp prec emax m e l) as [mrs' e'].
  destruct (shr_fexp prec emax _ e' loc_Exact) as [mrs'' e''].
  destruct (shr_m mrs'') as [|q|q]; try reflexivity.
  destruct (e'' <=? emax - prec); reflexivity.
Qed.

Lemma binary_round_exponent (d : positive) (e : Z) :
  -1074 <= e ->
  -1074 <= snd (shl_align d e (fexp prec emax (Zpos (digits2_pos d) + e))).
Proof.
  intros He. unfold shl_align, fexp.
  change (SpecFloat.emin prec emax) with (-1074).
  destruct (_ - e) as [|q|q]; cbn [snd]; lia.
Qed.

(** The sign of a rounded integer multiple of a power of two. *)
Lemma binary_normalize_sign (D e : Z) :
  -1074 <= e ->
  SFltb (S754_zero false) (binary_normalize prec emax D e false) = (0 <? D).
Proof.
  intros He. destruct D as [|d|d]; cbn [binary_normalize]; [reflexivity| |].
  - unfold binary_round.
    pose proof (@binary_round_exponent d e He) as Hz.
    destruct (shl_align d e _) as [mz ez]. cbn [snd] in Hz.
    destruct (@binary_round_aux_pos (Zpos mz) ez loc_Exact) as [(m' & e' & ->)| ->];
      try lia; reflexivity.
  - unfold binary_round.
    destruct (shl_align d e _) as [mz ez].
    apply binary_round_aux_neg.
Qed.

Lemma shl_align_value (m : positive) (e e' : Z) :
  e' <= e -> Zpos (fst (shl_align m e e')) = Zpos m * 2 ^ (e - e').
Proof.
  intros Hle. unfold shl_align.
  destruct (e' - e) as [|q|q] eqn:E; cbn [fst]; try lia.
  - replace (e - e') with 0 by lia. rewrite Z.pow_0_r. lia.
  - replace (e - e') with (Zpos q) by lia.
    change (Pos.iter xO m q) with (shift_pos q m).
    rewrite shift_pos_correct. change (Z.pow_pos 2 q) with (2 ^ Zpos q). lia.
Qed.

Lemma bounded_canonical (m : positive) (e : Z) :
  SpecFloat.bounded prec emax m e = true ->
  Zpos (digits2_pos m) <= 53 /\ -1074 <= e
  /\ (-1074 < e -> Zpos (digits2_pos m) = 53).
Proof.
  unfold SpecFloat.bounded, canonical_mantissa, fexp.
  change (SpecFloat.emin prec emax) with (-1074). change prec with 53.
  rewrite andb_true_iff, Z.eqb_eq. lia.
Qed.

(** Between positive doubles the difference is positive exactly when the
    minuend is the greater: the rounded result keeps the sign of the
    exact one and does not vanish. *)
Lemma SFsub_positive (mx my : positive) (ex ey : Z) :
  SpecFloat.bounded prec emax mx ex = true ->
  SpecFloat.bounded prec emax my ey = true ->
  SFltb (S754_zero false)
        (SFsub prec emax (S754_finite false my ey) (S754_finite false mx ex))
  = SFltb (S754_finite false mx ex) (S754_finite false my ey).
Proof.
  intros Hx Hy.
  apply bounded_canonical in Hx. destruct Hx as (Hdx & Hex & Hnx).
  apply bounded_canonical in Hy. destruct Hy as (Hdy & Hey & Hny).
  pose proof (digits2_pos_bounds mx) as [Hxlo Hxhi].
  pose proof (digits2_pos_bounds my) as [Hylo Hyhi].
  assert (Hxtop : Zpos mx < 2 ^ 53).
  { eapply Z.lt_le_trans; [exact Hxhi|]. apply Z.pow_le_mono_r; lia. }
  assert (Hytop : Zpos my < 2 ^ 53).
  { eapply Z.lt_le_trans; [exact Hyhi|]. apply Z.pow_le_mono_r; lia. }
  cbn [SFsub cond_Zopp].
  rewrite binary_normalize_sign by lia.
  rewrite !shl_align_value by lia.
  unfold SFltb, SFcompare.
  destruct (Z.compare_spec ex ey) as [E|E|E].
  - subst ey. rewrite Z.min_id, Z.sub_diag, Z.pow_0_r, !Z.mul_1_r.
    rewrite Pos.compare_cont_spec. cbn [Pos.switch_Eq].
    destruct (Pos.compare_spec mx my) as [E'|E'|E'].
    + subst my. apply Z.ltb_ge. lia.
    + apply Z.ltb_lt. lia.
    + apply Z.ltb_ge. lia.
  - apply Z.ltb_lt.
    replace (Z.min ey ex) with ex by lia.
    rewrite Z.sub_diag, Z.pow_0_r, Z.mul_1_r.
    assert (H53 : Zpos (digits2_pos my) = 53) by (apply Hny; lia).
    rewrite H53 in Hylo.
    assert (H2 : 2 ^ 1 <= 2 ^ (ey - ex)) by (apply Z.pow_le_mono_r; lia).
    change (2 ^ (53 - 1)) with 4503599627370496 in Hylo.
    change (2 ^ 53) with 9007199254740992 in Hxtop.
    change (2 ^ 1) with 2 in H2. nia.
  - apply Z.ltb_ge.
    replace (Z.min ey ex) with ey by lia.
    rewrite Z.sub_diag, Z.pow_0_r, Z.mul_1_r.
    assert (H53 : Zpos (digits2_pos mx) = 53) by (apply Hnx; lia).
    rewrite H53 in Hxlo.
    assert (H2 : 2 ^ 1 <= 2 ^ (ex - ey)) by (apply Z.pow_le_mono_r; lia).
    change (2 ^ (53 - 1)) with 4503599627370496 in Hxlo.
    change (2 ^ 53) with 9007199254740992 in Hytop.
    change (2 ^ 1) with 2 in H2. nia.
Qed.

End FloatOrder.

Section ScoreOrder.

Local Open Scope Z_scope.

(** A double above the threshold is a positive number or [+Infinity]. *)
Lemma above_threshold_spec (x : float) :
  PrimFloat.ltb 0x1.47ae147ae147bp-7 x = true ->
  (exists m e, Prim2SF x = S754_finite false m e
               /\ SpecFloat.bounded prec emax m e = true)
  \/ Prim2SF x = S754_infinity false.
Proof.
  rewrite ltb_spec.
  change (Prim2SF 0x1.47ae147ae147bp-7%float)
    with (S754_finite false 5764607523034235 (-59)).
  pose proof (Prim2SF_valid x) as Hv.
  destruct (Prim2SF x) as [s|s| |s m e]; try discriminate.
  - destruct s; [discriminate|]. now right.
  - destruct s; [discriminate|]. intros _. left. now exists m, e.
Qed.

(** The comparator [b.score - a.score] of two scores above the threshold
    is positive exactly when [a.score < b.score]. *)
Lemma difference_positive (a b : float) :
  PrimFloat.ltb 0x1.47ae147ae147bp-7 a = true ->
  PrimFloat.ltb 0x1.47ae147ae147bp-7 b = true ->
  PrimFloat.ltb 0 (b - a) = PrimFloat.ltb a b.
Proof.
  intros Ha Hb.
  rewrite !ltb_spec, sub_spec. change (Prim2SF 0%float) with (S754_zero false).
  destruct (above_threshold_spec Ha) as [(ma & ea & -> & Hba)| ->];
    destruct (above_threshold_spec Hb) as [(mb & eb & -> & Hbb)| ->];
    try reflexivity.
  now apply SFsub_positive.
Qed.

Lemma SFleb_finite (m1 m2 : positive) (e1 e2 : Z) :
  SFleb (S754_finite false m1 e1) (S754_finite false m2 e2) = true
  <-> e1 < e2 \/ (e1 = e2 /\ (m1 <= m2)%positive).
Proof.
  unfold SFleb, SFcompare. rewrite Pos.compare_cont_spec. cbn [Pos.switch_Eq].
  destruct (Z.compare_spec e1 e2) as [E|E|E].
  - destruct (Pos.compare_spec m1 m2) as [E'|E'|E'].
    + split; [intros _; right; split; [exact E|lia]|reflexivity].
    + split; [intros _; right; split; [exact E|lia]|reflexivity].
    + split; [discriminate|intros [H|[_ H]]; lia].
  - split; [now left|reflexivity].
  - split; [discriminate|lia].
Qed.

Lemma SFltb_finite (m1 m2 : positive) (e1 e2 : Z) :
  SFltb (S754_finite false m1 e1) (S754_finite false m2 e2) = true
  <-> e1 < e2 \/ (e1 = e2 /\ (m1 < m2)%positive).
Proof.
  unfold SFltb, SFcompare. rewrite Pos.compare_cont_spec. cbn [Pos.switch_Eq].
  destruct (Z.compare_spec e1 e2) as [E|E|E].
  - destruct (Pos.compare_spec m1 m2) as [E'|E'|E'].
    + split; [discriminate|intros [H|[_ H]]; lia].
    + split; [intros _; right; split; [exact E|lia]|reflexivity].
    + split; [discriminate|intros [H|[_ H]]; lia].
  - split; [now left|reflexivity].
  - split; [discriminate|lia].
Qed.

(** On scores above the threshold [<=] is total ... *)
Lemma score_not_lt_le (a b : float) :
  PrimFloat.ltb 0x1.47ae147ae147bp-7 a = true ->
  PrimFloat.ltb 0x1.47ae147ae147bp-7 b = true ->
  PrimFloat.ltb a b = false -> PrimFloat.leb b a = true.
Proof.
  intros Ha Hb. rewrite ltb_spec, leb_spec.
  destruct (above_threshold_spec Ha) as [(ma & ea & -> & _)| ->];
    destruct (above_threshold_spec Hb) as [(mb & eb & -> & _)| ->];
    try (intros; reflexivity); try discriminate.
  intros H. apply SFleb_finite.
  assert (H' : ~ (ea < eb \/ (ea = eb /\ (ma < mb)%positive))).
  { rewrite <- SFltb_finite. congruence. }
  lia.
Qed.

Lemma score_lt_le (a b : float) :
  PrimFloat.ltb 0x1.47ae147ae147bp-7 a = true ->
  PrimFloat.ltb 0x1.47ae147ae147bp-7 b = true ->
  PrimFloat.ltb a b = true -> PrimFloat.leb a b = true.
Proof.
  intros Ha Hb. rewrite ltb_spec, leb_spec.
  destruct (above_threshold_spec Ha) as [(ma & ea & -> & _)| ->];
    destruct (above_threshold_spec Hb) as [(mb & eb & -> & _)| ->];
    try (intros; reflexivity); try discriminate.
  rewrite SFltb_finite, SFleb_finite. lia.
Qed.

(** ... and transitive. *)
Lemma score_le_trans (a b c : float) :
  PrimFloat.ltb 0x1.47ae147ae147bp-7 a = true ->
  PrimFloat.ltb 0x1.47ae147ae147bp-7 b = true ->
  PrimFloat.ltb 0x1.47ae147ae147bp-7 c = true ->
  PrimFloat.leb a b = true -> PrimFloat.leb b c = true ->
  PrimFloat.leb a c = true.
Proof.
  intros Ha Hb Hc. rewrite !leb_spec.
  destruct (above_threshold_spec Ha) as [(ma & ea & -> & _)| ->];
    destruct (above_threshold_spec Hb) as [(mb & eb & -> & _)| ->];
    destruct (above_threshold_spec Hc) as [(mc & ec & -> & _)| ->];
    try (intros; reflexivity); try discriminate.
  rewrite !SFleb_finite. lia.
Qed.

End ScoreOrder.

Section SortedOn.

Context {T : Type} (after : T -> T -> bool) (le : T -> T -> Prop)
        (P : T -> Prop).

Hypothesis after_false : forall a b, P a -> P b -> after a b = false -> le a b.
Hypothesis after_true : forall a b, P a -> P b -> after a b = true -> le b a.
Hypothesis le_trans :
  forall a b c, P a -> P b -> P c -> le a b -> le b c -> le a c.

Lemma insertBy_sorted_on (x : T) (l : list T) :
  P x -> Forall P l ->
  ForallOrdPairs le l -> ForallOrdPairs le (insertBy after x l).
Proof.
  intros Hx.
  induction l as [|y l IH]; simpl; intros HP Hl.
  - constructor; [constructor|constructor].
  - inversion HP as [|? ? HPy HPl]; subst.
    inversion Hl as [|? ? Hy Hl']; subst.
    destruct (after x y) eqn:E.
    + constructor; [|now apply IH].
      apply Forall_forall. intros z Hz.
      apply (Permutation_in z (Permutation_sym (insertBy_perm after x l))) in Hz.
      destruct Hz as [<-|Hz]; [now apply after_true|].
      rewrite Forall_forall in Hy. now apply Hy.
    + constructor; [|now constructor].
      constructor; [now apply after_false|].
      rewrite Forall_forall in Hy, HPl |- *.
      intros z Hz. apply le_trans with (b := y); auto.
Qed.

Lemma sortBy_Forall (l : list T) : Forall P l -> Forall P (sortBy after l).
Proof.
  intros H. rewrite Forall_forall in H |- *.
  intros x Hx. apply H. now apply (sortBy_In after).
Qed.

Lemma sortBy_sorted_on (l : list T) :
  Forall P l -> ForallOrdPairs le (sortBy after l).
Proof.
  induction l as [|x l IH]; simpl; intros HP; [constructor|].
  inversion HP; subst.
  apply insertBy_sorted_on; auto. now apply sortBy_Forall.
Qed.

End SortedOn.

Section SortedLinks.

(** X17. In double-precision arithmetic, whatever [Math.log] returns, every
    link list of the graph is in non-increasing order of score. *)
Theorem links_sorted_by_score_in_doubles :
  forall (log : float -> float) (fileSummaries : JsMap str) (p : str)
         (links : list (SemanticLink (Float64Arith log))),
    In (p, links) (buildSemanticGraph fileSummaries) ->
    ForallOrdPairs
      (fun a b : SemanticLink (Float64Arith log) =>
         PrimFloat.leb (score b) (score a) = true)
      links.
Proof.
  intros log fileSummaries p links. unfold buildSemanticGraph.
  destruct (List.length (map_keys fileSummaries) <? 2)%nat; [intros []|].
  intros Hin. apply sorted_entries in Hin.
  destruct Hin as [links0 [Hin ->]].
  apply sortBy_sorted_on
    with (P := fun l : SemanticLink (Float64Arith log) =>
                 PrimFloat.ltb 0x1.47ae147ae147bp-7 (score l) = true).
  - intros a b Ha Hb H. unfold linkAfter in H. cbn in H.
    rewrite difference_positive in H by assumption.
    now apply score_not_lt_le.
  - intros a b Ha Hb H. unfold linkAfter in H. cbn in H.
    rewrite difference_positive in H by assumption.
    now apply score_lt_le.
  - intros a b c Ha Hb Hc Hab Hbc.
    now apply score_le_trans with (b := score b).
  - apply Forall_forall. intros l Hl.
    destruct (@linkAll_link_similarity _ _ _ _ _ _ Hin Hl)
      as (vp & vl & _ & _ & _ & Hgt).
    exact Hgt.
Qed.

(** On the ranking sample the sort has work to do: the links of [a.ts]
    are pushed in corpus order and leave the sort in score order. *)
Lemma rankCorpus_links_reordered :
  map relatedPath
      (linksOf (linkAll (A:=Float64Arith logTable) (corpusVectors rankCorpus)
                        (map_keys rankCorpus) [])
               (lit "a.ts"))
  = [lit "b.ts"; lit "c.ts"]
  /\ map relatedPath rankLinks = [lit "c.ts"; lit "b.ts"]
  /\ map (fun l : SemanticLink (Float64Arith logTable) =>
            num_gt (score l) num_threshold) rankLinks
     = [true; true].
Proof. repeat split; vm_compute; reflexivity. Qed.

Lemma links_sorted_by_score_in_doubles_witness :
  ForallOrdPairs
    (fun a b : SemanticLink (Float64Arith logTable) =>
       PrimFloat.leb (score b) (score a) = true)
    rankLinks.
Proof.
  apply (@links_sorted_by_score_in_doubles logTable rankCorpus (lit "a.ts")).
  vm_compute. now left.
Defined.

End SortedLinks.

(** ** The preamble scan *)

Section Preamble.

Local Open Scope Z_scope.

Lemma scanPreamble_spec (ls : list str) :
  forall i,
    let e := scanPreamble ls i (i - 1) in
    i - 1 <= e < i + Z.of_nat (List.length ls)
    /\ (forall k l, i <= k <= e ->
                    nth_error ls (Z.to_nat (k - i)) = Some l ->
                    preambleLine l = true)
    /\ forall l, nth_error ls (Z.to_nat (e + 1 - i)) = Some l ->
                 preambleLine l = false.
Proof.
  induction ls as [|l0 ls IH]; intros i; cbn [scanPreamble].
  - simpl. split; [lia|]. split; [intros; lia|].
    intros l. now destruct (Z.to_nat (i - 1 + 1 - i)).
  - fold (preambleLine l0). destruct (preambleLine l0) eqn:E0.
    + specialize (IH (i + 1)). replace (i + 1 - 1) with i in IH by lia.
      cbv zeta in IH. destruct IH as (H1 & H2 & H3).
      set (e := scanPreamble ls (i + 1) i) in *.
      cbn [List.length]. split; [lia|]. split.
      * intros k l Hk Hl. destruct (Z.eq_dec k i) as [->|Hne].
        -- rewrite Z.sub_diag in Hl. simpl in Hl. congruence.
        -- apply (H2 k l); [lia|].
           replace (Z.to_nat (k - i)) with (S (Z.to_nat (k - (i + 1)))) in Hl
             by lia.
           exact Hl.
      * intros l Hl. apply H3.
        replace (Z.to_nat (e + 1 - i)) with (S (Z.to_nat (e + 1 - (i + 1))))
          in Hl by lia.
        exact Hl.
    + cbn [List.length]. split; [lia|]. split; [intros; lia|].
      intros l Hl. replace (Z.to_nat (i - 1 + 1 - i)) with 0%nat in Hl by lia.
      simpl in Hl. congruence.
Qed.

(** X19. The preamble found by the scan is the longest run of comment lines,
    [#] lines and blank lines at the top of the file, looked for within
    the first 20 lines. *)
Theorem preamble_is_leading_comment_block :
  forall fileContent : str,
    let lines := splitLines fileContent in
    let e := preambleEndLine fileContent in
    -1 <= e < Z.min 20 (Z.of_nat (List.length lines))
    /\ (forall k l, 0 <= k <= e ->
                    nth_error lines (Z.to_nat k) = Some l ->
                    preambleLine l = true)
    /\ forall l, e + 1 < 20 ->
                 nth_error lines (Z.to_nat (e + 1)) = Some l ->
                 preambleLine l = false.
Proof.
  intros fileContent lines e.
  pose proof (scanPreamble_spec (firstn 20 lines) 0) as H.
  change (0 - 1) with (-1) in H. cbv zeta in H.
  fold (fileLines fileContent) in lines.
  change (scanPreamble (firstn 20 lines) 0 (-1)) with e in H.
  destruct H as (H1 & H2 & H3).
  rewrite length_firstn in H1. split; [lia|]. split.
  - intros k l Hk Hl. apply (H2 k l); [lia|].
    rewrite Z.sub_0_r, nth_error_firstn.
    destruct (Z.to_nat k <? 20)%nat eqn:E; [exact Hl|].
    apply Nat.ltb_ge in E. lia.
  - intros l He Hl. apply H3.
    rewrite Z.sub_0_r, nth_error_firstn.
    destruct (Z.to_nat (e + 1) <? 20)%nat eqn:E; [exact Hl|].
    apply Nat.ltb_ge in E. lia.
Qed.

End Preamble.

(** ** The packer: budget, frames and order *)

Section PackerProperties.

Local Open Scope Z_scope.

Lemma partsLength_snoc (parts : list CollectedPart) (part : CollectedPart) :
  partsLength (parts ++ [part]) = partsLength parts + slen (content part).
Proof.
  induction parts as [|p ps IH]; simpl; [lia|]. rewrite IH. lia.
Qed.

Lemma slen_trimStart (s : str) : slen (trimStart s) <= slen s.
Proof.
  induction s as [|c s IH]; simpl; [lia|].
  destruct (isWhiteSpace c); [|lia].
  unfold slen in *. simpl. lia.
Qed.

Lemma slen_trim (s : str) : slen (trim s) <= slen s.
Proof.
  unfold trim, trimEnd.
  pose proof (slen_trimStart (rev (trimStart s))) as H1.
  pose proof (slen_trimStart s) as H2.
  unfold slen in *. rewrite !length_rev in *. lia.
Qed.

(** X21. The blocks the packer collects account for [currentLength] exactly,
    and together they never exceed the budget. *)
Theorem packed_blocks_within_budget :
  forall (MAX_REFERENCED_TYPE_CONTENT_CHARS_CONSTANT : Z) (fileContent : str)
         (documentSymbols : option (list DocumentSymbol))
         (activeSymbolDetailedInfo : option ActiveSymbolDetailedInfo)
         (maxAllowedLength : Z) (st : PackerState),
    packedState MAX_REFERENCED_TYPE_CONTENT_CHARS_CONSTANT fileContent
                documentSymbols activeSymbolDetailedInfo maxAllowedLength
    = Ok st ->
    partsLength (collectedParts st) = currentLength st
    /\ 0 <= currentLength st <= Z.max 0 maxAllowedLength.
Proof.
  intros MAXC fileContent syms active maxLen st.
  apply (@packedState_invariant MAXC fileContent syms active maxLen
           (fun st => partsLength (collectedParts st) = currentLength st
                           /\ 0 <= currentLength st <= Z.max 0 maxLen)).
  - intros st0 r m d body [Hsum Hrange] Hcur Hfit.
    cbn [collectedParts currentLength].
    rewrite partsLength_snoc. cbn [content].
    pose proof (slen_nonneg (headerOf m d ++ body ++ footerOf m)). lia.
  - simpl. lia.
Qed.

Lemma packed_blocks_within_budget_witness :
  partsLength (collectedParts samplePacked) = currentLength samplePacked
  /\ 0 <= currentLength samplePacked <= Z.max 0 200.
Proof.
  apply (@packed_blocks_within_budget maxReferenced sampleFile None None 200).
  vm_compute. reflexivity.
Defined.

(** X22. Every collected block is a body between its section header and the
    matching end-of-section footer, and carries the start line of the
    range recorded for it. *)
Theorem packed_blocks_framed :
  forall (MAX_REFERENCED_TYPE_CONTENT_CHARS_CONSTANT : Z) (fileContent : str)
         (documentSymbols : option (list DocumentSymbol))
         (activeSymbolDetailedInfo : option ActiveSymbolDetailedInfo)
         (maxAllowedLength : Z) (st : PackerState),
    packedState MAX_REFERENCED_TYPE_CONTENT_CHARS_CONSTANT fileContent
                documentSymbols activeSymbolDetailedInfo maxAllowedLength
    = Ok st ->
    Forall (fun part => framed (content part)) (collectedParts st)
    /\ map startLine (collectedParts st)
       = map (fun r => line (start r)) (includedRanges st).
Proof.
  intros MAXC fileContent syms active maxLen st.
  apply (@packedState_invariant MAXC fileContent syms active maxLen
           (fun st =>
                   Forall (fun part => framed (content part)) (collectedParts st)
                   /\ map startLine (collectedParts st)
                      = map (fun r => line (start r)) (includedRanges st))).
  - intros st0 r m d body [Hframed Hlines] _ _. simpl. split.
    + apply Forall_app. split; [exact Hframed|].
      constructor; [|constructor]. simpl. now exists m, d, body.
    + rewrite !map_app, Hlines. reflexivity.
  - simpl. split; [constructor|reflexivity].
Qed.

Lemma packed_blocks_framed_witness :
  Forall (fun part => framed (content part)) (collectedParts samplePacked)
  /\ map startLine (collectedParts samplePacked)
     = map (fun r => line (start r)) (includedRanges samplePacked).
Proof.
  apply (@packed_blocks_framed maxReferenced sampleFile None None 200).
  vm_compute. reflexivity.
Defined.

(** X24. Whatever was collected, the summary is at most 19 characters (the
    truncation notice) longer than the budget, unless it is the fallback
    snippet, which has at most 153 characters. *)
Theorem summary_length_bound :
  forall (MAX_REFERENCED_TYPE_CONTENT_CHARS_CONSTANT : Z) (fileContent : str)
         (documentSymbols : option (list DocumentSymbol))
         (activeSymbolDetailedInfo : option ActiveSymbolDetailedInfo)
         (maxAllowedLength : Z) (summary : str),
    intelligentlySummarizeFileContent
      MAX_REFERENCED_TYPE_CONTENT_CHARS_CONSTANT fileContent documentSymbols
      activeSymbolDetailedInfo maxAllowedLength = Ok summary ->
    slen summary <= Z.max (Z.max 0 maxAllowedLength + 19) 153.
Proof.
  intros MAXC fileContent syms active maxLen summary.
  unfold intelligentlySummarizeFileContent.
  destruct (packedState _ _ _ _ _) as [st|e]; [|discriminate].
  simpl. intros [= <-]. unfold assemble.
  set (joined := join separator _).
  set (finalContent := if slen joined >? maxLen then _ else _).
  assert (Hfinal : slen finalContent <= Z.max 0 maxLen + 19).
  { subst finalContent.
    destruct (slen joined >? maxLen) eqn:E.
    - rewrite slen_app, slen_substring_0.
      change (slen truncatedSuffix) with 19. lia.
    - rewrite Z.gtb_ltb in E. apply Z.ltb_ge in E. lia. }
  destruct (_ && _).
  - unfold fallbackSnippet. rewrite !slen_app, slen_substring_0.
    change (slen (lit "...")) with 3.
    change (slen (lit "// File content could not be summarized. Snippet: "))
      with 50.
    lia.
  - pose proof (slen_trim finalContent). lia.
Qed.

Lemma summary_length_bound_witness :
  slen sampleSummary <= Z.max (Z.max 0 200 + 19) 153.
Proof.
  apply (@summary_length_bound maxReferenced sampleFile None None 200).
  vm_compute. reflexivity.
Defined.

Lemma frame_length (markerType description body : str) :
  25 <= slen (headerOf markerType description ++ body ++ footerOf markerType).
Proof.
  unfold headerOf, footerOf. rewrite !slen_app.
  change (slen (lit "// [")) with 4. change (slen (lit "]")) with 1.
  change (slen [nl]) with 1. change (slen END_SECTION) with 11.
  change (slen (lit ": ")) with 2.
  set (headerContent := if isEmptyStr description then [] else _).
  pose proof (slen_nonneg markerType). pose proof (slen_nonneg body).
  pose proof (slen_nonneg headerContent).
  lia.
Qed.

(** X25. A budget below 25 characters has no room for a section frame: nothing
    is collected, and the summary of a non-empty file is the fallback
    snippet (the empty string for an empty file). *)
Theorem summary_of_tiny_budget :
  forall (MAX_REFERENCED_TYPE_CONTENT_CHARS_CONSTANT : Z) (fileContent : str)
         (documentSymbols : option (list DocumentSymbol))
         (activeSymbolDetailedInfo : option ActiveSymbolDetailedInfo)
         (maxAllowedLength : Z),
    symbolsInFile fileContent documentSymbols ->
    0 <= maxAllowedLength < 25 ->
    intelligentlySummarizeFileContent
      MAX_REFERENCED_TYPE_CONTENT_CHARS_CONSTANT fileContent documentSymbols
      activeSymbolDetailedInfo maxAllowedLength
    = Ok (if slen fileContent >? 0 then fallbackSnippet fileContent else []).
Proof.
  intros MAXC fileContent syms active maxLen Hsyms Hmax.
  destruct (@packedState_ok MAXC fileContent syms active maxLen Hsyms)
    as [st Hst].
  unfold intelligentlySummarizeFileContent. rewrite Hst. simpl. f_equal.
  assert (E : st = initialState).
  { revert Hst.
    apply (@packedState_invariant MAXC fileContent syms active maxLen
             (fun st => st = initialState)); [|reflexivity].
    intros st0 r m d body -> _ Hfit. exfalso.
    pose proof (frame_length m d body).
    unfold initialState in Hfit. cbn [currentLength] in Hfit. lia. }
  subst st. unfold assemble. simpl.
  change (slen []) with 0.
  destruct (0 >? maxLen) eqn:E0; [apply Z.gtb_lt in E0; lia|].
  simpl. now destruct (slen fileContent >? 0).
Qed.

Lemma summary_of_tiny_budget_witness :
  intelligentlySummarizeFileContent maxReferenced sampleFile None None 24
  = Ok (if slen sampleFile >? 0 then fallbackSnippet sampleFile else []).
Proof.
  apply summary_of_tiny_budget; [exact I|lia].
Defined.

End PackerProperties.

Section SortStability.

Context {T : Type} (after : T -> T -> bool) (P : T -> bool).

Hypothesis after_separates :
  forall x y, after x y = true -> P x = true -> P y = false.

Lemma insertBy_filter (x : T) (l : list T) :
  filter P (insertBy after x l) = filter P (x :: l).
Proof.
  induction l as [|y l IH]; [reflexivity|].
  simpl insertBy. destruct (after x y) eqn:E; [|reflexivity].
  simpl in *. rewrite IH.
  destruct (P x) eqn:Px; [|reflexivity].
  now rewrite (@after_separates _ _ E Px).
Qed.

Lemma sortBy_filter (l : list T) : filter P (sortBy after l) = filter P l.
Proof.
  induction l as [|x l IH]; [reflexivity|].
  simpl sortBy. rewrite insertBy_filter. simpl. now rewrite IH.
Qed.

End SortStability.

Section SortOrders.

Local Open Scope Z_scope.

(** X20. The candidates are processed by descending priority and, within one
    priority, by ascending start line; candidates that agree on both keep
    the order in which they were generated. *)
Theorem candidates_processed_by_priority :
  forall candidates : list ContentCandidate,
    let sorted := sortBy candidateAfter candidates in
    Permutation candidates sorted
    /\ ForallOrdPairs priorityOrder sorted
    /\ forall p l : Z,
        filter (fun c => (priority c =? p) && (line (start (range c)) =? l))
               sorted
        = filter (fun c => (priority c =? p) && (line (start (range c)) =? l))
                 candidates.
Proof.
  intros candidates sorted. split; [apply sortBy_perm|]. split.
  - apply sortBy_sorted; unfold candidateAfter, priorityOrder.
    + intros a b.
      destruct (priority b - priority a =? 0) eqn:E; simpl;
        rewrite Z.gtb_ltb, Z.ltb_ge; [apply Z.eqb_eq in E|apply Z.eqb_neq in E];
        lia.
    + intros a b.
      destruct (priority b - priority a =? 0) eqn:E; simpl;
        rewrite Z.gtb_ltb, Z.ltb_lt; [apply Z.eqb_eq in E|apply Z.eqb_neq in E];
        lia.
    + intros a b c. lia.
  - intros p l. apply sortBy_filter. unfold candidateAfter.
    intros x y Hafter Hx.
    apply andb_prop in Hx. destruct Hx as [Hp Hl].
    apply Z.eqb_eq in Hp. apply Z.eqb_eq in Hl.
    apply andb_false_iff.
    destruct (priority y - priority x =? 0) eqn:E; simpl in Hafter;
      rewrite Z.gtb_ltb, Z.ltb_lt in Hafter.
    + right. apply Z.eqb_neq. lia.
    + left. apply Z.eqb_neq. apply Z.eqb_neq in E. lia.
Qed.

(** X23. The blocks of the summary follow the source: ascending start line,
    and blocks with the same start line in the order of their
    acceptance. *)
Theorem blocks_assembled_in_source_order :
  forall parts : list CollectedPart,
    let sorted := sortBy partAfter parts in
    Permutation parts sorted
    /\ ForallOrdPairs (fun a b => startLine a <= startLine b) sorted
    /\ forall l : Z,
        filter (fun part => startLine part =? l) sorted
        = filter (fun part => startLine part =? l) parts.
Proof.
  intros parts sorted. split; [apply sortBy_perm|]. split.
  - apply sortBy_sorted; unfold partAfter.
    + intros a b. rewrite Z.gtb_ltb, Z.ltb_ge. lia.
    + intros a b. rewrite Z.gtb_ltb, Z.ltb_lt. lia.
    + intros a b c. lia.
  - intros l. apply sortBy_filter. unfold partAfter.
    intros x y Hafter Hx. rewrite Z.gtb_ltb, Z.ltb_lt in Hafter.
    apply Z.eqb_eq in Hx. apply Z.eqb_neq. lia.
Qed.

End SortOrders.

(** ** The summary of a sample file *)

Section ReturnedSummary.

Lemma summary_returned_nonempty_witness :
  exists summary,
    intelligentlySummarizeFileContent maxReferenced sampleFile None None 200
    = Ok summary
    /\ summary <> [].
Proof.
  apply (@summary_returned_nonempty maxReferenced sampleFile None None 200).
  - exact I.
  - vm_compute. reflexivity.
Defined.

End ReturnedSummary.

(** ** The reverse dependency graph *)

Section ReverseGraph.

Local Open Scope Z_scope.

Lemma relationsOf_pushRelation (m : Graph) (k q : str)
      (r : DependencyRelation) :
  relationsOf (pushRelation m k r) q
  = if str_eq_dec k q then relationsOf m k ++ [r] else relationsOf m q.
Proof.
  unfold relationsOf, pushRelation.
  destruct (map_get m k) as [rs|] eqn:E.
  - destruct (str_eq_dec k q) as [->|Hne].
    + now rewrite map_get_set_same.
    + now rewrite map_get_set_other.
  - destruct (str_eq_dec k q) as [->|Hne].
    + now rewrite map_get_set_same.
    + now rewrite map_get_set_other.
Qed.

Lemma keys_pushRelation (m : Graph) (k q : str) (r : DependencyRelation) :
  In q (map_keys (pushRelation m k r)) <-> q = k \/ In q (map_keys m).
Proof.
  unfold pushRelation. destruct (map_get m k); apply map_keys_set.
Qed.

Lemma pushRelation_NoDup (m : Graph) (k : str) (r : DependencyRelation) :
  NoDup (map_keys m) -> NoDup (map_keys (pushRelation m k r)).
Proof.
  unfold pushRelation. destruct (map_get m k); apply map_set_NoDup.
Qed.

Lemma relationsOf_reverseRelations (importerPath p : str)
      (importedRelations : list DependencyRelation) :
  forall reverse : Graph,
    relationsOf (reverseRelations reverse (importerPath, importedRelations)) p
    = relationsOf reverse p
      ++ map (fun r => mkRelation importerPath (relationType r))
             (filter (fun r => str_eqb (path r) p) importedRelations).
Proof.
  unfold reverseRelations.
  induction importedRelations as [|r rs IH]; intros reverse; simpl.
  - now rewrite app_nil_r.
  - rewrite IH, relationsOf_pushRelation. unfold str_eqb.
    destruct (str_eq_dec (path r) p) as [->|Hne]; simpl.
    + now rewrite <- app_assoc.
    + reflexivity.
Qed.

Lemma edgesOf_app (g1 g2 : Graph) :
  edgesOf (g1 ++ g2) = edgesOf g1 ++ edgesOf g2.
Proof. unfold edgesOf. apply flat_map_app. Qed.

Lemma importersOf_cons (importerPath p : str)
      (importedRelations : list DependencyRelation) (g : Graph) :
  importersOf ((importerPath, importedRelations) :: g) p
  = map (fun r => mkRelation importerPath (relationType r))
        (filter (fun r => str_eqb (path r) p) importedRelations)
    ++ importersOf g p.
Proof.
  unfold importersOf, edgesOf. simpl.
  rewrite filter_app, map_app. f_equal.
  induction importedRelations as [|r rs IH]; simpl; [reflexivity|].
  destruct (str_eqb (path r) p); simpl; now rewrite IH.
Qed.

Lemma relationsOf_fold_reverse (g : Graph) (p : str) :
  forall reverse : Graph,
    relationsOf (fold_left reverseRelations g reverse) p
    = relationsOf reverse p ++ importersOf g p.
Proof.
  induction g as [|[importerPath importedRelations] g IH]; intros reverse;
    cbn [fold_left].
  - unfold importersOf. simpl. now rewrite app_nil_r.
  - rewrite IH, relationsOf_reverseRelations, importersOf_cons.
    now rewrite app_assoc.
Qed.

Lemma relationsOf_reverseOf (g : Graph) (p : str) :
  relationsOf (reverseOf g) p = importersOf g p.
Proof. unfold reverseOf. now rewrite relationsOf_fold_reverse. Qed.

Lemma deref_app (w : World) (added : list Graph) (r : Ref) :
  (r < List.length (objects w))%nat ->
  nth r (objects w ++ added) [] = deref w r.
Proof. intros H. unfold deref. now rewrite app_nth1. Qed.

(** X27. Called without a project root, [buildReverseDependencyGraph] returns a
    new map object that lists, for every path, the files importing it, in
    the order in which the forward graph is traversed and with the
    relation type of each import; the cache and the existing map objects
    are left as they were. *)
Theorem buildReverseDependencyGraph_lists_importers :
  forall (fileDependencies : Ref) (w : World),
    let result := buildReverseDependencyGraph fileDependencies None w in
    let reverse := fst result in
    let w' := snd result in
    reverse = List.length (objects w)
    /\ (forall p,
           relationsOf (deref w' reverse) p
           = importersOf (deref w fileDependencies) p)
    /\ dependencyCache w' = dependencyCache w
    /\ forall r, (r < List.length (objects w))%nat -> deref w' r = deref w r.
Proof.
  intros fileDependencies w. simpl. split; [reflexivity|]. split.
  - intros p. unfold deref at 1. simpl.
    rewrite app_nth2, Nat.sub_diag by lia. simpl.
    apply relationsOf_reverseOf.
  - split; [reflexivity|]. intros r Hr. unfold deref at 1. simpl.
    now apply deref_app.
Qed.

(** X28. The cache entry of a project root keeps its forward graph when a call
    with another graph stores a new reverse graph in it.  A later call
    with the cached forward graph therefore hits the cache and is handed
    the reverse of the other graph. *)
Theorem buildReverseDependencyGraph_cache_overwrite :
  forall (cachedGraph otherGraph : Ref) (workspacePath : str) (w : World)
         (cached : DependencyCache),
    map_get (dependencyCache w) workspacePath = Some cached ->
    dependencyGraph cached = cachedGraph ->
    otherGraph <> cachedGraph ->
    let first :=
      buildReverseDependencyGraph otherGraph (Some workspacePath) w in
    let second :=
      buildReverseDependencyGraph cachedGraph (Some workspacePath)
                                  (snd first) in
    second = first
    /\ forall p,
        relationsOf (deref (snd second) (fst second)) p
        = importersOf (deref w otherGraph) p.
Proof.
  intros cachedGraph otherGraph workspacePath w cached Hget Hcached Hother.
  assert (Hmiss : Nat.eqb (dependencyGraph cached) otherGraph = false).
  { apply Nat.eqb_neq. congruence. }
  assert (Efirst :
            buildReverseDependencyGraph otherGraph (Some workspacePath) w
            = (List.length (objects w),
               mkWorld (objects w ++ [reverseOf (deref w otherGraph)])
                       (map_set (dependencyCache w) workspacePath
                                (mkCache (timestamp cached)
                                         (dependencyGraph cached)
                                         (List.length (objects w))
                                         (DependencyGraph.workspacePath cached)
                                         (fileCount cached))))).
  { unfold buildReverseDependencyGraph. now rewrite Hget, Hmiss. }
  cbv zeta. rewrite Efirst. cbn [snd fst].
  assert (Esecond :
            buildReverseDependencyGraph cachedGraph (Some workspacePath)
              (mkWorld (objects w ++ [reverseOf (deref w otherGraph)])
                       (map_set (dependencyCache w) workspacePath
                                (mkCache (timestamp cached)
                                         (dependencyGraph cached)
                                         (List.length (objects w))
                                         (DependencyGraph.workspacePath cached)
                                         (fileCount cached))))
            = (List.length (objects w),
               mkWorld (objects w ++ [reverseOf (deref w otherGraph)])
                       (map_set (dependencyCache w) workspacePath
                                (mkCache (timestamp cached)
                                         (dependencyGraph cached)
                                         (List.length (objects w))
                                         (DependencyGraph.workspacePath cached)
                                         (fileCount cached))))).
  { unfold buildReverseDependencyGraph. cbn [dependencyCache].
    rewrite map_get_set_same. cbn [dependencyGraph reverseDependencyGraph].
    now rewrite Hcached, Nat.eqb_refl. }
  rewrite Esecond. split; [reflexivity|].
  intros p. cbn [snd fst]. unfold deref at 1. cbn [objects].
  rewrite app_nth2, Nat.sub_diag by lia. simpl.
  apply relationsOf_reverseOf.
Qed.

Lemma fold_reverse_keys (g : Graph) :
  forall reverse : Graph,
    NoDup (map_keys reverse) ->
    (forall k rs, In (k, rs) reverse -> rs <> []) ->
    NoDup (map_keys (fold_left reverseRelations g reverse))
    /\ forall k rs,
        In (k, rs) (fold_left reverseRelations g reverse) -> rs <> [].
Proof.
  induction g as [|[importerPath importedRelations] g IH]; intros reverse Hnd Hne;
    cbn [fold_left]; [now split|].
  apply IH; unfold reverseRelations.
  - clear IH Hne. revert reverse Hnd.
    induction importedRelations as [|r rs IHr]; intros reverse Hnd; simpl;
      [exact Hnd|].
    apply IHr. now apply pushRelation_NoDup.
  - clear IH Hnd. revert reverse Hne.
    induction importedRelations as [|r rs IHr]; intros reverse Hne; simpl;
      [exact Hne|].
    apply IHr. intros k rs0 Hin. unfold pushRelation in Hin.
    destruct (map_get reverse (path r)) as [old|];
      apply map_set_entries in Hin; destruct Hin as [[_ ->]|Hin];
      try (now apply (Hne k)); try discriminate.
    intros E. now apply app_eq_nil in E.
Qed.

(** X30. The statistics of a file, computed from a graph and its reverse graph:
    [importedBy] lists the importers of the file, one per import edge that
    points to it, and [incoming] and [outgoing] count the edges into and
    out of the file. *)
Theorem getFileDependencyStats_counts_edges :
  forall (fileDependencies : Graph) (filePath : str),
    let stats :=
      getFileDependencyStats filePath fileDependencies
                             (reverseOf fileDependencies) in
    let edgesIn :=
      filter (fun '(_, r) => str_eqb (path r) filePath)
             (edgesOf fileDependencies) in
    importedBy stats = map fst edgesIn
    /\ incoming stats = Z.of_nat (List.length edgesIn)
    /\ stats_imports stats = map path (relationsOf fileDependencies filePath)
    /\ outgoing stats
       = Z.of_nat (List.length (relationsOf fileDependencies filePath)).
Proof.
  intros g p. unfold getFileDependencyStats. simpl.
  rewrite relationsOf_reverseOf. unfold importersOf.
  rewrite !length_map, map_map.
  split; [|split; [reflexivity|split; reflexivity]].
  apply map_ext. now intros [q r].
Qed.

(** X29. The reverse graph has one entry per imported path, and every entry
    names at least one importer. *)
Theorem reverse_graph_entries :
  forall fileDependencies : Graph,
    NoDup (map_keys (reverseOf fileDependencies))
    /\ (forall imported importers,
           In (imported, importers) (reverseOf fileDependencies) ->
           importers <> [])
    /\ forall imported,
        In imported (map_keys (reverseOf fileDependencies))
        <-> exists importer r,
              In (importer, r) (edgesOf fileDependencies)
              /\ path r = imported.
Proof.
  intros g.
  destruct (fold_reverse_keys g []) as [Hnd Hne];
    [constructor|intros k rs []|].
  fold (reverseOf g) in Hnd, Hne.
  split; [exact Hnd|]. split; [exact Hne|].
  intros imported. split.
  - intros Hin. unfold map_keys in Hin. apply in_map_iff in Hin.
    destruct Hin as ([k rs] & <- & Hin). simpl.
    pose proof (Hne _ _ Hin) as Hrs.
    apply (In_map_get _ _ _ Hnd) in Hin.
    pose proof (relationsOf_reverseOf g k) as E.
    unfold relationsOf in E. rewrite Hin in E.
    destruct rs as [|x rs]; [contradiction|].
    assert (Hx : In x (importersOf g k)) by (rewrite <- E; now left).
    unfold importersOf in Hx. apply in_map_iff in Hx.
    destruct Hx as ([q r] & _ & Hq). apply filter_In in Hq.
    destruct Hq as [Hq Hp]. apply str_eqb_eq in Hp. eauto.
  - intros (importer & r & Hin & <-).
    assert (Hx : In (mkRelation importer (relationType r))
                    (relationsOf (reverseOf g) (path r))).
    { rewrite relationsOf_reverseOf. unfold importersOf.
      apply in_map_iff. exists (importer, r). split; [reflexivity|].
      apply filter_In. split; [exact Hin|]. now apply str_eqb_eq. }
    unfold relationsOf in Hx.
    destruct (map_get (reverseOf g) (path r)) eqn:E; [|destruct Hx].
    now apply map_get_key in E.
Qed.

Lemma buildReverseDependencyGraph_cache_overwrite_witness :
  let first :=
    buildReverseDependencyGraph 1%nat (Some (lit "/work")) sampleWorld in
  let second :=
    buildReverseDependencyGraph 0%nat (Some (lit "/work")) (snd first) in
  second = first
  /\ forall p,
      relationsOf (deref (snd second) (fst second)) p
      = importersOf (deref sampleWorld 1%nat) p.
Proof.
  apply (@buildReverseDependencyGraph_cache_overwrite
           0%nat 1%nat (lit "/work") sampleWorld
           (mkCache 0 0%nat 2%nat (lit "/work") 2)).
  - reflexivity.
  - reflexivity.
  - discriminate.
Defined.

End ReverseGraph.
